(** * Inspiro: client-side quote delivery and caching

    A shallow embedding of the quote service ([src/lib/quote-service.ts]),
    the batch endpoint ([src/app/api/quotes/batch/route.ts]) and the
    [useOptimizedQuotes] hook ([src/hooks/use-optimized-quotes.ts]),
    together with the properties the specification states about them.

    Conventions.
    - Database tables are lists of rows in storage order; Prisma's
      [findMany] with a [where] clause is a filter over the table and
      [select] a projection.
    - JavaScript [Map<string, _>] is [gmap string _], [Set<string>] is
      [gset string], arrays are lists read with [!!]; counts and positions
      are integers, and a draw of [Math.random] is a rational.
    - A React callback closes over the state of the render that created it
      (a [HookState] snapshot) and acts on the live component (a [World]):
      state setters, the [fetchedIds] ref, the network and the toasts.
      An awaited request is answered before the callback goes on; a
      request sent without [await] is answered by a later event.
    - [useMutation] passes the callbacks of each render to the mutation
      started last: its [onSuccess] reads the cache of the latest
      render, that of a mutation replaced by a later one the cache of
      the render before it was replaced. *)

From Stdlib Require Import ZArith QArith Qround.
From stdpp Require Import gmap strings list pretty.

Set Warnings "-register-all,-clear-no-such-hyp".

Local Open Scope Z_scope.
Local Open Scope nat_scope.

(** ** The quote service (server side) *)

Module QuoteService.

Section Service.

(** [Date] values are opaque; only [toISOString] is applied to them. *)
Context {Date : Type}.
Variable toISOString : Date → string.

(** Row of the [quote] table, with the columns the service reads. *)
Record QuoteRow := {
  q_id : string;
  q_text : string;
  q_author : string;
  q_category : option string;
  q_source : option string;
  q_isPreloaded : bool;
  q_userId : option string;
  q_createdAt : Date;
  q_updatedAt : Date
}.

(** Row of the [favorite] table. *)
Record FavoriteRow := {
  f_userId : string;
  f_quoteId : string
}.

Record Database := {
  quote_table : list QuoteRow;
  favorite_table : list FavoriteRow
}.

(** What [getQuotesByIds] returns for one quote: the selected columns,
    the two dates as ISO strings, and the favorite flag. *)
Record QuoteView := {
  v_id : string;
  v_text : string;
  v_author : string;
  v_category : option string;
  v_source : option string;
  v_isPreloaded : bool;
  v_isFavorited : bool;
  v_createdAt : string;
  v_updatedAt : string
}.

Inductive Source := PRELOADED | CUSTOM | FAVORITES | BOTH.

(** JavaScript truthiness of an optional string: [undefined] and the
    empty string are falsy. *)
Definition truthy (s : option string) : bool :=
  match s with
  | Some c => negb (String.eqb c "")
  | None => false
  end.

(** The [where] clause built by the [switch] of [getQuoteIds] for the
    sources that reach the quote query. *)
Definition source_clause (source : Source) (userId : string) (q : QuoteRow) : bool :=
  match source with
  | PRELOADED => q_isPreloaded q
  | CUSTOM => bool_decide (q_userId q = Some userId) && negb (q_isPreloaded q)
  | FAVORITES => true
  | BOTH =>
      q_isPreloaded q
      || (bool_decide (q_userId q = Some userId) && negb (q_isPreloaded q))
  end.

(** [if (category) whereClause.category = category] *)
Definition category_clause (category : option string) (q : QuoteRow) : bool :=
  if truthy category then bool_decide (q_category q = category) else true.

Definition getQuoteIds (source : Source) (userId : string)
    (category : option string) (db : Database) : list string :=
  match source with
  | FAVORITES =>
      let favorites :=
        filter (λ f, f_userId f = userId) (favorite_table db) in
      f_quoteId <$> favorites
  | _ =>
      let quotes :=
        filter (λ q, source_clause source userId q && category_clause category q = true)
               (quote_table db) in
      q_id <$> quotes
  end.

Definition getQuotesByIds (ids : list string) (userId : string)
    (db : Database) : list QuoteView :=
  let quotes := filter (λ q, q_id q ∈ ids) (quote_table db) in
  let favorites :=
    filter (λ f, f_userId f = userId ∧ f_quoteId f ∈ ids) (favorite_table db) in
  let favoriteSet : gset string := list_to_set (f_quoteId <$> favorites) in
  (λ quote,
     {| v_id := q_id quote;
        v_text := q_text quote;
        v_author := q_author quote;
        v_category := q_category quote;
        v_source := q_source quote;
        v_isPreloaded := q_isPreloaded quote;
        v_isFavorited := bool_decide (q_id quote ∈ favoriteSet);
        v_createdAt := toISOString (q_createdAt quote);
        v_updatedAt := toISOString (q_updatedAt quote) |}) <$> quotes.

(** A favorite row linking [userId] to [quoteId] exists. *)
Definition favorite_exists (db : Database) (userId quoteId : string) : Prop :=
  ∃ f, f ∈ favorite_table db ∧ f_userId f = userId ∧ f_quoteId f = quoteId.

(** The selection the specification gives for source BOTH: the quote
    is preloaded, or it was created by the user and is not preloaded. *)
Definition preloaded_or_own (userId : string) (q : QuoteRow) : Prop :=
  q_isPreloaded q = true
  ∨ (q_userId q = Some userId ∧ q_isPreloaded q = false).

(** The restriction the specification gives: to the given category,
    when one is supplied, that is, when the argument is a string that
    is not empty (the ids route passes [category || undefined]). *)
Definition in_category (category : option string) (q : QuoteRow) : Prop :=
  match category with
  | Some c => c ≠ "" → q_category q = Some c
  | None => True
  end.

Global Instance preloaded_or_own_dec userId q : Decision (preloaded_or_own userId q).
Proof. unfold preloaded_or_own. apply _. Defined.

Global Instance in_category_dec category q : Decision (in_category category q).
Proof. unfold in_category. destruct category; apply _. Defined.

End Service.

(** *** [shuffleArray] (Fisher-Yates)

    The same function is defined in [src/lib/quote-service.ts] and in
    [src/lib/utils.ts]; the hook imports the former. *)

(** [Math.floor(Math.random() * (i + 1))], for a draw [r] of
    [Math.random()], which lies in [[0, 1)]. *)
Definition random_index (r : Q) (i : nat) : nat :=
  Z.to_nat (Qfloor (r * inject_Z (Z.of_nat (i + 1)))).

(** [[shuffled[i], shuffled[j]] = [shuffled[j], shuffled[i]]].  Both
    indices are inside the array whenever the loop reaches the swap
    ([swap_reads_in_range] below); the fallback branch stands for the
    out-of-range accesses that never happen. *)
Definition swap {A : Type} (shuffled : list A) (i j : nat) : list A :=
  match shuffled !! i, shuffled !! j with
  | Some xi, Some xj => <[j := xi]> (<[i := xj]> shuffled)
  | _, _ => shuffled
  end.

(** [for (let i = ...; i > 0; i--)]: [k] counts the calls of
    [Math.random] made so far, [rnd k] is the result of call number [k]. *)
Fixpoint shuffle_loop {A : Type} (rnd : nat → Q) (k i : nat)
    (shuffled : list A) : list A :=
  match i with
  | 0 => shuffled
  | S i' =>
      let j := random_index (rnd k) i in
      shuffle_loop rnd (S k) i' (swap shuffled i j)
  end.

Definition shuffleArray {A : Type} (rnd : nat → Q) (array : list A) : list A :=
  let shuffled := array in
  shuffle_loop rnd 0 (length shuffled - 1) shuffled.

(** The contract of [Math.random]: every draw is in [[0, 1)]. *)
Definition unit_draws (rnd : nat → Q) : Prop :=
  ∀ k, (0 <= rnd k)%Q ∧ (rnd k < 1)%Q.

End QuoteService.

(** ** The batch endpoint: POST /api/quotes/batch *)

Module BatchRoute.

Import QuoteService.

(** A parsed JSON value.  Object members are kept in textual order;
    [JSON.parse] lets the last of several equal keys win. *)
Inductive JSON :=
| JNull
| JBool (b : bool)
| JNumber (n : Q)
| JString (s : string)
| JArray (items : list JSON)
| JObject (members : list (string * JSON)).

(** Property read [obj[key]] on a parsed object. *)
Definition member (key : string) (members : list (string * JSON)) : option JSON :=
  snd <$> last (filter (λ kv, kv.1 = key) members).

(** [z.string()] *)
Definition parse_string (v : JSON) : option string :=
  match v with
  | JString s => Some s
  | _ => None
  end.

(** [z.array(z.string()).min(1).max(50)]: [None] stands for a [ZodError]. *)
Definition parse_ids (v : option JSON) : option (list string) :=
  match v with
  | Some (JArray items) =>
      ids ← mapM parse_string items;
      if bool_decide (1 ≤ length ids) && bool_decide (length ids ≤ 50)
      then Some ids else None
  | _ => None
  end.

(** [batchSchema.parse(body)] *)
Definition batchSchema_parse (body : JSON) : option (list string) :=
  match body with
  | JObject members => parse_ids (member "ids" members)
  | _ => None
  end.

Record User := { user_id : option string }.
Record Session := { user : option User }.

(** [session?.user?.id] *)
Definition session_user_id (session : option Session) : option string :=
  s ← session; u ← user s; user_id u.

Section Route.

Context {Date : Type}.
Variable toISOString : Date → string.

Inductive Payload :=
| ErrorPayload (error : string)
| QuotesPayload (quotes : list QuoteView).

Record Response := {
  status : nat;
  payload : Payload
}.

(** The outcome of one request: the response, and the calls of
    [getQuotesByIds] made while handling it (ids and user). *)
Record Handled := {
  response : Response;
  service_calls : list (list string * string)
}.

(** The handler.  [session] is what [auth()] resolves to; [body] is
    what [request.json()] resolves to, [None] when it rejects because
    the body is not JSON.  The [details] member of the 400 payload is
    left out, and the database always answers. *)
Definition POST (session : option Session) (body : option JSON)
    (db : Database) : Handled :=
  if truthy (session_user_id session) then
    let userId := default "" (session_user_id session) in
    match body with
    | None =>
        (* request.json() throws something that is not a ZodError *)
        {| response := {| status := 500;
                          payload := ErrorPayload "Internal server error" |};
           service_calls := [] |}
    | Some body =>
        match batchSchema_parse body with
        | None =>
            {| response := {| status := 400;
                              payload := ErrorPayload "Invalid request" |};
               service_calls := [] |}
        | Some ids =>
            let quotes := getQuotesByIds toISOString ids userId db in
            {| response := {| status := 200; payload := QuotesPayload quotes |};
               service_calls := [(ids, userId)] |}
        end
    end
  else
    {| response := {| status := 401; payload := ErrorPayload "Unauthorized" |};
       service_calls := [] |}.

(** The body carries a list of between 1 and 50 string identifiers:
    it is an object whose [ids] member is such an array. *)
Definition well_formed_body (body : option JSON) (ids : list string) : Prop :=
  ∃ members,
    body = Some (JObject members)
    ∧ member "ids" members = Some (JArray (JString <$> ids))
    ∧ 1 ≤ length ids ≤ 50.

End Route.

End BatchRoute.

(** ** The [useOptimizedQuotes] hook (client side)

    The callbacks the hook returns and the mutation they share.  The
    effects that set the component up (first shuffle, first batch, first
    quote) produce the states the callbacks start from and are not
    modelled. *)

Module Hook.

Import QuoteService.

(** [Array.prototype.slice(start, end)] on integer arguments: a negative
    index counts from the end, both are clamped to the array. *)
Definition slice {A : Type} (l : list A) (start end_ : Z) : list A :=
  let len := Z.of_nat (length l) in
  let k := if (start <? 0)%Z then Z.max (len + start) 0 else Z.min start len in
  let final := if (end_ <? 0)%Z then Z.max (len + end_) 0 else Z.min end_ len in
  take (Z.to_nat (final - k)) (drop (Z.to_nat k) l).

Record Quote := {
  id : string;
  text : string;
  author : string;
  category : option string;
  source : option string;
  isFavorited : bool;
  createdAt : string;
  updatedAt : string
}.

(** The [useState] cells of the hook. *)
Record HookState := {
  allQuoteIds : list string;
  shuffledIds : list string;
  currentIdIndex : nat;
  quotesCache : gmap string Quote;
  currentQuote : option Quote;
  isInitialized : bool
}.

(** Requests sent by the hook.  A batch request also records the content
    of [fetchedIds.current] at the moment it is sent. *)
Inductive Request :=
| ListIds
| FetchBatch (ids : list string) (fetched : gset string)
| Favorite (method : string) (quoteId : string).

Inductive Toast :=
| ToastSuccess (message : string)
| ToastError (message : string).

(** A batch sent with [mutate] whose response has not arrived: its
    request number, its identifiers, and the [quotesCache] its
    [onSuccess] is bound to.  [useMutation] hands the callbacks of each
    render to the mutation started last, and to that one only: [None]
    is that mutation, whose [onSuccess] will be the one of the latest
    render; a mutation that a later [mutate] or [mutateAsync] has
    replaced keeps the callbacks it had, with the cache of the render
    before that call. *)
Definition Pending : Type := nat * list string * option (gmap string Quote).

(** The live component: the state the next render will see, the
    [fetchedIds] ref, every request sent so far, the batches sent with
    [mutate] whose response has not arrived, and the toasts shown. *)
Record World := {
  live : HookState;
  fetchedIds : gset string;
  requests : list Request;
  inflight : list Pending;
  toasts : list Toast
}.

(** An [async] callback either resolves or rejects. *)
Inductive Result :=
| Resolved (w : World)
| Rejected (w : World).

Definition world_of (r : Result) : World :=
  match r with
  | Resolved w => w
  | Rejected w => w
  end.

(** *** State setters and effects *)

Definition with_live (f : HookState → HookState) (w : World) : World :=
  {| live := f (live w); fetchedIds := fetchedIds w; requests := requests w;
     inflight := inflight w; toasts := toasts w |}.

Definition setShuffledIds (ids : list string) : World → World :=
  with_live (λ s,
    {| allQuoteIds := allQuoteIds s; shuffledIds := ids;
       currentIdIndex := currentIdIndex s; quotesCache := quotesCache s;
       currentQuote := currentQuote s; isInitialized := isInitialized s |}).

Definition setCurrentIdIndex (i : nat) : World → World :=
  with_live (λ s,
    {| allQuoteIds := allQuoteIds s; shuffledIds := shuffledIds s;
       currentIdIndex := i; quotesCache := quotesCache s;
       currentQuote := currentQuote s; isInitialized := isInitialized s |}).

Definition setQuotesCache (cache : gmap string Quote) : World → World :=
  with_live (λ s,
    {| allQuoteIds := allQuoteIds s; shuffledIds := shuffledIds s;
       currentIdIndex := currentIdIndex s; quotesCache := cache;
       currentQuote := currentQuote s; isInitialized := isInitialized s |}).

Definition setCurrentQuote (q : option Quote) : World → World :=
  with_live (λ s,
    {| allQuoteIds := allQuoteIds s; shuffledIds := shuffledIds s;
       currentIdIndex := currentIdIndex s; quotesCache := quotesCache s;
       currentQuote := q; isInitialized := isInitialized s |}).

Definition setIsInitialized (b : bool) : World → World :=
  with_live (λ s,
    {| allQuoteIds := allQuoteIds s; shuffledIds := shuffledIds s;
       currentIdIndex := currentIdIndex s; quotesCache := quotesCache s;
       currentQuote := currentQuote s; isInitialized := b |}).

Definition setFetchedIds (f : gset string) (w : World) : World :=
  {| live := live w; fetchedIds := f; requests := requests w;
     inflight := inflight w; toasts := toasts w |}.

Definition send (r : Request) (w : World) : World :=
  {| live := live w; fetchedIds := fetchedIds w; requests := requests w ++ [r];
     inflight := inflight w; toasts := toasts w |}.

Definition setInflight (l : list Pending) (w : World) : World :=
  {| live := live w; fetchedIds := fetchedIds w; requests := requests w;
     inflight := l; toasts := toasts w |}.

Definition toast (t : Toast) (w : World) : World :=
  {| live := live w; fetchedIds := fetchedIds w; requests := requests w;
     inflight := inflight w; toasts := toasts w ++ [t] |}.

(** [id => !fetchedIds.current.has(id)] *)
Definition unfetched (w : World) (ids : list string) : list string :=
  filter (λ id, id ∉ fetchedIds w) ids.

(** A batch request names only identifiers that were not in
    [fetchedIds.current] when it was sent. *)
Definition fresh_request (r : Request) : Prop :=
  match r with
  | FetchBatch ids fetched => Forall (λ id, id ∉ fetched) ids
  | _ => True
  end.

Definition is_ListIds (r : Request) : bool :=
  match r with
  | ListIds => true
  | _ => false
  end.

(** The identifiers named by the batch requests of a log, in order. *)
Definition batch_ids (r : Request) : list string :=
  match r with
  | FetchBatch ids _ => ids
  | _ => []
  end.

Definition requested_ids (log : list Request) : list string :=
  log ≫= batch_ids.

(** A batch request sent when [fetchedIds.current] held at least [base]
    and naming none of the identifiers it held. *)
Definition sent_after (base : gset string) (r : Request) : Prop :=
  match r with
  | FetchBatch ids fetched => base ⊆ fetched ∧ Forall (λ id, id ∉ fetched) ids
  | _ => True
  end.

(** [w'] comes after [w]: the requests [new] were sent in between, all
    of them batch or favorite requests made of identifiers unfetched at
    the time, and [fetchedIds] has only grown. *)
Definition follows (w w' : World) (new : list Request) : Prop :=
  requests w' = requests w ++ new
  ∧ Forall (sent_after (fetchedIds w)) new
  ∧ Forall (λ r, is_ListIds r = false) new
  ∧ fetchedIds w ⊆ fetchedIds w'.

(** The window of the next [n] identifiers starting at position [i]. *)
Definition window {A : Type} (l : list A) (i : nat) (n : Z) : list A :=
  take (Z.to_nat n) (drop i l).

Section UseOptimizedQuotes.

(** The options of the hook (20 and 5 when not given). *)
Variable batchSize : Z.
Variable prefetchThreshold : Z.

(** The batch endpoint as the client sees it: the answer to request
    number [n] for [ids]; [None] when the response is not ok. *)
Variable fetchBatch : nat → list string → option (list Quote).

(** The favorites endpoint: [true] when the response is ok, [false]
    when it is not or when [fetch] fails. *)
Variable favoritesApi : string → string → bool.

(** *** [fetchBatchMutation] *)

(** [onSuccess], as created by a render whose [quotesCache] is
    [captured]: a copy of that map is extended and stored, and
    [fetchedIds] is extended in place. *)
Definition onSuccess (captured : gmap string Quote) (quotes : list Quote)
    (w : World) : World :=
  let newCache :=
    foldl (λ newCache quote, <[id quote := quote]> newCache) captured quotes in
  let fetched :=
    foldl (λ fetched quote, fetched ∪ {[id quote]}) (fetchedIds w) quotes in
  setQuotesCache newCache (setFetchedIds fetched w).

Definition onError (w : World) : World :=
  toast (ToastError "Failed to load quotes") w.

(** The cache [onSuccess] reads when the response arrives: the one the
    mutation was left with, or the live one for the mutation started
    last. *)
Definition cache_read (captured : option (gmap string Quote)) (w : World)
    : gmap string Quote :=
  default (quotesCache (live w)) captured.

(** The response to request number [n] arrives. *)
Definition settle (n : nat) (ids : list string)
    (captured : option (gmap string Quote)) (w : World) : Result :=
  match fetchBatch n ids with
  | Some quotes => Resolved (onSuccess (cache_read captured w) quotes w)
  | None => Rejected (onError w)
  end.

(** Starting a mutation replaces the one started before: the batches
    still outstanding keep the callbacks they have now. *)
Definition supersede (w : World) : World :=
  setInflight
    ((λ p : Pending, (p.1.1, p.1.2, Some (cache_read p.2 w))) <$> inflight w) w.

(** [await fetchBatchMutation.mutateAsync(ids)] *)
Definition mutateAsync (ids : list string) (w : World) : Result :=
  let n := length (requests w) in
  let w := supersede w in
  settle n ids None (send (FetchBatch ids (fetchedIds w)) w).

(** [fetchBatchMutation.mutate(ids)]: the request is sent, the response
    is handled later by [deliver]. *)
Definition mutate (ids : list string) (w : World) : World :=
  let n := length (requests w) in
  let w := supersede w in
  let w := send (FetchBatch ids (fetchedIds w)) w in
  setInflight (inflight w ++ [(n, ids, None)]) w.

(** The oldest outstanding response arrives. *)
Definition deliver (w : World) : World :=
  match inflight w with
  | [] => w
  | (n, ids, captured) :: rest =>
      world_of (settle n ids captured (setInflight rest w))
  end.

(** *** [prefetchNextBatch], created by the render with state [s] *)

Definition prefetchNextBatch (s : HookState) (w : World) : World :=
  if bool_decide (length (shuffledIds s) = 0) then w
  else
    let remainingIds :=
      (Z.of_nat (length (shuffledIds s)) - Z.of_nat (currentIdIndex s))%Z in
    let unfetchedCount :=
      length (unfetched w
                (slice (shuffledIds s) (Z.of_nat (currentIdIndex s))
                       (Z.of_nat (currentIdIndex s) + batchSize))) in
    if bool_decide (0 < unfetchedCount)
       && bool_decide (remainingIds ≤ prefetchThreshold + batchSize)%Z
    then
      let nextBatchIds :=
        unfetched w
          (slice (shuffledIds s) (Z.of_nat (currentIdIndex s))
                 (Z.of_nat (currentIdIndex s) + batchSize)) in
      if bool_decide (0 < length nextBatchIds) then mutate nextBatchIds w
      else w
    else w.

(** The condition under which the specification has
    [prefetchNextBatch] send a request: the shuffle is not empty, the
    window of the next [batchSize] identifiers holds an unfetched one,
    and at most [prefetchThreshold + batchSize] identifiers remain. *)
Definition prefetch_wanted (s : HookState) (w : World) : Prop :=
  shuffledIds s ≠ []
  ∧ (∃ id, id ∈ window (shuffledIds s) (currentIdIndex s) batchSize
           ∧ id ∉ fetchedIds w)
  ∧ (Z.of_nat (length (shuffledIds s)) - Z.of_nat (currentIdIndex s)
     ≤ prefetchThreshold + batchSize)%Z.

(** *** [getNextQuote], created by the render with state [s] *)

(** The block run when [quote] is defined (lines 133 to 149). *)
Definition serve (rnd : nat → Q) (s : HookState) (nextIndex : nat)
    (quote : Quote) (w : World) : World :=
  let w := setCurrentQuote (Some quote) w in
  let w := setCurrentIdIndex (nextIndex + 1) w in
  let w := prefetchNextBatch s w in
  if bool_decide (length (shuffledIds s) ≤ nextIndex + 1) then
    let reshuffled := shuffleArray rnd (allQuoteIds s) in
    let w := setShuffledIds reshuffled w in
    let w := setCurrentIdIndex 0 w in
    toast (ToastSuccess "Reshuffled all quotes for fresh randomness!") w
  else w.

(** The [while] loop.  Each iteration either ends the call or
    increments [nextIndex], so [fuel] equal to the number of remaining
    positions is enough ([getNextQuote_loop_fuel]).  Both reads of the
    cache go to [quotesCache s], the map captured by the closure: the
    map [onSuccess] stores is a copy, the captured one is never
    written. *)
Fixpoint getNextQuote_loop (rnd : nat → Q) (s : HookState) (fuel : nat)
    (nextIndex : nat) (w : World) : Result :=
  match fuel with
  | 0 => Resolved w
  | S fuel =>
      match shuffledIds s !! nextIndex with
      | None => Resolved w
      | Some nextId =>
          let quote := quotesCache s !! nextId in
          let fetched : Result * option Quote :=
            if bool_decide (quote = None) && bool_decide (nextId ∉ fetchedIds w)
            then
              let batchEnd :=
                Z.min (Z.of_nat nextIndex + batchSize)
                      (Z.of_nat (length (shuffledIds s))) in
              let idsToFetch :=
                unfetched w (slice (shuffledIds s) (Z.of_nat nextIndex) batchEnd) in
              if bool_decide (0 < length idsToFetch) then
                (mutateAsync idsToFetch w, quotesCache s !! nextId)
              else (Resolved w, quote)
            else (Resolved w, quote) in
          match fetched with
          | (Rejected w, _) => Rejected w
          | (Resolved w, Some quote) => Resolved (serve rnd s nextIndex quote w)
          | (Resolved w, None) => getNextQuote_loop rnd s fuel (nextIndex + 1) w
          end
      end
  end.

Definition getNextQuote (rnd : nat → Q) (s : HookState) (w : World) : Result :=
  if bool_decide (length (shuffledIds s) = 0) then Resolved w
  else
    getNextQuote_loop rnd s (length (shuffledIds s) - currentIdIndex s)
                      (currentIdIndex s) w.

(** *** [toggleFavorite], created by the render with state [s] *)

Definition is_current (s : HookState) (quoteId : string) : bool :=
  match currentQuote s with
  | Some c => bool_decide (id c = quoteId)
  | None => false
  end.

Definition toggled (quote : Quote) : Quote :=
  {| id := id quote; text := text quote; author := author quote;
     category := category quote; source := source quote;
     isFavorited := negb (isFavorited quote);
     createdAt := createdAt quote; updatedAt := updatedAt quote |}.

Definition toggleFavorite (s : HookState) (quoteId : string) (w : World) : World :=
  match quotesCache s !! quoteId with
  | None => w
  | Some quote =>
      let updatedQuote := toggled quote in
      let newCache := <[quoteId := updatedQuote]> (quotesCache s) in
      let w := setQuotesCache newCache w in
      let w := if is_current s quoteId
               then setCurrentQuote (Some updatedQuote) w else w in
      let method := if isFavorited quote then "DELETE" else "POST" in
      let w := send (Favorite method quoteId) w in
      if favoritesApi method quoteId then w
      else
        (* Revert on error *)
        let newCache := <[quoteId := quote]> newCache in
        let w := setQuotesCache newCache w in
        let w := if is_current s quoteId
                 then setCurrentQuote (Some quote) w else w in
        toast (ToastError "Failed to update favorite") w
  end.

(** *** [reset] *)

Definition reset (w : World) : World :=
  let w := setIsInitialized false w in
  let w := setShuffledIds [] w in
  let w := setCurrentIdIndex 0 w in
  let w := setQuotesCache ∅ w in
  let w := setCurrentQuote None w in
  let w := setFetchedIds ∅ w in
  send ListIds w.

(** *** A session

    What happens to a mounted component between two resets: the user
    asks for the next quote or toggles a favorite (each callback being
    the one of the latest render), or the response to a batch sent with
    [mutate] arrives. *)

Inductive Event :=
| CallGetNextQuote (rnd : nat → Q)
| CallToggleFavorite (quoteId : string)
| ResponseArrives.

Definition step (w : World) (e : Event) : World :=
  match e with
  | CallGetNextQuote rnd => world_of (getNextQuote rnd (live w) w)
  | CallToggleFavorite quoteId => toggleFavorite (live w) quoteId w
  | ResponseArrives => deliver w
  end.

Definition session (events : list Event) (w : World) : World :=
  foldl step w events.

End UseOptimizedQuotes.

End Hook.

(** ** Sample data

    Concrete databases, requests and hook states on which the
    definitions above are run. *)

Module Samples.

Import QuoteService BatchRoute Hook.

(** Dates as seconds; every date prints the same. *)
Definition sample_iso (d : nat) : string := "2024-01-01T00:00:00.000Z".

Definition sample_row (qid : string) (preloaded : bool)
    (owner : option string) (cat : option string) : @QuoteRow nat :=
  {| q_id := qid; q_text := "text"; q_author := "author"; q_category := cat;
     q_source := None; q_isPreloaded := preloaded; q_userId := owner;
     q_createdAt := 0; q_updatedAt := 0 |}.

(** Two preloaded quotes, one quote of user [u1], one of user [u2];
    [u1] has favorited [q1]. *)
Definition sample_db : @Database nat :=
  {| quote_table :=
       [ sample_row "q1" true None (Some "life");
         sample_row "q2" true None None;
         sample_row "q3" false (Some "u1") (Some "life");
         sample_row "q4" false (Some "u2") None ];
     favorite_table := [ {| f_userId := "u1"; f_quoteId := "q1" |} ] |}.

Definition sample_session : option Session :=
  Some {| user := Some {| user_id := Some "u1" |} |}.

Definition sample_quote (qid : string) : Quote :=
  {| id := qid; text := "text"; author := "author"; category := None;
     source := None; isFavorited := false;
     createdAt := "2024-01-01T00:00:00.000Z";
     updatedAt := "2024-01-01T00:00:00.000Z" |}.

(** A batch endpoint that answers every request with the bodies of the
    requested identifiers. *)
Definition sample_fetchBatch (n : nat) (ids : list string) : option (list Quote) :=
  Some (sample_quote <$> ids).

(** A favorites endpoint that always fails. *)
Definition failing_favoritesApi (method quoteId : string) : bool := false.

(** [Math.random()] returning 1/2 at every call. *)
Definition sample_random (k : nat) : Q := 1 # 2.

(** After the first batch of two: [a] and [b] are cached, [b] is shown,
    [c] and [d] have not been fetched. *)
Definition sample_state : HookState :=
  {| allQuoteIds := ["a"; "b"; "c"; "d"];
     shuffledIds := ["a"; "b"; "c"; "d"];
     currentIdIndex := 2;
     quotesCache := <["a" := sample_quote "a"]> (<["b" := sample_quote "b"]> ∅);
     currentQuote := Some (sample_quote "b");
     isInitialized := true |}.

Definition sample_world : World :=
  {| live := sample_state;
     fetchedIds := {["a"; "b"]};
     requests := [];
     inflight := [];
     toasts := [] |}.

(** The same component one step earlier: [a] is shown, [b] is next and
    is the last identifier of a shuffle of two. *)
Definition sample_state_last : HookState :=
  {| allQuoteIds := ["a"; "b"];
     shuffledIds := ["a"; "b"];
     currentIdIndex := 1;
     quotesCache := <["a" := sample_quote "a"]> (<["b" := sample_quote "b"]> ∅);
     currentQuote := Some (sample_quote "a");
     isInitialized := true |}.

Definition sample_world_last : World :=
  {| live := sample_state_last;
     fetchedIds := {["a"; "b"]};
     requests := [];
     inflight := [];
     toasts := [] |}.

(** Right after the first batch of two has loaded: [a] is shown, [b]
    is next, [c] and [d] have not been fetched. *)
Definition sample_state_start : HookState :=
  {| allQuoteIds := ["a"; "b"; "c"; "d"];
     shuffledIds := ["a"; "b"; "c"; "d"];
     currentIdIndex := 1;
     quotesCache := <["a" := sample_quote "a"]> (<["b" := sample_quote "b"]> ∅);
     currentQuote := Some (sample_quote "a");
     isInitialized := true |}.

Definition sample_world_start : World :=
  {| live := sample_state_start;
     fetchedIds := {["a"; "b"]};
     requests := [];
     inflight := [];
     toasts := [] |}.

End Samples.

(** ** The rest of the quote service *)

Module Batches.

Import Hook.

(** [getNextBatch] of [src/lib/quote-service.ts]:
    [array.slice(index, index + batchSize)]. *)
Definition getNextBatch {A : Type} (array : list A) (index batchSize : Z) : list A :=
  slice array index (index + batchSize).

(** The draw [j / (i + 1)] of [Math.random], which makes
    [Math.floor(Math.random() * (i + 1))] equal to [j]. *)
Definition draw_for (j i : nat) : Q := Z.of_nat j # Pos.of_succ_nat i.

End Batches.

(** ** The identifier endpoint: GET /api/quotes/ids *)

Module IdsRoute.

Import QuoteService BatchRoute.

(** [searchParams.get(name)]: the first value given for [name], [null]
    when there is none. *)
Definition searchParams_get (name : string) (params : list (string * string))
    : option string :=
  snd <$> head (filter (λ kv, kv.1 = name) params).

(** [x || fallback] on an optional string. *)
Definition or_else (x fallback : option string) : option string :=
  if truthy x then x else fallback.

(** The [switch] of [getQuoteIds] on a string that was only cast to the
    union type: what is none of the first three labels runs the branch
    shared by ['BOTH'] and [default]. *)
Definition switch_source (source : string) : Source :=
  if String.eqb source "PRELOADED" then PRELOADED
  else if String.eqb source "CUSTOM" then CUSTOM
  else if String.eqb source "FAVORITES" then FAVORITES
  else BOTH.

Inductive Payload :=
| ErrorPayload (error : string)
| IdsPayload (ids : list string) (total : nat).

Record Response := {
  status : nat;
  payload : Payload
}.

Section Route.

Context {Date : Type}.

(** The handler; the database always answers. *)
Definition GET (session : option Session) (params : list (string * string))
    (db : @Database Date) : Response :=
  if truthy (session_user_id session) then
    let userId := default "" (session_user_id session) in
    let source :=
      default "BOTH" (or_else (searchParams_get "source" params) (Some "BOTH")) in
    let category := or_else (searchParams_get "category" params) None in
    let quoteIds := getQuoteIds (switch_source source) userId category db in
    {| status := 200; payload := IdsPayload quoteIds (length quoteIds) |}
  else
    {| status := 401; payload := ErrorPayload "Unauthorized" |}.

End Route.

End IdsRoute.

(** ** The favorites endpoint: POST and DELETE /api/favorites *)

Module FavoritesRoute.

Import QuoteService BatchRoute.

(** [favoriteSchema.parse(body)]: [None] stands for a [ZodError]. *)
Definition favoriteSchema_parse (body : JSON) : option string :=
  match body with
  | JObject members =>
      match member "quoteId" members with
      | Some (JString quoteId) => Some quoteId
      | _ => None
      end
  | _ => None
  end.

Section Route.

Context {Date : Type}.

(** The response status and the database the handler leaves. *)
Record Outcome := {
  status : nat;
  db_after : @Database Date
}.

(** [prisma.favorite.findUnique] on the pair [(userId, quoteId)]. *)
Definition findUnique (db : @Database Date) (userId quoteId : string)
    : option FavoriteRow :=
  head (filter (λ f, f_userId f = userId ∧ f_quoteId f = quoteId)
               (favorite_table db)).

(** [prisma.favorite.create]: the row refers to a quote ([include:
    { quote: true }]), so it is stored only when that quote is; [None]
    stands for the error thrown otherwise. *)
Definition favorite_create (db : @Database Date) (userId quoteId : string)
    : option (@Database Date) :=
  if bool_decide (quoteId ∈ q_id <$> quote_table db) then
    Some {| quote_table := quote_table db;
            favorite_table :=
              favorite_table db
              ++ [{| f_userId := userId; f_quoteId := quoteId |}] |}
  else None.

(** [prisma.favorite.delete] on the pair: [None] stands for the error
    thrown when there is no such row. *)
Definition favorite_delete (db : @Database Date) (userId quoteId : string)
    : option (@Database Date) :=
  match findUnique db userId quoteId with
  | Some _ =>
      Some {| quote_table := quote_table db;
              favorite_table :=
                filter (λ f, ¬ (f_userId f = userId ∧ f_quoteId f = quoteId))
                       (favorite_table db) |}
  | None => None
  end.

Definition POST (session : option Session) (body : option JSON)
    (db : @Database Date) : Outcome :=
  if truthy (session_user_id session) then
    let userId := default "" (session_user_id session) in
    match body with
    | None => {| status := 500; db_after := db |}
    | Some body =>
        match favoriteSchema_parse body with
        | None => {| status := 400; db_after := db |}
        | Some quoteId =>
            match findUnique db userId quoteId with
            | Some existing => {| status := 400; db_after := db |}
            | None =>
                match favorite_create db userId quoteId with
                | Some db' => {| status := 201; db_after := db' |}
                | None => {| status := 500; db_after := db |}
                end
            end
        end
    end
  else {| status := 401; db_after := db |}.

Definition DELETE (session : option Session) (body : option JSON)
    (db : @Database Date) : Outcome :=
  if truthy (session_user_id session) then
    let userId := default "" (session_user_id session) in
    match body with
    | None => {| status := 500; db_after := db |}
    | Some body =>
        match favoriteSchema_parse body with
        | None => {| status := 400; db_after := db |}
        | Some quoteId =>
            match favorite_delete db userId quoteId with
            | Some db' => {| status := 200; db_after := db' |}
            | None => {| status := 500; db_after := db |}
            end
        end
    end
  else {| status := 401; db_after := db |}.

(** [response.ok] *)
Definition response_ok (status : nat) : bool :=
  bool_decide (200 ≤ status ≤ 299).

(** The body [toggleFavorite] gives to [fetch]:
    [method === 'POST' ? JSON.stringify({ quoteId }) : undefined], as
    [request.json()] reads it on the server. *)
Definition toggle_body (method quoteId : string) : option JSON :=
  if String.eqb method "POST"
  then Some (JObject [("quoteId", JString quoteId)])
  else None.

(** The request of [toggleFavorite] handled by the route. *)
Definition toggle_fetch (session : option Session) (db : @Database Date)
    (method quoteId : string) : Outcome :=
  if String.eqb method "POST" then POST session (toggle_body method quoteId) db
  else DELETE session (toggle_body method quoteId) db.

(** The favorites endpoint as [toggleFavorite] sees it, over a database
    that stays as it is. *)
Definition toggle_api (session : option Session) (db : @Database Date)
    (method quoteId : string) : bool :=
  response_ok (status (toggle_fetch session db method quoteId)).

End Route.

End FavoritesRoute.

(** ** Utilities: [src/lib/utils.ts] *)

Module Utils.

Definition ROTATION_INTERVALS : list (Z * string) :=
  [ (10, "10 seconds"); (30, "30 seconds"); (60, "1 minute");
    (600, "10 minutes"); (3600, "1 hour"); (43200, "12 hours");
    (86400, "24 hours") ]%Z.

(** [Number.MAX_SAFE_INTEGER]: up to it in magnitude a JS number holds
    a whole number exactly. *)
Definition MAX_SAFE_INTEGER : Z := 2 ^ 53 - 1.

(** [Number.isSafeInteger] *)
Definition isSafeInteger (n : Z) : Prop :=
  (- MAX_SAFE_INTEGER ≤ n ≤ MAX_SAFE_INTEGER)%Z.

(** [formatInterval] on a whole number of seconds in the safe range.
    There the number is exact, [Math.floor] of the quotient is the
    integer quotient (the rounding of the division is too small to
    reach the next whole number), and the template literal prints
    decimal digits.  Beyond that range the quotient is rounded, and
    from 1e21 on a number is printed in exponent notation: such
    arguments are outside this definition. *)
Definition formatInterval (seconds : Z) : string :=
  if (seconds <? 60)%Z then pretty seconds +:+ " seconds"
  else if (seconds <? 3600)%Z then
    pretty (seconds / 60)%Z +:+ " minute"
    +:+ (if (120 <=? seconds)%Z then "s" else "")
  else if (seconds <? 86400)%Z then
    pretty (seconds / 3600)%Z +:+ " hour"
    +:+ (if (7200 <=? seconds)%Z then "s" else "")
  else
    pretty (seconds / 86400)%Z +:+ " day"
    +:+ (if (172800 <=? seconds)%Z then "s" else "").

End Utils.

(** ** The hook: effects, statistics and what it sends to the server *)

Module Lifecycle.

Import QuoteService BatchRoute Hook.

Definition setAllQuoteIds (ids : list string) : World → World :=
  with_live (λ s,
    {| allQuoteIds := ids; shuffledIds := shuffledIds s;
       currentIdIndex := currentIdIndex s; quotesCache := quotesCache s;
       currentQuote := currentQuote s; isInitialized := isInitialized s |}).

(** The effect "initialize and shuffle IDs when loaded", run by the
    render with state [s]; [idsData] is [idsData?.ids]. *)
Definition initialize (rnd : nat → Q) (idsData : option (list string))
    (s : HookState) (w : World) : World :=
  match idsData with
  | Some ids =>
      if bool_decide (0 < length ids) && negb (isInitialized s) then
        let shuffled := shuffleArray rnd ids in
        let w := setAllQuoteIds ids w in
        let w := setShuffledIds shuffled w in
        setIsInitialized true w
      else w
  | None => w
  end.

(** The effect "initial load: fetch first batch". *)
Definition loadFirstBatch (batchSize : Z) (s : HookState) (w : World) : World :=
  if bool_decide (0 < length (shuffledIds s))
     && bool_decide (size (quotesCache s) = 0)
  then
    let firstBatchIds := slice (shuffledIds s) 0 batchSize in
    mutate firstBatchIds w
  else w.

(** The effect "set initial quote when first batch loads". *)
Definition showFirstQuote (s : HookState) (w : World) : World :=
  if bool_decide (0 < size (quotesCache s))
     && bool_decide (currentQuote s = None)
     && bool_decide (0 < length (shuffledIds s))
  then
    match shuffledIds s !! 0 with
    | Some firstId =>
        match quotesCache s !! firstId with
        | Some firstQuote =>
            setCurrentIdIndex 1 (setCurrentQuote (Some firstQuote) w)
        | None => w
        end
    | None => w
    end
  else w.

(** The [stats] object returned by the hook. *)
Record Stats := {
  totalQuotes : nat;
  cachedQuotes : nat;
  currentPosition : nat;
  remainingInShuffle : Z
}.

Definition stats (s : HookState) : Stats :=
  {| totalQuotes := length (allQuoteIds s);
     cachedQuotes := size (quotesCache s);
     currentPosition := currentIdIndex s;
     remainingInShuffle :=
       Z.max 0 (Z.of_nat (length (shuffledIds s)) - Z.of_nat (currentIdIndex s)) |}.

(** The body of a batch request, [JSON.stringify({ ids })], as
    [request.json()] reads it on the server. *)
Definition batch_body (ids : list string) : JSON :=
  JObject [("ids", JArray (JString <$> ids))].

(** A batch request of between 1 and [n] identifiers. *)
Definition sized_request (n : Z) (r : Request) : Prop :=
  match r with
  | FetchBatch ids _ => (1 ≤ Z.of_nat (length ids) ≤ n)%Z
  | _ => True
  end.

(** Between [w] and [w'] only requests that satisfy [P] were sent. *)
Definition sends_only (P : Request → Prop) (w w' : World) : Prop :=
  ∃ new, requests w' = requests w ++ new ∧ Forall P new.

(** The caches a batch response may extend and store: the live one,
    and those held by the outstanding batches that a later batch has
    replaced. *)
Definition caches (w : World) : list (gmap string Quote) :=
  quotesCache (live w) :: omap snd (inflight w).

(** Invariants of a mounted component: the position is inside the
    shuffle, the shuffle is a rearrangement of the full list, and every
    cached body, in each of these caches, is recorded as fetched. *)
Definition position_in_range (w : World) : Prop :=
  currentIdIndex (live w) ≤ length (shuffledIds (live w)).

Definition shuffle_of_all (w : World) : Prop :=
  shuffledIds (live w) ≡ₚ allQuoteIds (live w).

Definition cached_are_fetched (w : World) : Prop :=
  Forall (λ cache, dom cache ⊆ fetchedIds w) (caches w).

(** [w'] shows what [w] shows: the states differ at most in the cache. *)
Definition same_display (w w' : World) : Prop :=
  allQuoteIds (live w') = allQuoteIds (live w)
  ∧ shuffledIds (live w') = shuffledIds (live w)
  ∧ currentIdIndex (live w') = currentIdIndex (live w)
  ∧ currentQuote (live w') = currentQuote (live w)
  ∧ isInitialized (live w') = isInitialized (live w)
  ∧ toasts w' = toasts w.

(** Every call of [getNextQuote] in the session draws in [[0, 1)]. *)
Definition draws_in_range (e : Event) : Prop :=
  match e with
  | CallGetNextQuote rnd => unit_draws rnd
  | _ => True
  end.

End Lifecycle.

(** ** More sample data *)

Module MoreSamples.

Import QuoteService BatchRoute Hook Samples.

(** A batch endpoint that fails every request. *)
Definition failing_fetchBatch (n : nat) (ids : list string)
    : option (list Quote) := None.

(** A favorites endpoint that accepts every request. *)
Definition accepting_favoritesApi (method quoteId : string) : bool := true.

(** A collection of one quote, after the first quote has been shown. *)
Definition sample_world_single : World :=
  {| live := {| allQuoteIds := ["a"]; shuffledIds := ["a"];
                currentIdIndex := 1;
                quotesCache := <["a" := sample_quote "a"]> ∅;
                currentQuote := Some (sample_quote "a");
                isInitialized := true |};
     fetchedIds := {["a"]};
     requests := [];
     inflight := [];
     toasts := [] |}.

(** Right after the first shuffle: nothing fetched, nothing shown. *)
Definition sample_world_fresh : World :=
  {| live := {| allQuoteIds := ["a"; "b"; "c"; "d"];
                shuffledIds := ["a"; "b"; "c"; "d"];
                currentIdIndex := 0;
                quotesCache := ∅;
                currentQuote := None;
                isInitialized := true |};
     fetchedIds := ∅;
     requests := [];
     inflight := [];
     toasts := [] |}.

(** Before the identifier list has arrived. *)
Definition sample_world_blank : World :=
  {| live := {| allQuoteIds := []; shuffledIds := [];
                currentIdIndex := 0;
                quotesCache := ∅;
                currentQuote := None;
                isInitialized := false |};
     fetchedIds := ∅;
     requests := [];
     inflight := [];
     toasts := [] |}.

(** The quotes of [sample_db] that user [u1] is offered, after the
    first batch of two: [q1], a favorite, is shown, [q3] has not been
    fetched. *)
Definition sample_world_db : World :=
  {| live := {| allQuoteIds := ["q1"; "q2"; "q3"];
                shuffledIds := ["q1"; "q2"; "q3"];
                currentIdIndex := 1;
                quotesCache :=
                  <["q1" := toggled (sample_quote "q1")]>
                    (<["q2" := sample_quote "q2"]> ∅);
                currentQuote := Some (toggled (sample_quote "q1"));
                isInitialized := true |};
     fetchedIds := {["q1"; "q2"]};
     requests := [];
     inflight := [];
     toasts := [] |}.

(** The same user a little later: [q3] is shown and is not a
    favorite. *)
Definition sample_world_q3 : World :=
  {| live := {| allQuoteIds := ["q1"; "q2"; "q3"];
                shuffledIds := ["q1"; "q2"; "q3"];
                currentIdIndex := 0;
                quotesCache :=
                  <["q1" := toggled (sample_quote "q1")]>
                    (<["q2" := sample_quote "q2"]>
                       (<["q3" := sample_quote "q3"]> ∅));
                currentQuote := Some (sample_quote "q3");
                isInitialized := true |};
     fetchedIds := {["q1"; "q2"; "q3"]};
     requests := [];
     inflight := [];
     toasts := [] |}.

Definition sample_favorite (qid : string) : Quote :=
  {| id := qid; text := "text"; author := "author"; category := None;
     source := None; isFavorited := true;
     createdAt := "2024-01-01T00:00:00.000Z";
     updatedAt := "2024-01-01T00:00:00.000Z" |}.

(** The quote [a] is shown and is a favorite. *)
Definition sample_world_favorite : World :=
  {| live := {| allQuoteIds := ["a"; "b"]; shuffledIds := ["a"; "b"];
                currentIdIndex := 1;
                quotesCache := <["a" := sample_favorite "a"]> ∅;
                currentQuote := Some (sample_favorite "a");
                isInitialized := true |};
     fetchedIds := {["a"]};
     requests := [];
     inflight := [];
     toasts := [] |}.

End MoreSamples.

(** * Properties *)

(** ** The quote service *)

Section QuoteServiceFacts.

Import QuoteService.

Context {Date : Type}.
Variable toISOString : Date → string.

Implicit Types (db : @Database Date) (q : @QuoteRow Date).

Lemma truthy_Some c : truthy (Some c) = true ↔ c ≠ "".
Proof.
  simpl. rewrite negb_true_iff. split.
  - intros H ->. by rewrite String.eqb_refl in H.
  - intros H. by apply String.eqb_neq.
Qed.

Lemma source_clause_both userId q :
  source_clause BOTH userId q = true ↔ preloaded_or_own userId q.
Proof.
  unfold preloaded_or_own. simpl.
  rewrite orb_true_iff, andb_true_iff, negb_true_iff, bool_decide_eq_true.
  done.
Qed.

Lemma category_clause_spec category q :
  category_clause category q = true ↔ in_category category q.
Proof.
  unfold category_clause, in_category. destruct category as [c|]; [|done].
  destruct (truthy (Some c)) eqn:Ht.
  - apply truthy_Some in Ht. rewrite bool_decide_eq_true. naive_solver.
  - split; [|done]. intros _ Hc. apply truthy_Some in Hc. congruence.
Qed.

Lemma both_selection_filter userId category db :
  getQuoteIds BOTH userId category db
  = q_id <$> filter (λ q, preloaded_or_own userId q ∧ in_category category q)
                    (quote_table db).
Proof.
  unfold getQuoteIds. f_equal. apply list_filter_iff. intros q.
  rewrite andb_true_iff, source_clause_both, category_clause_spec. done.
Qed.

(** C7.  With source BOTH, [getQuoteIds] returns exactly the identifiers
    of the quotes that are preloaded or were created by the user
    ([userId] matches and [isPreloaded] is false), restricted to the
    category when one (a non-empty string) is supplied: the result is
    that selection of the quote table, in table order, and an identifier
    is in it exactly when such a quote carries it. *)
Theorem getQuoteIds_both userId category db :
  getQuoteIds BOTH userId category db
  = q_id <$> filter (λ q, preloaded_or_own userId q ∧ in_category category q)
                    (quote_table db)
  ∧ ∀ qid, qid ∈ getQuoteIds BOTH userId category db
           ↔ ∃ q, q ∈ quote_table db ∧ q_id q = qid
                  ∧ preloaded_or_own userId q ∧ in_category category q.
Proof.
  split; [apply both_selection_filter|]. intros qid.
  rewrite both_selection_filter, list_elem_of_fmap.
  setoid_rewrite list_elem_of_filter. naive_solver.
Qed.

(** C10.  With source FAVORITES the category argument has no effect:
    whatever it is, the result is the [quoteId] column of the user's
    favorite rows, so it holds every quote the user has favorited
    whatever its category. *)
Theorem getQuoteIds_favorites_ignores_category userId category category' db :
  getQuoteIds FAVORITES userId category db
  = getQuoteIds FAVORITES userId category' db
  ∧ getQuoteIds FAVORITES userId category db
    = f_quoteId <$> filter (λ f, f_userId f = userId) (favorite_table db)
  ∧ ∀ qid, qid ∈ getQuoteIds FAVORITES userId category db
           ↔ favorite_exists db userId qid.
Proof.
  split_and!; [done..|]. intros qid. unfold getQuoteIds, favorite_exists.
  rewrite list_elem_of_fmap. setoid_rewrite list_elem_of_filter. naive_solver.
Qed.

Lemma elem_of_getQuotesByIds ids userId db v :
  v ∈ getQuotesByIds toISOString ids userId db
  ↔ ∃ q, q ∈ quote_table db ∧ q_id q ∈ ids
         ∧ v_id v = q_id q
         ∧ v = {| v_id := q_id q; v_text := q_text q; v_author := q_author q;
                  v_category := q_category q; v_source := q_source q;
                  v_isPreloaded := q_isPreloaded q;
                  v_isFavorited :=
                    bool_decide (q_id q ∈ (list_to_set (f_quoteId <$>
                      filter (λ f, f_userId f = userId ∧ f_quoteId f ∈ ids)
                             (favorite_table db)) : gset string));
                  v_createdAt := toISOString (q_createdAt q);
                  v_updatedAt := toISOString (q_updatedAt q) |}.
Proof.
  unfold getQuotesByIds. rewrite list_elem_of_fmap.
  setoid_rewrite list_elem_of_filter. split.
  - intros (q & -> & ? & ?). exists q. done.
  - intros (q & ? & ? & _ & ->). exists q. done.
Qed.

(** C6.  Every record returned by [getQuotesByIds] has its id among the
    requested ones, and its [isFavorited] flag is true exactly when a
    favorite row linking the user to that quote exists. *)
Theorem getQuotesByIds_sound ids userId db v :
  v ∈ getQuotesByIds toISOString ids userId db →
  v_id v ∈ ids
  ∧ (v_isFavorited v = true ↔ favorite_exists db userId (v_id v)).
Proof.
  intros (q & Hq & Hin & Hid & ->)%elem_of_getQuotesByIds. simpl.
  split; [done|]. rewrite bool_decide_eq_true, elem_of_list_to_set.
  rewrite list_elem_of_fmap. setoid_rewrite list_elem_of_filter.
  unfold favorite_exists. split.
  - intros (f & -> & [? _] & ?). eauto.
  - intros (f & ? & ? & Hf). exists f. rewrite Hf. done.
Qed.

(** Every stored quote whose id is requested is returned. *)
Lemma getQuotesByIds_complete ids userId db q :
  q ∈ quote_table db → q_id q ∈ ids →
  q_id q ∈ v_id <$> getQuotesByIds toISOString ids userId db.
Proof.
  intros Hq Hin. unfold getQuotesByIds. rewrite <- list_fmap_compose.
  apply list_elem_of_fmap. exists q. split; [done|].
  by apply list_elem_of_filter.
Qed.

End QuoteServiceFacts.

(** ** [shuffleArray] *)

Section ShuffleFacts.

Import QuoteService.

Context {A : Type}.
Implicit Types (l shuffled array : list A).

(** A draw in [[0, 1)] gives an index between [0] and [i]. *)
Lemma random_index_le r i :
  (0 <= r)%Q → (r < 1)%Q → random_index r i ≤ i.
Proof.
  intros _ Hlt. unfold random_index.
  set (n := Z.of_nat (i + 1)).
  assert (Hn : (inject_Z 0 < inject_Z n)%Q).
  { rewrite <- Zlt_Qlt. subst n. lia. }
  assert (Hfloor : (Qfloor (r * inject_Z n) < n)%Z).
  { rewrite Zlt_Qlt. eapply Qle_lt_trans; [apply Qfloor_le|].
    rewrite <- (Qmult_1_l (inject_Z n)) at 2.
    by apply Qmult_lt_compat_r. }
  subst n. lia.
Qed.

(** Inside the array both reads of the swap succeed, so the swap is the
    exchange of the two cells. *)
Lemma swap_reads_in_range l i j :
  i < length l → j ≤ i →
  ∃ xi xj, l !! i = Some xi ∧ l !! j = Some xj
           ∧ swap l i j = <[j := xi]> (<[i := xj]> l).
Proof.
  intros Hi Hj.
  destruct (lookup_lt_is_Some_2 l i Hi) as [xi Hxi].
  destruct (lookup_lt_is_Some_2 l j) as [xj Hxj]; [lia|].
  exists xi, xj. unfold swap. by rewrite Hxi, Hxj.
Qed.

Lemma swap_Permutation l i j :
  i < length l → j ≤ i → swap l i j ≡ₚ l.
Proof.
  intros Hi Hj.
  destruct (swap_reads_in_range l i j Hi Hj) as (xi & xj & Hxi & Hxj & ->).
  by apply Permutation_insert_swap.
Qed.

Lemma shuffle_loop_Permutation rnd i : ∀ k l,
  unit_draws rnd → i < length l ∨ i = 0 →
  shuffle_loop rnd k i l ≡ₚ l.
Proof.
  induction i as [|i IH]; intros k l Hrnd Hi; [done|].
  destruct Hi as [Hi|]; [|done]. simpl.
  assert (Hj : random_index (rnd k) (S i) ≤ S i).
  { destruct (Hrnd k). by apply random_index_le. }
  pose proof (swap_Permutation l (S i) _ Hi Hj) as Hswap.
  rewrite IH; [done..|]. left. rewrite Hswap. lia.
Qed.

Lemma shuffleArray_perm rnd array :
  unit_draws rnd → shuffleArray rnd array ≡ₚ array.
Proof.
  intros Hrnd. unfold shuffleArray. apply shuffle_loop_Permutation; [done|].
  destruct array; simpl; lia.
Qed.

Lemma shuffleArray_elem_of rnd array x :
  unit_draws rnd → x ∈ shuffleArray rnd array ↔ x ∈ array.
Proof. intros Hrnd. by rewrite shuffleArray_perm. Qed.

Lemma shuffleArray_NoDup rnd array :
  unit_draws rnd → NoDup array → NoDup (shuffleArray rnd array).
Proof. intros Hrnd. by rewrite shuffleArray_perm. Qed.

(** C3.  For every array, and whatever [Math.random] draws in
    [[0, 1)], [shuffleArray] returns a permutation of its input: the
    same length and the same multiset of elements. *)
Theorem shuffleArray_Permutation rnd array :
  unit_draws rnd →
  length (shuffleArray rnd array) = length array
  ∧ shuffleArray rnd array ≡ₚ array.
Proof.
  intros Hrnd. pose proof (shuffleArray_perm rnd array Hrnd) as Hperm.
  split; [by rewrite Hperm | done].
Qed.

End ShuffleFacts.

(** ** The batch endpoint *)

Section BatchRouteFacts.

Import QuoteService BatchRoute.

Context {Date : Type}.
Variable toISOString : Date → string.

Implicit Types (db : @Database Date) (body : option JSON) (json : JSON).

Lemma mapM_parse_string items ids :
  mapM parse_string items = Some ids ↔ items = JString <$> ids.
Proof.
  split.
  - intros H. symmetry. apply (mapM_fmap_Some_inv parse_string); [done|].
    intros [] y; simpl; congruence.
  - intros ->. by apply mapM_fmap_Some.
Qed.

Lemma parse_ids_Some v ids :
  parse_ids v = Some ids
  ↔ v = Some (JArray (JString <$> ids)) ∧ 1 ≤ length ids ≤ 50.
Proof.
  unfold parse_ids. split.
  - destruct v as [[]|]; try done. intros H.
    destruct (mapM parse_string items) as [ids'|] eqn:Hm; simpl in H; [|done].
    case_match eqn:Hb; [|done]. simplify_eq.
    apply andb_true_iff in Hb as [?%bool_decide_eq_true ?%bool_decide_eq_true].
    apply mapM_parse_string in Hm as ->. done.
  - intros [-> [? ?]].
    rewrite (proj2 (mapM_parse_string _ ids) eq_refl). simpl.
    rewrite !bool_decide_eq_true_2 by done. done.
Qed.

Lemma batchSchema_parse_Some json ids :
  batchSchema_parse json = Some ids ↔ well_formed_body (Some json) ids.
Proof.
  unfold well_formed_body. split.
  - destruct json; try done. simpl. intros [? ?]%parse_ids_Some. eauto.
  - intros (members & [= ->] & Hm & ?). simpl. apply parse_ids_Some. done.
Qed.

Lemma well_formed_body_None ids : ¬ well_formed_body None ids.
Proof. by intros (? & ? & _). Qed.

(** C8, as the code has it.  For an authenticated request whose body is
    JSON, the handler answers 400, without calling [getQuotesByIds],
    whenever the body does not carry a list of between 1 and 50 string
    identifiers; it calls [getQuotesByIds] only with a list within those
    bounds, taken from the body.  A body that is not JSON is answered
    with 500, also without a call. *)
Theorem batch_validation session body db :
  truthy (session_user_id session) = true →
  let handled := POST toISOString session body db in
  (∀ json, body = Some json → (¬ ∃ ids, well_formed_body body ids) →
     status (response handled) = 400 ∧ service_calls handled = [])
  ∧ (body = None →
     status (response handled) = 500 ∧ service_calls handled = [])
  ∧ (∀ ids userId, (ids, userId) ∈ service_calls handled →
     well_formed_body body ids ∧ 1 ≤ length ids ≤ 50
     ∧ session_user_id session = Some userId
     ∧ response handled
       = {| status := 200;
            payload := QuotesPayload (getQuotesByIds toISOString ids userId db) |}).
Proof.
  intros Hauth. unfold POST. rewrite Hauth. simpl.
  destruct (session_user_id session) as [u|] eqn:Hu; [|done]. simpl.
  split_and!.
  - intros json -> Hbad.
    destruct (batchSchema_parse json) as [ids|] eqn:Hp; [|done].
    destruct Hbad. exists ids. by apply batchSchema_parse_Some.
  - by intros ->.
  - intros ids userId. destruct body as [json|]; [|by intros ?%elem_of_nil].
    destruct (batchSchema_parse json) as [ids'|] eqn:Hp;
      [|by intros ?%elem_of_nil].
    simpl. intros [= -> ->]%list_elem_of_singleton.
    apply batchSchema_parse_Some in Hp as Hwf.
    split_and!; try done; by destruct Hwf as (? & _ & _ & ? & ?).
Qed.

End BatchRouteFacts.

(** C8, as stated, fails: an authenticated request whose body is not JSON
    carries no list of identifiers at all, and the handler answers it
    with 500, not 400. *)
Lemma batch_not_json_is_500 :
  ¬ (∀ (session : option BatchRoute.Session) (body : option BatchRoute.JSON)
       (db : @QuoteService.Database unit),
       QuoteService.truthy (BatchRoute.session_user_id session) = true →
       (¬ ∃ ids, BatchRoute.well_formed_body body ids) →
       BatchRoute.status
         (BatchRoute.response (BatchRoute.POST (λ _, "") session body db)) = 400).
Proof.
  intros H.
  specialize (H (Some {| BatchRoute.user :=
                           Some {| BatchRoute.user_id := Some "u1" |} |})
                None
                {| QuoteService.quote_table := [];
                   QuoteService.favorite_table := [] |}
                eq_refl).
  simpl in H. discriminate H. intros [ids Hwf]. by apply well_formed_body_None in Hwf.
Qed.

(** ** The hook *)

Section SliceFacts.

Import Hook.

Context {A : Type}.
Implicit Types (l : list A).

(** [slice(i, i + n)] for a position [i] and a count [n ≥ 0] is the
    window of the next [n] elements from [i]. *)
Lemma slice_window l (i : nat) (n : Z) :
  (0 ≤ n)%Z → slice l (Z.of_nat i) (Z.of_nat i + n) = window l i n.
Proof.
  intros Hn. unfold slice, window.
  destruct (Z.ltb_spec (Z.of_nat i) 0) as [|_]; [lia|].
  destruct (Z.ltb_spec (Z.of_nat i + n) 0) as [|_]; [lia|].
  destruct (decide (i ≤ length l)) as [Hi|Hi].
  - replace (Z.to_nat (Z.min (Z.of_nat i) (Z.of_nat (length l)))) with i by lia.
    destruct (decide (Z.to_nat n ≤ length l - i)) as [Hle|Hgt].
    + f_equal. lia.
    + rewrite !take_ge; [done|rewrite length_drop; lia..].
  - replace (Z.to_nat (Z.min (Z.of_nat i) (Z.of_nat (length l))))
      with (length l) by lia.
    rewrite !drop_ge by lia. by rewrite !take_nil.
Qed.

(** The batch of [getNextQuote], cut at the end of the array, is the
    same window. *)
Lemma slice_batchEnd l (i : nat) (n : Z) :
  (0 ≤ n)%Z →
  slice l (Z.of_nat i) (Z.min (Z.of_nat i + n) (Z.of_nat (length l)))
  = window l i n.
Proof.
  intros Hn. rewrite <- slice_window by done. unfold slice.
  destruct (Z.ltb_spec (Z.of_nat i + n) 0) as [|_]; [lia|].
  destruct (Z.ltb_spec (Z.min (Z.of_nat i + n) (Z.of_nat (length l))) 0)
    as [|_]; [lia|].
  f_equal. lia.
Qed.

Lemma window_head l (i : nat) (n : Z) x :
  (1 ≤ n)%Z → l !! i = Some x → ∃ rest, window l i n = x :: rest.
Proof.
  intros Hn Hx. unfold window.
  rewrite (drop_S l x i Hx).
  destruct (Z.to_nat n) as [|m] eqn:Hm; [lia|]. simpl. eauto.
Qed.

Lemma window_sublist l (i : nat) (n : Z) : window l i n `sublist_of` l.
Proof.
  unfold window. etrans; [apply sublist_take | apply sublist_drop].
Qed.

End SliceFacts.

Section WorldFacts.

Import Hook.

Implicit Types (s : HookState) (w : World) (ids : list string).

(** *** Unfetched identifiers *)

Lemma unfetched_nonempty w ids :
  0 < length (unfetched w ids) ↔ ∃ id, id ∈ ids ∧ id ∉ fetchedIds w.
Proof.
  unfold unfetched. split.
  - destruct (filter _ ids) as [|id rest] eqn:Hf; simpl; [lia|]. intros _.
    assert (Hin : id ∈ filter (λ id, id ∉ fetchedIds w) ids)
      by (rewrite Hf; left).
    apply list_elem_of_filter in Hin as [? ?]. eauto.
  - intros (id & Hin & Hnot).
    assert (Hf : id ∈ filter (λ id, id ∉ fetchedIds w) ids)
      by by apply list_elem_of_filter.
    destruct (filter _ ids); [by apply elem_of_nil in Hf | simpl; lia].
Qed.

Lemma unfetched_sent_after w ids :
  sent_after (fetchedIds w) (FetchBatch (unfetched w ids) (fetchedIds w)).
Proof.
  simpl. split; [done|]. apply Forall_forall. intros id Hin.
  by apply list_elem_of_filter in Hin as [? _].
Qed.

Lemma sent_after_fresh base r : sent_after base r → fresh_request r.
Proof. destruct r; simpl; [done| |done]. by intros [_ ?]. Qed.

Lemma sent_after_mono base base' r :
  base' ⊆ base → sent_after base r → sent_after base' r.
Proof.
  intros Hsub. destruct r; simpl; [done| |done].
  intros [? ?]. split; [set_solver|done].
Qed.

Lemma sent_after_not_requested base new id :
  Forall (sent_after base) new → id ∈ base → id ∉ requested_ids new.
Proof.
  intros Hnew Hid Hreq. unfold requested_ids in Hreq.
  apply list_elem_of_bind in Hreq as (r & Hin & Hr).
  rewrite Forall_forall in Hnew. specialize (Hnew r Hr).
  destruct r; simpl in *; try by apply elem_of_nil in Hin.
  destruct Hnew as [Hsub Hfresh]. rewrite Forall_forall in Hfresh.
  apply (Hfresh id Hin). set_solver.
Qed.

(** *** The order of worlds *)

Lemma follows_refl w : follows w w [].
Proof. unfold follows. by rewrite app_nil_r. Qed.

Lemma follows_trans w1 w2 w3 new new' :
  follows w1 w2 new → follows w2 w3 new' → follows w1 w3 (new ++ new').
Proof.
  intros (Hr & Hs & Hl & Hf) (Hr' & Hs' & Hl' & Hf'). unfold follows.
  split_and!.
  - by rewrite Hr', Hr, app_assoc.
  - apply Forall_app. split; [done|].
    eapply Forall_impl; [exact Hs'|]. intros r. by apply sent_after_mono.
  - by apply Forall_app.
  - set_solver.
Qed.

(** A step that sends nothing and leaves [fetchedIds] alone. *)
Lemma follows_quiet w w' :
  requests w' = requests w → fetchedIds w' = fetchedIds w → follows w w' [].
Proof.
  intros Hr Hf. unfold follows. rewrite Hr, Hf, app_nil_r. done.
Qed.

Lemma follows_fresh w w' new :
  follows w w' new →
  requests w' = requests w ++ new
  ∧ Forall fresh_request new
  ∧ ∀ id, id ∈ fetchedIds w → id ∉ requested_ids new.
Proof.
  intros (Hr & Hs & _ & _). split_and!; [done| |].
  - eapply Forall_impl; [done|]. apply sent_after_fresh.
  - intros id Hid. by eapply sent_after_not_requested.
Qed.

Lemma fetchedIds_onSuccess c quotes w :
  fetchedIds w ⊆ fetchedIds (onSuccess c quotes w).
Proof.
  unfold Hook.onSuccess. simpl. generalize (fetchedIds w).
  induction quotes as [|q quotes IH]; intros f; simpl; [done|].
  etrans; [|apply IH]. set_solver.
Qed.

Lemma elem_of_fetchedIds_onSuccess c quotes w q :
  q ∈ quotes → id q ∈ fetchedIds (onSuccess c quotes w).
Proof.
  unfold Hook.onSuccess. simpl. generalize (fetchedIds w).
  induction quotes as [|q' quotes IH]; intros f Hin;
    [by apply elem_of_nil in Hin|].
  simpl. apply elem_of_cons in Hin as [->|Hin]; [|by apply IH].
  assert (Hmono : ∀ (l : list Quote) (g : gset string),
            g ⊆ foldl (λ fetched quote, fetched ∪ {[id quote]}) g l).
  { clear. induction l as [|x l IH]; intros g; simpl; [done|].
    etrans; [|apply IH]. set_solver. }
  apply Hmono. set_solver.
Qed.

Lemma follows_send_batch w w' ids :
  follows (send (FetchBatch (unfetched w ids) (fetchedIds w)) w) w' [] →
  follows w w' [FetchBatch (unfetched w ids) (fetchedIds w)].
Proof.
  intros (Hr & _ & _ & Hf). simpl in Hr, Hf. rewrite app_nil_r in Hr.
  unfold follows. split_and!; [done| | |done].
  - constructor; [apply unfetched_sent_after|done].
  - by constructor.
Qed.

Lemma follows_mutate ids w :
  follows w (mutate (unfetched w ids) w)
          [FetchBatch (unfetched w ids) (fetchedIds w)].
Proof. by apply follows_send_batch, follows_quiet. Qed.

End WorldFacts.

Section HookFacts.

Import QuoteService Hook.

Variable batchSize : Z.
Variable prefetchThreshold : Z.
Variable fetchBatch : nat → list string → option (list Quote).
Variable favoritesApi : string → string → bool.

Local Abbreviation prefetchNextBatch :=
  (Hook.prefetchNextBatch batchSize prefetchThreshold).
Local Abbreviation serve := (Hook.serve batchSize prefetchThreshold).
Local Abbreviation getNextQuote_loop :=
  (Hook.getNextQuote_loop batchSize prefetchThreshold fetchBatch).
Local Abbreviation getNextQuote :=
  (Hook.getNextQuote batchSize prefetchThreshold fetchBatch).
Local Abbreviation mutateAsync := (Hook.mutateAsync fetchBatch).
Local Abbreviation settle := (Hook.settle fetchBatch).
Local Abbreviation deliver := (Hook.deliver fetchBatch).
Local Abbreviation toggleFavorite := (Hook.toggleFavorite favoritesApi).
Local Abbreviation step :=
  (Hook.step batchSize prefetchThreshold fetchBatch favoritesApi).
Local Abbreviation session :=
  (Hook.session batchSize prefetchThreshold fetchBatch favoritesApi).
Local Abbreviation prefetch_wanted :=
  (Hook.prefetch_wanted batchSize prefetchThreshold).

Implicit Types (s : HookState) (w : World) (ids : list string).

(** *** Sending and settling batch requests *)

Lemma follows_settle n ids c w : follows w (world_of (settle n ids c w)) [].
Proof.
  unfold follows, Hook.settle. rewrite app_nil_r.
  destruct (fetchBatch n ids) as [quotes|]; simpl; [|done].
  split_and!; [done..|]. apply (fetchedIds_onSuccess (cache_read c w)).
Qed.

Lemma requests_onSuccess c quotes w :
  requests (onSuccess c quotes w) = requests w.
Proof. done. Qed.

Lemma requests_settle n ids c w :
  requests (world_of (settle n ids c w)) = requests w.
Proof. unfold Hook.settle. by destruct (fetchBatch n ids). Qed.

Lemma requests_mutateAsync ids w :
  requests (world_of (mutateAsync ids w))
  = requests w ++ [FetchBatch ids (fetchedIds w)].
Proof. unfold Hook.mutateAsync. by rewrite (requests_settle _ _ None). Qed.

Lemma requests_mutate ids w :
  requests (mutate ids w) = requests w ++ [FetchBatch ids (fetchedIds w)].
Proof. done. Qed.

Lemma follows_mutateAsync ids w :
  follows w (world_of (mutateAsync (unfetched w ids) w))
          [FetchBatch (unfetched w ids) (fetchedIds w)].
Proof.
  apply follows_send_batch.
  destruct (follows_settle (length (requests w)) (unfetched w ids) None
              (send (FetchBatch (unfetched w ids) (fetchedIds w)) (supersede w)))
    as (Hr & _ & _ & Hf).
  unfold follows. rewrite app_nil_r in *. by split_and!.
Qed.

Lemma follows_deliver w : follows w (deliver w) [].
Proof.
  unfold Hook.deliver. destruct (inflight w) as [|[[n ids] c] rest];
    [apply follows_refl|].
  destruct (follows_settle n ids c (setInflight rest w)) as (Hr & _ & _ & Hf).
  rewrite app_nil_r in Hr. unfold follows. by rewrite app_nil_r.
Qed.

(** *** [prefetchNextBatch] *)

Lemma prefetchNextBatch_wanted s w :
  (0 ≤ batchSize)%Z → prefetch_wanted s w →
  prefetchNextBatch s w
  = mutate (unfetched w (window (shuffledIds s) (currentIdIndex s) batchSize)) w.
Proof.
  intros Hb (Hne & Hex & Hrem). unfold Hook.prefetchNextBatch.
  rewrite slice_window by done.
  apply unfetched_nonempty in Hex.
  rewrite bool_decide_eq_false_2
    by (by destruct (shuffledIds s)).
  by rewrite !bool_decide_eq_true_2 by done.
Qed.

Lemma prefetchNextBatch_unwanted s w :
  (0 ≤ batchSize)%Z → ¬ prefetch_wanted s w → prefetchNextBatch s w = w.
Proof.
  intros Hb Hnot. unfold Hook.prefetchNextBatch.
  rewrite slice_window by done.
  case_bool_decide as Hlen; [done|].
  case_bool_decide as Hcount; simpl; [|done].
  case_bool_decide as Hrem; simpl; [|done].
  destruct Hnot. split_and!; [|by apply unfetched_nonempty|done].
  intros Hnil. by rewrite Hnil in Hlen.
Qed.

(** Whatever [batchSize] is, a request sent by [prefetchNextBatch] is
    made of unfetched identifiers. *)
Lemma follows_prefetchNextBatch s w :
  ∃ new, follows w (prefetchNextBatch s w) new.
Proof.
  unfold Hook.prefetchNextBatch.
  repeat case_match;
    first [ exists []; apply follows_refl
          | eexists; apply follows_mutate ].
Qed.

(** C5.  With a batch size that is not negative, [prefetchNextBatch]
    sends a batch request if and only if the shuffled list is not
    empty, the window of the next [batchSize] identifiers from
    [currentIdIndex] holds an unfetched identifier, and the number of
    identifiers left in the shuffle is at most
    [prefetchThreshold + batchSize]; the request then holds exactly the
    unfetched identifiers of that window.  Otherwise nothing is sent. *)
Theorem prefetchNextBatch_request s w :
  (0 ≤ batchSize)%Z →
  (prefetch_wanted s w →
   requests (prefetchNextBatch s w)
   = requests w
     ++ [FetchBatch
           (filter (λ id, id ∉ fetchedIds w)
                   (window (shuffledIds s) (currentIdIndex s) batchSize))
           (fetchedIds w)])
  ∧ (¬ prefetch_wanted s w → requests (prefetchNextBatch s w) = requests w).
Proof.
  intros Hb. split; intros H.
  - by rewrite prefetchNextBatch_wanted.
  - by rewrite prefetchNextBatch_unwanted.
Qed.

(** *** [getNextQuote] *)

Lemma live_prefetchNextBatch s w : live (prefetchNextBatch s w) = live w.
Proof. unfold Hook.prefetchNextBatch. by repeat case_match. Qed.

Lemma fetchedIds_prefetchNextBatch s w :
  fetchedIds (prefetchNextBatch s w) = fetchedIds w.
Proof. unfold Hook.prefetchNextBatch. by repeat case_match. Qed.

(** One iteration of the loop, by cases.  A cached body is served; an
    uncached identifier is skipped, after a batch has been fetched when
    it was not in [fetchedIds]: the fetched body goes to the live cache,
    not to the captured one the loop reads. *)
Lemma getNextQuote_loop_step rnd s fuel nextIndex w :
  getNextQuote_loop rnd s (S fuel) nextIndex w
  = match shuffledIds s !! nextIndex with
    | None => Resolved w
    | Some nextId =>
        match quotesCache s !! nextId with
        | Some quote => Resolved (serve rnd s nextIndex quote w)
        | None =>
            let idsToFetch :=
              unfetched w
                (slice (shuffledIds s) (Z.of_nat nextIndex)
                   (Z.min (Z.of_nat nextIndex + batchSize)
                          (Z.of_nat (length (shuffledIds s))))) in
            if bool_decide (nextId ∉ fetchedIds w)
               && bool_decide (0 < length idsToFetch)
            then
              match mutateAsync idsToFetch w with
              | Resolved w' => getNextQuote_loop rnd s fuel (nextIndex + 1) w'
              | Rejected w' => Rejected w'
              end
            else getNextQuote_loop rnd s fuel (nextIndex + 1) w
        end
    end.
Proof.
  simpl. destruct (shuffledIds s !! nextIndex) as [nextId|]; [|done].
  destruct (quotesCache s !! nextId) as [quote|] eqn:Hq; simpl.
  { done. }
  case_bool_decide; simpl; [|done].
  case_bool_decide; simpl; [|done].
  by destruct (mutateAsync _ _).
Qed.

(** Fuel: any amount that covers the remaining positions gives the same
    result, so [getNextQuote] always completes. *)
Lemma getNextQuote_loop_fuel rnd s fuel : ∀ fuel' nextIndex w,
  length (shuffledIds s) - nextIndex ≤ fuel →
  length (shuffledIds s) - nextIndex ≤ fuel' →
  getNextQuote_loop rnd s fuel nextIndex w
  = getNextQuote_loop rnd s fuel' nextIndex w.
Proof.
  induction fuel as [|fuel IH]; intros fuel' nextIndex w Hf Hf'.
  - destruct fuel'; [done|]. rewrite getNextQuote_loop_step.
    by rewrite lookup_ge_None_2 by lia.
  - destruct fuel' as [|fuel'].
    + rewrite getNextQuote_loop_step. by rewrite lookup_ge_None_2 by lia.
    + rewrite !getNextQuote_loop_step.
      destruct (shuffledIds s !! nextIndex) as [nextId|]; [|done].
      destruct (quotesCache s !! nextId); [done|]. simpl.
      case_match; [destruct (mutateAsync _ _); [|done]|]; apply IH; lia.
Qed.

(** When the batch endpoint answers every request, the call resolves. *)
Lemma getNextQuote_loop_resolves rnd s fuel :
  (∀ n ids, is_Some (fetchBatch n ids)) →
  ∀ nextIndex w, ∃ w', getNextQuote_loop rnd s fuel nextIndex w = Resolved w'.
Proof.
  intros Hserver. induction fuel as [|fuel IH]; intros nextIndex w; [by eexists|].
  rewrite getNextQuote_loop_step.
  destruct (shuffledIds s !! nextIndex) as [nextId|]; [|by eexists].
  destruct (quotesCache s !! nextId) as [quote|]; [by eexists|].
  simpl. case_match; [|apply IH].
  unfold Hook.mutateAsync, Hook.settle.
  match goal with |- context [fetchBatch ?n ?ids] =>
    destruct (Hserver n ids) as [quotes ->]
  end.
  apply IH.
Qed.

Lemma getNextQuote_resolves rnd s w :
  (∀ n ids, is_Some (fetchBatch n ids)) →
  ∃ w', getNextQuote rnd s w = Resolved w'.
Proof.
  intros Hserver. unfold Hook.getNextQuote. case_bool_decide; [by eexists|].
  by apply getNextQuote_loop_resolves.
Qed.

Lemma follows_serve rnd s nextIndex quote w :
  ∃ new, follows w (serve rnd s nextIndex quote w) new.
Proof.
  unfold Hook.serve.
  destruct (follows_prefetchNextBatch s
              (setCurrentIdIndex (nextIndex + 1) (setCurrentQuote (Some quote) w)))
    as (new & Hnew).
  exists new. by case_bool_decide.
Qed.

Lemma follows_getNextQuote_loop rnd s fuel : ∀ nextIndex w,
  ∃ new, follows w (world_of (getNextQuote_loop rnd s fuel nextIndex w)) new.
Proof.
  induction fuel as [|fuel IH]; intros nextIndex w.
  { exists []. apply follows_refl. }
  rewrite getNextQuote_loop_step.
  destruct (shuffledIds s !! nextIndex) as [nextId|];
    [|exists []; apply follows_refl].
  destruct (quotesCache s !! nextId) as [quote|]; [apply follows_serve|].
  simpl. case_match; [|apply IH].
  match goal with |- context [mutateAsync (unfetched w ?ids) w] =>
    pose proof (follows_mutateAsync ids w) as Hsent;
    destruct (mutateAsync (unfetched w ids) w) as [w'|w']
  end; simpl in Hsent.
  - destruct (IH (nextIndex + 1) w') as (new & Hnew).
    eexists. by eapply follows_trans.
  - by eexists.
Qed.

Lemma follows_getNextQuote rnd s w :
  ∃ new, follows w (world_of (getNextQuote rnd s w)) new.
Proof.
  unfold Hook.getNextQuote. case_bool_decide.
  - exists []. apply follows_refl.
  - apply follows_getNextQuote_loop.
Qed.

Lemma requests_getNextQuote_loop rnd s fuel nextIndex w :
  ∃ new, requests (world_of (getNextQuote_loop rnd s fuel nextIndex w))
         = requests w ++ new.
Proof.
  destruct (follows_getNextQuote_loop rnd s fuel nextIndex w) as (new & ? & _).
  eauto.
Qed.

(** *** Sessions *)

Lemma follows_toggleFavorite s quoteId w :
  ∃ new, follows w (toggleFavorite s quoteId w) new.
Proof.
  unfold Hook.toggleFavorite.
  destruct (quotesCache s !! quoteId) as [quote|];
    [|exists []; apply follows_refl].
  eexists [Favorite _ quoteId]. unfold follows.
  destruct (favoritesApi _ quoteId), (is_current s quoteId); simpl;
    (split_and!; [done|by repeat constructor..|done]).
Qed.

Lemma follows_step w e : ∃ new, follows w (step w e) new.
Proof.
  destruct e as [rnd|quoteId|]; simpl.
  - apply follows_getNextQuote.
  - apply follows_toggleFavorite.
  - exists []. apply follows_deliver.
Qed.

Lemma follows_session events : ∀ w, ∃ new, follows w (session events w) new.
Proof.
  induction events as [|e events IH]; intros w; simpl.
  { exists []. apply follows_refl. }
  destruct (follows_step w e) as (new & Hnew).
  destruct (IH (step w e)) as (new' & Hnew').
  eexists. by eapply follows_trans.
Qed.

(** C1, as the code has it.  Every batch request sent by [getNextQuote]
    or by [prefetchNextBatch], in any state, names only identifiers that
    are absent from [fetchedIds] at the moment it is sent; and so, over
    any session, an identifier that is in [fetchedIds] (its body has
    been delivered) is named by no later request. *)
Theorem batch_requests_unfetched rnd s w events :
  (∃ new, requests (world_of (getNextQuote rnd s w)) = requests w ++ new
          ∧ Forall fresh_request new
          ∧ ∀ id, id ∈ fetchedIds w → id ∉ requested_ids new)
  ∧ (∃ new, requests (prefetchNextBatch s w) = requests w ++ new
            ∧ Forall fresh_request new
            ∧ ∀ id, id ∈ fetchedIds w → id ∉ requested_ids new)
  ∧ (∃ new, requests (session events w) = requests w ++ new
            ∧ Forall fresh_request new
            ∧ ∀ id, id ∈ fetchedIds w → id ∉ requested_ids new).
Proof.
  split_and!.
  - destruct (follows_getNextQuote rnd s w) as (new & Hnew).
    exists new. by apply follows_fresh.
  - destruct (follows_prefetchNextBatch s w) as (new & Hnew).
    exists new. by apply follows_fresh.
  - destruct (follows_session events w) as (new & Hnew).
    exists new. by apply follows_fresh.
Qed.

(** *** Serving and reshuffling *)

(** The loop serves the first position, from [nextIndex] on, whose body
    is in the captured cache, unless a fetch on the way fails. *)
Lemma getNextQuote_loop_serves rnd s k nextId quote :
  shuffledIds s !! k = Some nextId →
  quotesCache s !! nextId = Some quote →
  ∀ fuel nextIndex w w',
    nextIndex ≤ k → k - nextIndex < fuel →
    (∀ j id', nextIndex ≤ j < k → shuffledIds s !! j = Some id' →
              quotesCache s !! id' = None) →
    getNextQuote_loop rnd s fuel nextIndex w = Resolved w' →
    ∃ w0, w' = serve rnd s k quote w0.
Proof.
  intros Hk Hquote. induction fuel as [|fuel IH];
    intros nextIndex w w' Hle Hfuel Hskip; [lia|].
  rewrite getNextQuote_loop_step.
  destruct (decide (nextIndex = k)) as [->|Hne].
  - rewrite Hk, Hquote. intros [= <-]. eauto.
  - destruct (lookup_lt_is_Some_2 (shuffledIds s) nextIndex) as [id' Hid'].
    { apply lookup_lt_Some in Hk. lia. }
    rewrite Hid', (Hskip nextIndex id') by (done || lia). simpl.
    assert (Hskip' : ∀ j id'', nextIndex + 1 ≤ j < k →
              shuffledIds s !! j = Some id'' → quotesCache s !! id'' = None).
    { intros j id'' ?. apply Hskip. lia. }
    case_match; [destruct (mutateAsync _ _) as [w1|w1]; [|done]|];
      intros Hrun; eapply IH in Hrun; try done; lia.
Qed.

Lemma live_serve_last rnd s nextIndex quote w :
  length (shuffledIds s) ≤ nextIndex + 1 →
  currentQuote (live (serve rnd s nextIndex quote w)) = Some quote
  ∧ shuffledIds (live (serve rnd s nextIndex quote w))
    = shuffleArray rnd (allQuoteIds s)
  ∧ currentIdIndex (live (serve rnd s nextIndex quote w)) = 0.
Proof.
  intros Hlast. unfold Hook.serve. rewrite bool_decide_eq_true_2 by done.
  simpl. by rewrite live_prefetchNextBatch.
Qed.

(** C4.  When [getNextQuote] serves the last identifier of the shuffled
    list (the call resolves, and the first position from
    [currentIdIndex] on whose body is cached is [k], with [k + 1] the
    length of the list), it shows that quote, replaces [shuffledIds] by
    a fresh shuffle of [allQuoteIds] computed locally, resets
    [currentIdIndex] to 0, and none of the requests it sends goes to the
    list-identifiers endpoint. *)
Theorem getNextQuote_reshuffles_at_end rnd s w w' k nextId quote :
  shuffledIds s !! k = Some nextId →
  k + 1 = length (shuffledIds s) →
  currentIdIndex s ≤ k →
  quotesCache s !! nextId = Some quote →
  (∀ j id', currentIdIndex s ≤ j < k → shuffledIds s !! j = Some id' →
            quotesCache s !! id' = None) →
  getNextQuote rnd s w = Resolved w' →
  currentQuote (live w') = Some quote
  ∧ shuffledIds (live w') = shuffleArray rnd (allQuoteIds s)
  ∧ currentIdIndex (live w') = 0
  ∧ ∃ new, requests w' = requests w ++ new
           ∧ Forall (λ r, is_ListIds r = false) new.
Proof.
  intros Hk Hlen Hcur Hquote Hskip Hrun.
  destruct (follows_getNextQuote rnd s w) as (new & Hnew & _ & Hnot & _).
  rewrite Hrun in Hnew. simpl in Hnew.
  unfold Hook.getNextQuote in Hrun.
  rewrite bool_decide_eq_false_2 in Hrun by lia.
  eapply getNextQuote_loop_serves in Hrun as [w0 Hw']; [|done..|lia|done].
  subst w'.
  destruct (live_serve_last rnd s k quote w0) as (? & ? & ?); [lia|].
  split_and!; [done..|]. by exists new.
Qed.

(** With draws in [[0, 1)] the fresh shuffle is a permutation of
    [allQuoteIds]. *)
Lemma live_serve_last_Permutation rnd s nextIndex quote w :
  unit_draws rnd → length (shuffledIds s) ≤ nextIndex + 1 →
  shuffledIds (live (serve rnd s nextIndex quote w)) ≡ₚ allQuoteIds s.
Proof.
  intros Hrnd Hlast.
  destruct (live_serve_last rnd s nextIndex quote w Hlast) as (_ & -> & _).
  by apply shuffleArray_perm.
Qed.

(** Before the last position nothing is reshuffled: the quote is shown
    and the position advances past it. *)
Lemma live_serve_inner rnd s nextIndex quote w :
  nextIndex + 1 < length (shuffledIds s) →
  currentQuote (live (serve rnd s nextIndex quote w)) = Some quote
  ∧ shuffledIds (live (serve rnd s nextIndex quote w)) = shuffledIds (live w)
  ∧ currentIdIndex (live (serve rnd s nextIndex quote w)) = nextIndex + 1.
Proof.
  intros Hinner. unfold Hook.serve. rewrite bool_decide_eq_false_2 by lia.
  by rewrite live_prefetchNextBatch.
Qed.

(** A cached next identifier is served at once. *)
Lemma getNextQuote_cached rnd s w nextId quote :
  shuffledIds s !! currentIdIndex s = Some nextId →
  quotesCache s !! nextId = Some quote →
  getNextQuote rnd s w = Resolved (serve rnd s (currentIdIndex s) quote w).
Proof.
  intros Hid Hq. unfold Hook.getNextQuote.
  pose proof (lookup_lt_Some _ _ _ Hid) as Hlt.
  rewrite bool_decide_eq_false_2 by lia.
  destruct (length (shuffledIds s) - currentIdIndex s) eqn:Hfuel; [lia|].
  by rewrite getNextQuote_loop_step, Hid, Hq.
Qed.

(** *** An uncached next identifier *)

Lemma live_position_settle n ids c w :
  currentIdIndex (live (world_of (settle n ids c w))) = currentIdIndex (live w)
  ∧ currentQuote (live (world_of (settle n ids c w))) = currentQuote (live w).
Proof. unfold Hook.settle. by destruct (fetchBatch n ids). Qed.

Lemma live_position_mutateAsync ids w :
  currentIdIndex (live (world_of (mutateAsync ids w))) = currentIdIndex (live w)
  ∧ currentQuote (live (world_of (mutateAsync ids w))) = currentQuote (live w).
Proof.
  unfold Hook.mutateAsync.
  apply (live_position_settle _ ids None
           (send (FetchBatch ids (fetchedIds w)) (supersede w))).
Qed.

Lemma live_position_serve rnd s nextIndex quote w :
  currentQuote (live (serve rnd s nextIndex quote w)) = Some quote
  ∧ (currentIdIndex (live (serve rnd s nextIndex quote w)) = nextIndex + 1
     ∨ currentIdIndex (live (serve rnd s nextIndex quote w)) = 0).
Proof.
  destruct (decide (length (shuffledIds s) ≤ nextIndex + 1)) as [Hlast|Hinner].
  - destruct (live_serve_last rnd s nextIndex quote w Hlast) as (? & _ & ?).
    auto.
  - destruct (live_serve_inner rnd s nextIndex quote w) as (? & _ & ?);
      [lia|auto].
Qed.

(** What a run of the loop does to the displayed quote: nothing, or it
    shows a body taken from the captured cache, found at a position not
    before [nextIndex]. *)
Lemma getNextQuote_loop_position rnd s fuel : ∀ nextIndex w,
  let w' := world_of (getNextQuote_loop rnd s fuel nextIndex w) in
  (currentIdIndex (live w') = currentIdIndex (live w)
   ∧ currentQuote (live w') = currentQuote (live w))
  ∨ (∃ k nextId quote,
       nextIndex ≤ k ∧ shuffledIds s !! k = Some nextId
       ∧ quotesCache s !! nextId = Some quote
       ∧ currentQuote (live w') = Some quote
       ∧ (currentIdIndex (live w') = k + 1 ∨ currentIdIndex (live w') = 0)).
Proof.
  induction fuel as [|fuel IH]; intros nextIndex w; [by left|].
  rewrite getNextQuote_loop_step.
  destruct (shuffledIds s !! nextIndex) as [nextId|] eqn:Hid; [|by left].
  destruct (quotesCache s !! nextId) as [quote|] eqn:Hq.
  { right. exists nextIndex, nextId, quote.
    destruct (live_position_serve rnd s nextIndex quote w). simpl. auto. }
  assert (Hrec : ∀ w1,
    currentIdIndex (live w1) = currentIdIndex (live w) →
    currentQuote (live w1) = currentQuote (live w) →
    let w' := world_of (getNextQuote_loop rnd s fuel (nextIndex + 1) w1) in
    (currentIdIndex (live w') = currentIdIndex (live w)
     ∧ currentQuote (live w') = currentQuote (live w))
    ∨ (∃ k nextId quote,
         nextIndex ≤ k ∧ shuffledIds s !! k = Some nextId
         ∧ quotesCache s !! nextId = Some quote
         ∧ currentQuote (live w') = Some quote
         ∧ (currentIdIndex (live w') = k + 1 ∨ currentIdIndex (live w') = 0))).
  { intros w1 Hi Hc. destruct (IH (nextIndex + 1) w1) as [[? ?]|Hserved].
    - left. simpl. split; congruence.
    - right. destruct Hserved as (k & id' & q & ? & ?).
      exists k, id', q. split; [lia|done]. }
  simpl. case_match; [|by apply Hrec].
  match goal with |- context [mutateAsync ?ids w] =>
    destruct (live_position_mutateAsync ids w) as [Hi Hc];
    destruct (mutateAsync ids w) as [w1|w1]
  end; simpl in Hi, Hc.
  - by apply Hrec.
  - by left.
Qed.

(** In a state where the body of the next identifier is not cached, a
    call of [getNextQuote] never moves [currentIdIndex] one step
    forward: the position keeps its value, or passes over the
    identifier, or is reset by a reshuffle. *)
Lemma getNextQuote_uncached_not_served rnd w nextId :
  shuffledIds (live w) !! currentIdIndex (live w) = Some nextId →
  quotesCache (live w) !! nextId = None →
  currentIdIndex (live (world_of (getNextQuote rnd (live w) w)))
  ≠ currentIdIndex (live w) + 1.
Proof.
  intros Hid Hq. unfold Hook.getNextQuote.
  pose proof (lookup_lt_Some _ _ _ Hid) as Hlt.
  rewrite bool_decide_eq_false_2 by lia.
  destruct (length (shuffledIds (live w)) - currentIdIndex (live w))
    as [|fuel] eqn:Hfuel; [lia|].
  rewrite getNextQuote_loop_step, Hid, Hq. simpl.
  assert (Hrec : ∀ w1,
    currentIdIndex (live w1) = currentIdIndex (live w) →
    currentIdIndex (live (world_of
      (getNextQuote_loop rnd (live w) fuel (currentIdIndex (live w) + 1) w1)))
    ≠ currentIdIndex (live w) + 1).
  { intros w1 Hi.
    destruct (getNextQuote_loop_position rnd (live w) fuel
                (currentIdIndex (live w) + 1) w1)
      as [[? _]|(k & _ & _ & ? & _ & _ & _ & [?|?])]; lia. }
  case_match; [|by apply Hrec].
  match goal with |- context [mutateAsync ?ids w] =>
    destruct (live_position_mutateAsync ids w) as [Hi _];
    destruct (mutateAsync ids w) as [w1|w1]
  end; simpl in Hi.
  - by apply Hrec.
  - simpl. lia.
Qed.

(** The first half of the behaviour is there: when the next identifier
    is neither cached nor fetched and the batch size is positive, the
    call first sends a batch request that starts with it. *)
Lemma getNextQuote_uncached_fetches rnd s w nextId :
  (1 ≤ batchSize)%Z →
  shuffledIds s !! currentIdIndex s = Some nextId →
  quotesCache s !! nextId = None →
  nextId ∉ fetchedIds w →
  ∃ rest new,
    requests (world_of (getNextQuote rnd s w))
    = requests w ++ FetchBatch (nextId :: rest) (fetchedIds w) :: new.
Proof.
  intros Hb Hid Hq Hnew. unfold Hook.getNextQuote.
  pose proof (lookup_lt_Some _ _ _ Hid) as Hlt.
  rewrite bool_decide_eq_false_2 by lia.
  destruct (length (shuffledIds s) - currentIdIndex s) as [|fuel] eqn:Hfuel;
    [lia|].
  rewrite getNextQuote_loop_step, Hid, Hq. simpl.
  rewrite slice_batchEnd by lia.
  destruct (window_head (shuffledIds s) (currentIdIndex s) batchSize nextId)
    as [tl Htl]; [done..|].
  rewrite Htl. unfold unfetched at 1 2 3. rewrite !filter_cons_True by done.
  rewrite bool_decide_eq_true_2 by done.
  rewrite bool_decide_eq_true_2 by (simpl; lia). simpl.
  set (ids := nextId :: filter _ tl).
  pose proof (requests_mutateAsync ids w) as Hsent.
  destruct (mutateAsync ids w) as [w1|w1]; simpl in Hsent.
  - destruct (requests_getNextQuote_loop rnd s fuel (currentIdIndex s + 1) w1)
      as (new & Hnew').
    eexists _, new. by rewrite Hnew', Hsent, <- app_assoc.
  - eexists _, []. simpl. by rewrite Hsent.
Qed.

(** *** [toggleFavorite] *)

(** When the persistence request fails, the cache is again the one the
    callback captured, and [currentQuote], when it has this id, is set
    to the cached entry. *)
Lemma toggleFavorite_failed s quoteId quote w :
  quotesCache s !! quoteId = Some quote →
  favoritesApi (if isFavorited quote then "DELETE" else "POST") quoteId = false →
  quotesCache (live (toggleFavorite s quoteId w)) = quotesCache s
  ∧ currentQuote (live (toggleFavorite s quoteId w))
    = if is_current s quoteId then Some quote else currentQuote (live w).
Proof.
  intros Hq Hfail. unfold Hook.toggleFavorite. rewrite Hq, Hfail.
  destruct (is_current s quoteId); simpl;
    by rewrite insert_insert_eq, insert_id.
Qed.

(** When the request succeeds the optimistic update stays: the entry
    and the current quote are toggled. *)
Lemma toggleFavorite_succeeded s quoteId quote w :
  quotesCache s !! quoteId = Some quote →
  favoritesApi (if isFavorited quote then "DELETE" else "POST") quoteId = true →
  quotesCache (live (toggleFavorite s quoteId w)) !! quoteId
  = Some (toggled quote)
  ∧ (is_current s quoteId = true →
     currentQuote (live (toggleFavorite s quoteId w)) = Some (toggled quote)).
Proof.
  intros Hq Hok. unfold Hook.toggleFavorite. rewrite Hq, Hok.
  destruct (is_current s quoteId); simpl; by rewrite lookup_insert_eq.
Qed.

End HookFacts.

(** ** The definitions at work on the sample data *)

Section Examples.

Import QuoteService BatchRoute Hook Samples.

Lemma sample_random_unit_draws : unit_draws sample_random.
Proof. intros k. split; vm_compute; [discriminate|reflexivity]. Qed.

Example shuffleArray_sample :
  shuffleArray sample_random [1; 2; 3; 4; 5] = [1; 4; 2; 5; 3].
Proof. reflexivity. Qed.

Lemma shuffleArray_Permutation_witness :
  unit_draws sample_random
  ∧ length (shuffleArray sample_random [1; 2; 3; 4; 5]) = 5
  ∧ shuffleArray sample_random [1; 2; 3; 4; 5] ≡ₚ [1; 2; 3; 4; 5].
Proof.
  split; [apply sample_random_unit_draws|].
  apply (shuffleArray_Permutation sample_random [1; 2; 3; 4; 5]).
  apply sample_random_unit_draws.
Defined.

Example sample_both_selection :
  getQuoteIds BOTH "u1" None sample_db = ["q1"; "q2"; "q3"]
  ∧ getQuoteIds BOTH "u1" (Some "life") sample_db = ["q1"; "q3"]
  ∧ getQuoteIds BOTH "u1" (Some "") sample_db = ["q1"; "q2"; "q3"].
Proof. by vm_compute. Qed.

Example sample_favorites_selection :
  getQuoteIds FAVORITES "u1" (Some "no such category") sample_db = ["q1"].
Proof. by vm_compute. Qed.

Lemma getQuotesByIds_sound_witness :
  let v := {| v_id := "q1"; v_text := "text"; v_author := "author";
              v_category := Some "life"; v_source := None;
              v_isPreloaded := true; v_isFavorited := true;
              v_createdAt := "2024-01-01T00:00:00.000Z";
              v_updatedAt := "2024-01-01T00:00:00.000Z" |} in
  v ∈ getQuotesByIds sample_iso ["q1"; "q3"; "zz"] "u1" sample_db
  ∧ v_id v ∈ ["q1"; "q3"; "zz"]
  ∧ (v_isFavorited v = true ↔ favorite_exists sample_db "u1" (v_id v)).
Proof.
  intros v.
  assert (Hv : v ∈ getQuotesByIds sample_iso ["q1"; "q3"; "zz"] "u1" sample_db).
  { vm_compute. left. }
  split; [exact Hv|].
  exact (getQuotesByIds_sound sample_iso ["q1"; "q3"; "zz"] "u1" sample_db v Hv).
Defined.

Lemma batch_validation_witness :
  let body := Some (JObject [("ids", JArray [])]) in
  let handled := POST sample_iso sample_session body sample_db in
  truthy (session_user_id sample_session) = true
  ∧ (∀ json, body = Some json → (¬ ∃ ids, well_formed_body body ids) →
       status (response handled) = 400 ∧ service_calls handled = [])
  ∧ (body = None →
       status (response handled) = 500 ∧ service_calls handled = [])
  ∧ (∀ ids userId, (ids, userId) ∈ service_calls handled →
       well_formed_body body ids ∧ 1 ≤ length ids ≤ 50
       ∧ session_user_id sample_session = Some userId
       ∧ response handled
         = {| status := 200;
              payload := QuotesPayload (getQuotesByIds sample_iso ids userId sample_db) |}).
Proof.
  intros body handled. split; [reflexivity|].
  exact (batch_validation sample_iso sample_session body sample_db eq_refl).
Defined.

Example batch_sample_responses :
  status (response (POST sample_iso sample_session
                      (Some (JObject [("ids", JArray [])])) sample_db)) = 400
  ∧ status (response (POST sample_iso sample_session
                        (Some (JObject [("ids", JArray [JString "q1"; JNull])]))
                        sample_db)) = 400
  ∧ status (response (POST sample_iso sample_session
                        (Some (JObject [("ids", JArray (replicate 51 (JString "q1")))]))
                        sample_db)) = 400
  ∧ status (response (POST sample_iso sample_session
                        (Some (JObject [("ids", JArray [JString "q1"])]))
                        sample_db)) = 200
  ∧ status (response (POST sample_iso sample_session None sample_db)) = 500
  ∧ status (response (POST sample_iso None
                        (Some (JObject [("ids", JArray [JString "q1"])]))
                        sample_db)) = 401.
Proof. by vm_compute. Qed.

Lemma prefetchNextBatch_request_witness :
  (0 ≤ 2)%Z
  ∧ (prefetch_wanted 2 5 sample_state sample_world →
     requests (prefetchNextBatch 2 5 sample_state sample_world)
     = requests sample_world
       ++ [FetchBatch
             (filter (λ id, id ∉ fetchedIds sample_world)
                     (window (shuffledIds sample_state)
                             (currentIdIndex sample_state) 2))
             (fetchedIds sample_world)])
  ∧ (¬ prefetch_wanted 2 5 sample_state sample_world →
     requests (prefetchNextBatch 2 5 sample_state sample_world)
     = requests sample_world).
Proof.
  split; [lia|].
  apply (prefetchNextBatch_request 2 5 sample_state sample_world). lia.
Defined.

Example prefetchNextBatch_sample :
  requests (prefetchNextBatch 2 5 sample_state sample_world)
  = [FetchBatch ["c"; "d"] {["a"; "b"]}]
  ∧ requests (prefetchNextBatch 2 (-1) sample_state sample_world) = [].
Proof. by vm_compute. Qed.

Lemma getNextQuote_reshuffles_at_end_witness :
  let w' := world_of (getNextQuote 2 5 sample_fetchBatch sample_random
                        sample_state_last sample_world_last) in
  getNextQuote 2 5 sample_fetchBatch sample_random
    sample_state_last sample_world_last = Resolved w'
  ∧ currentQuote (live w') = Some (sample_quote "b")
  ∧ shuffledIds (live w') = shuffleArray sample_random (allQuoteIds sample_state_last)
  ∧ currentIdIndex (live w') = 0
  ∧ ∃ new, requests w' = requests sample_world_last ++ new
           ∧ Forall (λ r, is_ListIds r = false) new.
Proof.
  intros w'.
  assert (Hrun : getNextQuote 2 5 sample_fetchBatch sample_random
                   sample_state_last sample_world_last = Resolved w')
    by (vm_compute; reflexivity).
  split; [exact Hrun|].
  apply (getNextQuote_reshuffles_at_end 2 5 sample_fetchBatch sample_random
           sample_state_last sample_world_last w' 1 "b" (sample_quote "b")).
  - reflexivity.
  - reflexivity.
  - simpl. lia.
  - vm_compute. reflexivity.
  - intros j id' Hj. simpl in Hj. lia.
  - exact Hrun.
Defined.

(** C1, as stated, fails on its last clause.  The component shows [a]
    and the batch size is 2.  The first call of [getNextQuote] shows [b]
    and prefetches [c] without waiting; the second call, made before the
    response has arrived, fetches [c] and [d].  Both requests name only
    identifiers absent from [fetchedIds], and yet [c] is requested
    twice. *)
Lemma inflight_batch_requested_again :
  let w' := session 2 5 sample_fetchBatch failing_favoritesApi
              [CallGetNextQuote sample_random; CallGetNextQuote sample_random]
              sample_world_start in
  requests sample_world_start = []
  ∧ requests w'
    = [FetchBatch ["c"] {["a"; "b"]}; FetchBatch ["c"; "d"] {["a"; "b"]}]
  ∧ Forall fresh_request (requests w')
  ∧ ¬ NoDup (requested_ids (requests w')).
Proof.
  intros w'.
  assert (Hlog : requests w'
            = [FetchBatch ["c"] {["a"; "b"]}; FetchBatch ["c"; "d"] {["a"; "b"]}])
    by (by vm_compute).
  split_and!; [done|done| |].
  - destruct (follows_session 2 5 sample_fetchBatch failing_favoritesApi
                [CallGetNextQuote sample_random; CallGetNextQuote sample_random]
                sample_world_start) as (new & Hnew).
    apply follows_fresh in Hnew as (Hr & Hfresh & _).
    fold w' in Hr. simpl in Hr. by rewrite Hr.
  - rewrite Hlog. simpl. intros [Hnot _]%NoDup_cons. apply Hnot. left.
Qed.

(** Once the response has arrived the second call fetches [d] alone. *)
Example delivered_batch_not_requested_again :
  let w' := session 2 5 sample_fetchBatch failing_favoritesApi
              [CallGetNextQuote sample_random; ResponseArrives;
               CallGetNextQuote sample_random]
              sample_world_start in
  requested_ids (requests w') = ["c"; "d"]
  ∧ currentQuote (live w') = Some (sample_quote "c").
Proof. by vm_compute. Qed.

(** C2, on the code.  The component shows [b]; the next identifier [c]
    is not cached and not fetched.  The call of [getNextQuote] then
    fetches the batch [c, d] and the body of [c] reaches the live
    cache, but the call ends without showing it: [currentQuote] is
    still [b] and [currentIdIndex] is still 2. *)
Theorem getNextQuote_uncached_is_not_shown :
  let w' := world_of (getNextQuote 2 5 sample_fetchBatch sample_random
                        (live sample_world) sample_world) in
  shuffledIds (live sample_world) !! currentIdIndex (live sample_world) = Some "c"
  ∧ quotesCache (live sample_world) !! "c" = None
  ∧ requests w' = [FetchBatch ["c"; "d"] {["a"; "b"]}]
  ∧ quotesCache (live w') !! "c" = Some (sample_quote "c")
  ∧ currentQuote (live w') = Some (sample_quote "b")
  ∧ currentIdIndex (live w') = 2.
Proof. by vm_compute. Qed.

(** The next call, made by the render that has seen the new cache,
    shows [c]. *)
Example getNextQuote_second_call_shows :
  let w1 := world_of (getNextQuote 2 5 sample_fetchBatch sample_random
                        (live sample_world) sample_world) in
  let w2 := world_of (getNextQuote 2 5 sample_fetchBatch sample_random
                        (live w1) w1) in
  currentQuote (live w2) = Some (sample_quote "c")
  ∧ currentIdIndex (live w2) = 3
  ∧ requests w2 = requests w1.
Proof. by vm_compute. Qed.

(** C9, on the code.  User [u1] is shown [q1]; the batch size is 2.
    Three calls of [getNextQuote] show [q2], fetch [q3] (which the
    first call has prefetched already, the response being on its way)
    and show [q3]; the user makes [q3] a favorite, which the server
    stores; then the response to the prefetch arrives and puts the body
    it carries, not a favorite, in the cache.  The current quote [q3] is
    a favorite, its cached entry is not.  The next toggle sends POST,
    which the server refuses since the favorite exists; the revert
    writes the cached entry to [currentQuote]: the quote shown is no
    longer a favorite, though it was before the call and still is in
    the database. *)
Theorem toggleFavorite_error_flips_current :
  let db := sample_db in
  let w :=
    session 2 5 sample_fetchBatch
      (FavoritesRoute.toggle_api sample_session db)
      [CallGetNextQuote sample_random; CallGetNextQuote sample_random;
       CallGetNextQuote sample_random; CallToggleFavorite "q3";
       ResponseArrives]
      MoreSamples.sample_world_db in
  let db' :=
    FavoritesRoute.db_after
      (FavoritesRoute.toggle_fetch sample_session db "POST" "q3") in
  let w' :=
    toggleFavorite (FavoritesRoute.toggle_api sample_session db')
                   (live w) "q3" w in
  quotesCache (live w) !! "q3" = Some (sample_quote "q3")
  ∧ currentQuote (live w) = Some (toggled (sample_quote "q3"))
  ∧ favorite_table db'
    = [ {| f_userId := "u1"; f_quoteId := "q1" |};
        {| f_userId := "u1"; f_quoteId := "q3" |} ]
  ∧ FavoritesRoute.toggle_api sample_session db' "POST" "q3" = false
  ∧ quotesCache (live w') !! "q3" = Some (sample_quote "q3")
  ∧ currentQuote (live w') = Some (sample_quote "q3")
  ∧ currentQuote (live w') ≠ currentQuote (live w)
  ∧ toasts w' = toasts w ++ [ToastError "Failed to update favorite"].
Proof. vm_compute. by split_and!. Qed.

End Examples.

(** * Further properties *)

(** ** The quote service: the other sources, and batches *)

Section MoreQuoteServiceFacts.

Import QuoteService Hook Batches Samples.

Context {Date : Type}.
Variable toISOString : Date → string.

Implicit Types (db : @Database Date) (q : @QuoteRow Date).

Lemma elem_of_getQuoteIds_quotes source userId category db qid :
  source ≠ FAVORITES →
  qid ∈ getQuoteIds source userId category db
  ↔ ∃ q, q ∈ quote_table db ∧ q_id q = qid
         ∧ source_clause source userId q = true ∧ in_category category q.
Proof.
  intros Hsrc.
  assert (Hfilter : getQuoteIds source userId category db
            = q_id <$> filter (λ q, source_clause source userId q
                                    && category_clause category q = true)
                              (quote_table db))
    by by destruct source.
  rewrite Hfilter, list_elem_of_fmap. setoid_rewrite list_elem_of_filter.
  setoid_rewrite andb_true_iff. setoid_rewrite category_clause_spec.
  naive_solver.
Qed.

(** X1.  With source PRELOADED the user plays no part: every user gets
    the same list, the identifiers of the preloaded quotes (of the
    category, when one is supplied). *)
Theorem getQuoteIds_preloaded_same_for_all userId userId' category db :
  getQuoteIds PRELOADED userId category db
  = getQuoteIds PRELOADED userId' category db
  ∧ ∀ qid, qid ∈ getQuoteIds PRELOADED userId category db
           ↔ ∃ q, q ∈ quote_table db ∧ q_id q = qid
                  ∧ q_isPreloaded q = true ∧ in_category category q.
Proof.
  split; [done|]. intros qid.
  by rewrite elem_of_getQuoteIds_quotes.
Qed.

(** X2.  With source CUSTOM a user is shown only quotes stored under
    that user's own id and not preloaded: a quote created by another
    user, or one without owner, is never listed. *)
Theorem getQuoteIds_custom_own_only userId category db qid :
  qid ∈ getQuoteIds CUSTOM userId category db
  ↔ ∃ q, q ∈ quote_table db ∧ q_id q = qid
         ∧ q_userId q = Some userId ∧ q_isPreloaded q = false
         ∧ in_category category q.
Proof.
  rewrite elem_of_getQuoteIds_quotes by done. simpl.
  setoid_rewrite andb_true_iff. setoid_rewrite negb_true_iff.
  setoid_rewrite bool_decide_eq_true. naive_solver.
Qed.

Lemma filter_or_exclusive {A} (P R : A → Prop)
    `{!∀ x, Decision (P x)} `{!∀ x, Decision (R x)} (l : list A) :
  (∀ x, P x → R x → False) →
  filter (λ x, P x ∨ R x) l ≡ₚ filter P l ++ filter R l.
Proof.
  intros Hex. induction l as [|x l IH]; [done|].
  rewrite !filter_cons.
  destruct (decide (P x)) as [HP|HP], (decide (R x)) as [HR|HR].
  - by destruct (Hex x).
  - rewrite decide_True by auto. simpl. by rewrite IH.
  - rewrite decide_True by auto. rewrite IH. by rewrite Permutation_middle.
  - rewrite decide_False by tauto. done.
Qed.

(** X3.  The list for BOTH is made of the list for PRELOADED and the
    list for CUSTOM, each identifier as often as there: nothing is
    listed twice because it qualifies on both counts, and the totals
    add up. *)
Theorem getQuoteIds_both_splits userId category db :
  getQuoteIds BOTH userId category db
  ≡ₚ getQuoteIds PRELOADED userId category db
     ++ getQuoteIds CUSTOM userId category db
  ∧ length (getQuoteIds BOTH userId category db)
    = length (getQuoteIds PRELOADED userId category db)
      + length (getQuoteIds CUSTOM userId category db).
Proof.
  assert (Hperm : getQuoteIds BOTH userId category db
            ≡ₚ getQuoteIds PRELOADED userId category db
               ++ getQuoteIds CUSTOM userId category db).
  { unfold getQuoteIds. rewrite <- fmap_app. apply fmap_Permutation.
    rewrite <- (filter_or_exclusive
                  (λ q, source_clause PRELOADED userId q
                        && category_clause category q = true)
                  (λ q, source_clause CUSTOM userId q
                        && category_clause category q = true)).
    - erewrite list_filter_iff; [done|]. intros q. simpl.
      destruct (q_isPreloaded q), (bool_decide (q_userId q = Some userId)),
        (category_clause category q); simpl; naive_solver.
    - intros q. simpl. destruct (q_isPreloaded q); simpl;
        rewrite ?andb_false_r; naive_solver. }
  split; [done|]. by rewrite Hperm, length_app.
Qed.

Lemma getQuotesByIds_ids ids userId db :
  v_id <$> getQuotesByIds toISOString ids userId db
  = q_id <$> filter (λ q, q_id q ∈ ids) (quote_table db).
Proof. unfold getQuotesByIds. by rewrite <- list_fmap_compose. Qed.

(** X4.  [getQuotesByIds] looks at the requested identifiers as a set:
    two lists with the same members give the same answer, whatever their
    order and repetitions; the records come in table order, one for each
    stored quote whose id is requested, and identifiers that are not
    stored are passed over in silence. *)
Theorem getQuotesByIds_set_of_ids ids ids' userId db :
  (∀ qid, qid ∈ ids ↔ qid ∈ ids') →
  getQuotesByIds toISOString ids userId db
  = getQuotesByIds toISOString ids' userId db
  ∧ v_id <$> getQuotesByIds toISOString ids userId db
    = filter (λ qid, qid ∈ ids) (q_id <$> quote_table db).
Proof.
  intros Hsame. split.
  - unfold getQuotesByIds.
    rewrite (list_filter_iff (λ q, q_id q ∈ ids) (λ q, q_id q ∈ ids'))
      by (intros q; apply Hsame).
    rewrite (list_filter_iff
               (λ f, f_userId f = userId ∧ f_quoteId f ∈ ids)
               (λ f, f_userId f = userId ∧ f_quoteId f ∈ ids'))
      by (intros f; by rewrite Hsame).
    done.
  - rewrite getQuotesByIds_ids. clear Hsame.
    induction (quote_table db) as [|q l IH]; [done|].
    rewrite fmap_cons, !filter_cons.
    destruct (decide (q_id q ∈ ids)); [rewrite fmap_cons|]; by rewrite IH.
Qed.

Lemma getQuotesByIds_NoDup_length ids userId db :
  NoDup (q_id <$> quote_table db) →
  NoDup (v_id <$> getQuotesByIds toISOString ids userId db)
  ∧ length (getQuotesByIds toISOString ids userId db) ≤ length ids.
Proof.
  intros Hnd.
  assert (Hsub : (q_id <$> filter (λ q, q_id q ∈ ids) (quote_table db))
                 `sublist_of` (q_id <$> quote_table db))
    by apply fmap_sublist, sublist_filter.
  assert (Hnd' : NoDup (v_id <$> getQuotesByIds toISOString ids userId db)).
  { rewrite getQuotesByIds_ids. by eapply sublist_NoDup. }
  split; [done|].
  rewrite <- (length_fmap v_id). apply submseteq_length.
  apply NoDup_submseteq; [done|].
  intros qid. rewrite getQuotesByIds_ids, list_elem_of_fmap.
  intros (q & -> & Hq). by apply list_elem_of_filter in Hq as [? _].
Qed.

(** X5.  When the stored quotes have distinct identifiers,
    [getQuotesByIds] returns at most one record per requested
    identifier: no identifier comes twice and there are no more records
    than identifiers asked for. *)
Theorem getQuotesByIds_at_most_requested ids userId db :
  NoDup (q_id <$> quote_table db) →
  NoDup (v_id <$> getQuotesByIds toISOString ids userId db)
  ∧ length (getQuotesByIds toISOString ids userId db) ≤ length ids.
Proof. apply getQuotesByIds_NoDup_length. Qed.

(** X6.  [getNextBatch] from a position [index] inside or past the
    array, with a count that is not negative, is the run of at most
    [batchSize] elements that starts there: element [k] of the batch is
    element [index + k] of the array, the batch is short only at the end
    of the array, and empty past it. *)
Theorem getNextBatch_window {A} (array : list A) (index : nat) (batchSize : Z) :
  (0 ≤ batchSize)%Z →
  length (getNextBatch array (Z.of_nat index) batchSize)
  = Nat.min (Z.to_nat batchSize) (length array - index)
  ∧ (∀ k, k < Z.to_nat batchSize →
       getNextBatch array (Z.of_nat index) batchSize !! k = array !! (index + k))
  ∧ (length array ≤ index →
       getNextBatch array (Z.of_nat index) batchSize = []).
Proof.
  intros Hb. unfold getNextBatch. rewrite slice_window by done.
  unfold window. split_and!.
  - by rewrite length_take, length_drop.
  - intros k Hk. by rewrite lookup_take_lt, lookup_drop.
  - intros Hpast. by rewrite drop_ge, take_nil.
Qed.

(** X7.  Consecutive batches join up: the batch of [n] elements at
    [index] followed by the batch of [m] elements at [index + n] is the
    batch of [n + m] elements at [index], so cutting an array into
    batches loses and repeats nothing. *)
Theorem getNextBatch_consecutive {A} (array : list A) (index : nat) (n m : Z) :
  (0 ≤ n)%Z → (0 ≤ m)%Z →
  getNextBatch array (Z.of_nat index) n
  ++ getNextBatch array (Z.of_nat index + n) m
  = getNextBatch array (Z.of_nat index) (n + m).
Proof.
  intros Hn Hm. unfold getNextBatch.
  rewrite (slice_window array index n), (slice_window array index (n + m))
    by lia.
  replace (Z.of_nat index + n)%Z with (Z.of_nat (index + Z.to_nat n)) by lia.
  rewrite slice_window by lia. unfold window.
  rewrite <- (drop_drop array (Z.to_nat n) index), take_take_drop.
  f_equal. lia.
Qed.

End MoreQuoteServiceFacts.

(** ** [shuffleArray]: every ordering can come out *)

Section ShuffleCoverage.

Import QuoteService Batches.

Context {A : Type}.
Implicit Types (l target array : list A).

Lemma draw_for_unit j i : j ≤ i → (0 <= draw_for j i)%Q ∧ (draw_for j i < 1)%Q.
Proof.
  intros Hj. unfold draw_for, Qle, Qlt. simpl.
  rewrite Zpos_P_of_succ_nat. lia.
Qed.

Lemma random_index_draw_for j i : random_index (draw_for j i) i = j.
Proof.
  unfold random_index.
  assert (Heq : (draw_for j i * inject_Z (Z.of_nat (i + 1)) == inject_Z (Z.of_nat j))%Q).
  { unfold draw_for, Qeq, inject_Z. simpl.
    rewrite Pos.mul_1_r, Zpos_P_of_succ_nat. lia. }
  rewrite Heq, Qfloor_Z. lia.
Qed.

Lemma shuffle_loop_shift rnd i : ∀ k l,
  shuffle_loop rnd (S k) i l = shuffle_loop (λ n, rnd (S n)) k i l.
Proof. induction i as [|i IH]; intros k l; simpl; [done|]. by rewrite IH. Qed.

Lemma shuffle_loop_reaches i : ∀ l target,
  i < length l →
  length target = length l →
  take (S i) target ≡ₚ take (S i) l →
  drop (S i) target = drop (S i) l →
  ∃ rnd, unit_draws rnd ∧ shuffle_loop rnd 0 i l = target.
Proof.
  induction i as [|i IH]; intros l target Hi Hlen Hperm Hdrop.
  { exists (λ _, 0%Q). split; [by intros k|]. simpl.
    destruct l as [|x l]; [simpl in Hi; lia|].
    destruct target as [|y target]; [done|]. simpl in *.
    rewrite !take_0 in Hperm. apply Permutation_singleton_inj in Hperm.
    rewrite !drop_0 in Hdrop. by subst. }
  set (p := S i) in *.
  destruct (lookup_lt_is_Some_2 target p) as [x Hx]; [lia|].
  destruct (lookup_lt_is_Some_2 l p Hi) as [y Hy].
  assert (Hin : x ∈ take (S p) l).
  { rewrite <- Hperm. apply list_elem_of_lookup. exists p.
    by rewrite lookup_take_lt by lia. }
  apply list_elem_of_lookup in Hin as [j Hj].
  assert (Hjp : j < S p).
  { apply lookup_lt_Some in Hj. rewrite length_take in Hj. lia. }
  rewrite lookup_take_lt in Hj by done.
  set (l1 := <[j := y]> (<[p := x]> l)).
  assert (Hswap : swap l p j = l1) by (unfold swap; by rewrite Hy, Hj).
  assert (Hl1p : l1 !! p = Some x).
  { unfold l1. destruct (decide (j = p)) as [->|Hne].
    - rewrite list_lookup_insert_eq by (by rewrite length_insert). congruence.
    - rewrite list_lookup_insert_ne by done.
      by rewrite list_lookup_insert_eq. }
  assert (Hlen1 : length l1 = length l) by (unfold l1; by rewrite !length_insert).
  assert (Hdrop1 : drop (S p) l1 = drop (S p) l).
  { unfold l1. by rewrite !drop_insert_lt by lia. }
  assert (Hperm1 : take (S p) l1 ≡ₚ take (S p) l).
  { unfold l1. rewrite !take_insert_lt by lia.
    apply Permutation_insert_swap; by rewrite lookup_take_lt by lia. }
  destruct (IH l1 target) as (rnd' & Hunit & Hrun).
  - lia.
  - lia.
  - rewrite (take_S_r _ _ _ Hx), (take_S_r _ _ _ Hl1p) in *.
    rewrite <- Hperm1 in Hperm.
    by apply Permutation_app_inv_r in Hperm.
  - rewrite (drop_S _ _ _ Hx), (drop_S _ _ _ Hl1p). by rewrite Hdrop, Hdrop1.
  - exists (λ n, match n with 0 => draw_for j p | S n' => rnd' n' end).
    split.
    + intros [|n]; [apply draw_for_unit; lia | apply Hunit].
    + simpl. fold p. rewrite random_index_draw_for, Hswap.
      by rewrite shuffle_loop_shift.
Qed.

(** X8.  Every rearrangement of the input can be the result of
    [shuffleArray]: for each permutation of the array there are draws of
    [Math.random], all in [[0, 1)], on which the loop produces it. *)
Theorem shuffleArray_reaches_every_permutation array target :
  target ≡ₚ array →
  ∃ rnd, unit_draws rnd ∧ shuffleArray rnd array = target.
Proof.
  intros Hperm. unfold shuffleArray.
  pose proof (Permutation_length Hperm) as Hlen.
  destruct array as [|x array].
  { apply Permutation_nil_r in Hperm as ->.
    exists (λ _, 0%Q). split; [by intros k|done]. }
  apply shuffle_loop_reaches.
  - simpl. lia.
  - done.
  - rewrite !take_ge by (simpl in *; lia). done.
  - rewrite !drop_ge by (simpl in *; lia). done.
Qed.

End ShuffleCoverage.

(** ** The batch and identifier endpoints *)

Section MoreRouteFacts.

Import QuoteService BatchRoute.

Context {Date : Type}.
Variable toISOString : Date → string.

Implicit Types (db : @Database Date) (body : option JSON).

Lemma POST_cases session body db :
  let handled := POST toISOString session body db in
  (truthy (session_user_id session) = false
   ∧ status (response handled) = 401 ∧ service_calls handled = [])
  ∨ (truthy (session_user_id session) = true ∧ body = None
     ∧ status (response handled) = 500 ∧ service_calls handled = [])
  ∨ (truthy (session_user_id session) = true
     ∧ (∃ json, body = Some json) ∧ (¬ ∃ ids, well_formed_body body ids)
     ∧ status (response handled) = 400 ∧ service_calls handled = [])
  ∨ (truthy (session_user_id session) = true
     ∧ ∃ ids userId, well_formed_body body ids
         ∧ session_user_id session = Some userId
         ∧ handled
           = {| response :=
                  {| status := 200;
                     payload := QuotesPayload
                                  (getQuotesByIds toISOString ids userId db) |};
                service_calls := [(ids, userId)] |}).
Proof.
  unfold POST. destruct (truthy (session_user_id session)) eqn:Hauth; [|by left].
  right. destruct body as [json|]; [|by left].
  right. destruct (batchSchema_parse json) as [ids|] eqn:Hp.
  - right. split; [done|].
    destruct (session_user_id session) as [userId|]; [|done].
    exists ids, userId. by apply batchSchema_parse_Some in Hp.
  - left. split_and!; [done|by eexists| |done..].
    intros [ids Hwf%batchSchema_parse_Some]. congruence.
Qed.

(** X9.  The batch endpoint answers with one of four statuses, each for
    one kind of request: 401 exactly when there is no signed-in user
    (whatever the body), 500 exactly when the user is signed in and the
    body is not JSON, 400 exactly when the body is JSON without a list
    of 1 to 50 string identifiers, and 200 in the remaining case; the
    service is called exactly when the answer is 200. *)
Theorem batch_status_by_request session body db :
  let handled := POST toISOString session body db in
  (status (response handled) = 401
   ↔ truthy (session_user_id session) = false)
  ∧ (status (response handled) = 500
     ↔ truthy (session_user_id session) = true ∧ body = None)
  ∧ (status (response handled) = 400
     ↔ truthy (session_user_id session) = true
       ∧ (∃ json, body = Some json) ∧ ¬ ∃ ids, well_formed_body body ids)
  ∧ (status (response handled) = 200
     ↔ truthy (session_user_id session) = true
       ∧ ∃ ids, well_formed_body body ids)
  ∧ (service_calls handled ≠ [] ↔ status (response handled) = 200).
Proof.
  cbv zeta.
  destruct (POST_cases session body db)
    as [(Ha & Hs & Hc)|[(Ha & Hb & Hs & Hc)|[(Ha & Hb & Hw & Hs & Hc)
       |(Ha & ids & userId & Hw & Hu & Hh)]]].
  - rewrite Hs, Hc, Ha. naive_solver.
  - rewrite Hs, Hc, Ha, Hb. split_and!; try naive_solver.
    split; [intros [=]|].
    intros (_ & ids & Hwf). destruct (well_formed_body_None ids Hwf).
  - rewrite Hs, Hc, Ha. destruct Hb as [json ->]. naive_solver.
  - rewrite Hh, Ha. simpl. split_and!; try naive_solver.
    split; [intros [=]|]. intros [_ ->].
    destruct (well_formed_body_None ids Hw).
Qed.

(** X10.  When the stored quotes have distinct identifiers, a response
    of the batch endpoint never carries more than 50 quotes, nor more
    than were asked for, and every quote it carries was asked for. *)
Theorem batch_response_bounded session body db quotes :
  NoDup (q_id <$> quote_table db) →
  payload (response (POST toISOString session body db)) = QuotesPayload quotes →
  length quotes ≤ 50
  ∧ ∃ ids, well_formed_body body ids
           ∧ length quotes ≤ length ids
           ∧ ∀ v, v ∈ quotes → v_id v ∈ ids.
Proof.
  intros Hnd Hpayload.
  destruct (POST_cases session body db)
    as [(_ & Hs & _)|[(_ & _ & Hs & _)|[(_ & _ & _ & Hs & _)
       |(_ & ids & userId & Hw & _ & Hh)]]].
  - unfold POST in *. by repeat case_match.
  - unfold POST in *. by repeat case_match.
  - unfold POST in *. by repeat case_match.
  - rewrite Hh in Hpayload. simpl in Hpayload. injection Hpayload as <-.
    destruct (getQuotesByIds_NoDup_length toISOString ids userId db Hnd)
      as [_ Hle].
    assert (Hbound : 1 ≤ length ids ≤ 50) by (by destruct Hw as (? & _ & _ & ?)).
    split; [lia|]. exists ids. split_and!; [done..|].
    intros v (q & _ & ? & -> & _)%elem_of_getQuotesByIds. done.
Qed.

End MoreRouteFacts.

Section IdsRouteFacts.

Import QuoteService BatchRoute IdsRoute.

Context {Date : Type}.

Implicit Types (db : @Database Date) (params : list (string * string)).

Lemma getQuoteIds_category_or_else source userId category db :
  getQuoteIds source userId (or_else category None) db
  = getQuoteIds source userId category db.
Proof.
  unfold or_else. destruct (truthy category) eqn:Ht; [done|].
  destruct category as [c|]; [|done].
  unfold getQuoteIds. destruct source; try done;
    f_equal; apply list_filter_iff; intros q;
    unfold category_clause; by rewrite Ht.
Qed.

Lemma switch_source_other source :
  source ≠ "PRELOADED" → source ≠ "CUSTOM" → source ≠ "FAVORITES" →
  switch_source source = BOTH.
Proof.
  intros H1 H2 H3. unfold switch_source.
  by rewrite !(proj2 (String.eqb_neq _ _)) by done.
Qed.

(** X11.  The identifier endpoint treats a missing, empty or
    unrecognised [source] parameter as BOTH, and an empty [category]
    parameter as none: for a signed-in user it then answers 200 with
    the identifiers [getQuoteIds] gives for BOTH and their number as
    [total]. *)
Theorem ids_route_defaults_to_both session params db userId :
  session_user_id session = Some userId → userId ≠ "" →
  searchParams_get "source" params ≠ Some "PRELOADED" →
  searchParams_get "source" params ≠ Some "CUSTOM" →
  searchParams_get "source" params ≠ Some "FAVORITES" →
  let ids := getQuoteIds BOTH userId (searchParams_get "category" params) db in
  GET session params db
  = {| IdsRoute.status := 200;
       IdsRoute.payload := IdsPayload ids (length ids) |}.
Proof.
  intros Hu Hne H1 H2 H3 ids. unfold GET. rewrite Hu. simpl.
  rewrite (proj2 (String.eqb_neq _ _)) by done. simpl.
  rewrite getQuoteIds_category_or_else.
  rewrite switch_source_other; [done|..].
  all: unfold or_else; destruct (searchParams_get "source" params) as [src|];
    simpl; [|done]; destruct (String.eqb_spec src ""); simpl; congruence.
Qed.

End IdsRouteFacts.

(** ** The hook: the cache, the effects and whole sessions *)

Section CacheFacts.

Import QuoteService Hook Lifecycle.

Implicit Types (s : HookState) (w : World) (quotes : list Quote).

Lemma NoDup_fmap_inj_on {A B} (f : A → B) (l : list A) x y :
  NoDup (f <$> l) → x ∈ l → y ∈ l → f x = f y → x = y.
Proof.
  induction l as [|z l IH]; intros Hnd Hx Hy Hf.
  { by apply elem_of_nil in Hx. }
  rewrite fmap_cons in Hnd. apply NoDup_cons in Hnd as [Hz Hnd].
  apply elem_of_cons in Hx as [->|Hx], Hy as [->|Hy]; [done| | |by apply IH].
  - destruct Hz. rewrite Hf. by apply list_elem_of_fmap_2.
  - destruct Hz. rewrite <- Hf. by apply list_elem_of_fmap_2.
Qed.

Lemma onSuccess_fetchedIds c quotes w :
  fetchedIds (onSuccess c quotes w)
  = fetchedIds w ∪ list_to_set (id <$> quotes).
Proof.
  unfold onSuccess. simpl. generalize (fetchedIds w).
  induction quotes as [|q quotes IH]; intros f; simpl.
  - set_solver.
  - rewrite IH. set_solver.
Qed.

Lemma onSuccess_dom c quotes w :
  dom (quotesCache (live (onSuccess c quotes w)))
  = dom c ∪ list_to_set (id <$> quotes).
Proof.
  unfold onSuccess. simpl. revert c.
  induction quotes as [|q quotes IH]; intros c; simpl.
  - set_solver.
  - rewrite IH, dom_insert_L. set_solver.
Qed.

Lemma onSuccess_lookup_other c quotes w k :
  k ∉ id <$> quotes →
  quotesCache (live (onSuccess c quotes w)) !! k = c !! k.
Proof.
  unfold onSuccess. simpl. revert c.
  induction quotes as [|q quotes IH]; intros c Hk; simpl; [done|].
  rewrite fmap_cons, not_elem_of_cons in Hk. destruct Hk as [Hne Hk].
  rewrite IH by done. by rewrite lookup_insert_ne.
Qed.

Lemma onSuccess_lookup_some c quotes w k :
  k ∈ id <$> quotes →
  ∃ q, q ∈ quotes ∧ id q = k
       ∧ quotesCache (live (onSuccess c quotes w)) !! k = Some q.
Proof.
  unfold onSuccess. simpl. revert c.
  induction quotes as [|q quotes IH]; intros c Hk; simpl.
  { by apply elem_of_nil in Hk. }
  destruct (decide (k ∈ id <$> quotes)) as [Hin|Hout].
  - destruct (IH (<[id q := q]> c) Hin) as (q' & ? & ? & ?).
    exists q'. split; [by right|done].
  - rewrite fmap_cons in Hk. apply elem_of_cons in Hk as [->|?]; [|done].
    exists q. split; [by left|]. split; [done|].
    pose proof (onSuccess_lookup_other (<[id q := q]> c) quotes w (id q) Hout)
      as Hsame.
    unfold onSuccess in Hsame. simpl in Hsame.
    by rewrite Hsame, lookup_insert_eq.
Qed.

(** X12.  Handling a batch response stores the cache the callback has
    captured, extended with what was delivered: every identifier of the
    response is added to [fetchedIds] and to that cache, the entries of
    other identifiers are those of the captured cache (whatever else
    the live cache holds by then is not kept), and when the response
    has no identifier twice a lookup of each delivered identifier
    returns the delivered quote. *)
Theorem onSuccess_round_trip c quotes w :
  fetchedIds (onSuccess c quotes w)
  = fetchedIds w ∪ list_to_set (id <$> quotes)
  ∧ dom (quotesCache (live (onSuccess c quotes w)))
    = dom c ∪ list_to_set (id <$> quotes)
  ∧ (∀ k, k ∉ id <$> quotes →
       quotesCache (live (onSuccess c quotes w)) !! k = c !! k)
  ∧ (NoDup (id <$> quotes) →
     ∀ q, q ∈ quotes →
       quotesCache (live (onSuccess c quotes w)) !! id q = Some q).
Proof.
  split_and!.
  - apply onSuccess_fetchedIds.
  - apply onSuccess_dom.
  - intros k. apply onSuccess_lookup_other.
  - intros Hnd q Hq.
    destruct (onSuccess_lookup_some c quotes w (id q)) as (q' & Hq' & Hid & ->).
    { by apply list_elem_of_fmap_2. }
    f_equal. by apply (NoDup_fmap_inj_on id quotes).
Qed.

End CacheFacts.

Section MoreHookFacts.

Import QuoteService BatchRoute Hook Lifecycle.

Variable batchSize : Z.
Variable prefetchThreshold : Z.
Variable fetchBatch : nat → list string → option (list Quote).
Variable favoritesApi : string → string → bool.

Local Abbreviation prefetchNextBatch :=
  (Hook.prefetchNextBatch batchSize prefetchThreshold).
Local Abbreviation serve := (Hook.serve batchSize prefetchThreshold).
Local Abbreviation getNextQuote_loop :=
  (Hook.getNextQuote_loop batchSize prefetchThreshold fetchBatch).
Local Abbreviation getNextQuote :=
  (Hook.getNextQuote batchSize prefetchThreshold fetchBatch).
Local Abbreviation mutateAsync := (Hook.mutateAsync fetchBatch).
Local Abbreviation settle := (Hook.settle fetchBatch).
Local Abbreviation deliver := (Hook.deliver fetchBatch).
Local Abbreviation toggleFavorite := (Hook.toggleFavorite favoritesApi).
Local Abbreviation step :=
  (Hook.step batchSize prefetchThreshold fetchBatch favoritesApi).
Local Abbreviation session :=
  (Hook.session batchSize prefetchThreshold fetchBatch favoritesApi).

Implicit Types (s : HookState) (w : World) (ids : list string).

(** *** Calls that do nothing, and calls that show a cached quote *)

Lemma getNextQuote_idle rnd s w :
  length (shuffledIds s) ≤ currentIdIndex s → getNextQuote rnd s w = Resolved w.
Proof.
  intros Hend. unfold Hook.getNextQuote. case_bool_decide; [done|].
  by replace (length (shuffledIds s) - currentIdIndex s) with 0 by lia.
Qed.

(** X13.  Once the position has reached the end of the shuffle (or the
    shuffle is empty), [getNextQuote] does nothing at all, however often
    it is called: no request, no new quote, no reshuffle.  This is the
    state the first-quote effect leaves when there is a single quote. *)
Theorem getNextQuote_idle_at_end w (rnds : list (nat → Q)) :
  length (shuffledIds (live w)) ≤ currentIdIndex (live w) →
  session (CallGetNextQuote <$> rnds) w = w.
Proof.
  intros Hend. induction rnds as [|rnd rnds IH]; [done|].
  unfold Hook.session in *. simpl. by rewrite getNextQuote_idle.
Qed.

Lemma same_display_refl w : same_display w w.
Proof. by unfold same_display. Qed.

Lemma same_display_trans w1 w2 w3 :
  same_display w1 w2 → same_display w2 w3 → same_display w1 w3.
Proof. unfold same_display. intuition congruence. Qed.

Lemma same_display_prefetchNextBatch s w :
  same_display w (prefetchNextBatch s w)
  ∧ quotesCache (live (prefetchNextBatch s w)) = quotesCache (live w)
  ∧ fetchedIds (prefetchNextBatch s w) = fetchedIds w.
Proof.
  unfold Hook.prefetchNextBatch, same_display. by repeat case_match.
Qed.

(** X14.  When the body of the next identifier is in the cache and it is
    not the last of the shuffle, [getNextQuote] resolves, shows that
    quote and moves the position one step; the shuffle, the cache, the
    set of fetched identifiers and the toasts stay as they are. *)
Theorem getNextQuote_shows_cached rnd s w nextId quote :
  shuffledIds s !! currentIdIndex s = Some nextId →
  quotesCache s !! nextId = Some quote →
  currentIdIndex s + 1 < length (shuffledIds s) →
  ∃ w', getNextQuote rnd s w = Resolved w'
        ∧ currentQuote (live w') = Some quote
        ∧ currentIdIndex (live w') = currentIdIndex s + 1
        ∧ shuffledIds (live w') = shuffledIds (live w)
        ∧ allQuoteIds (live w') = allQuoteIds (live w)
        ∧ quotesCache (live w') = quotesCache (live w)
        ∧ fetchedIds w' = fetchedIds w
        ∧ toasts w' = toasts w.
Proof.
  intros Hid Hq Hinner. eexists.
  split; [by apply (getNextQuote_cached _ _ _ rnd s w nextId quote)|].
  unfold Hook.serve. rewrite bool_decide_eq_false_2 by lia.
  destruct (same_display_prefetchNextBatch s
              (setCurrentIdIndex (currentIdIndex s + 1)
                 (setCurrentQuote (Some quote) w)))
    as ((Ha & Hs & Hi & Hc & _ & Ht) & Hcache & Hf).
  by rewrite Ha, Hs, Hi, Hc, Ht, Hcache, Hf.
Qed.

(** *** A failing batch *)

Lemma mutateAsync_outcome ids w :
  (∃ quotes, fetchBatch (length (requests w)) ids = Some quotes
     ∧ mutateAsync ids w
       = Resolved (onSuccess (quotesCache (live w)) quotes
                     (send (FetchBatch ids (fetchedIds w)) (supersede w))))
  ∨ (fetchBatch (length (requests w)) ids = None
     ∧ mutateAsync ids w
       = Rejected (onError
                     (send (FetchBatch ids (fetchedIds w)) (supersede w)))).
Proof.
  unfold Hook.mutateAsync, Hook.settle.
  destruct (fetchBatch (length (requests w)) ids); eauto.
Qed.

Lemma getNextQuote_loop_rejected rnd s fuel : ∀ nextIndex w w',
  getNextQuote_loop rnd s fuel nextIndex w = Rejected w' →
  currentQuote (live w') = currentQuote (live w)
  ∧ currentIdIndex (live w') = currentIdIndex (live w)
  ∧ shuffledIds (live w') = shuffledIds (live w)
  ∧ allQuoteIds (live w') = allQuoteIds (live w)
  ∧ toasts w' = toasts w ++ [ToastError "Failed to load quotes"]
  ∧ ∃ n ids, fetchBatch n ids = None.
Proof.
  induction fuel as [|fuel IH]; intros nextIndex w w'; [done|].
  rewrite getNextQuote_loop_step.
  destruct (shuffledIds s !! nextIndex) as [nextId|]; [|done].
  destruct (quotesCache s !! nextId) as [quote|]; [done|].
  simpl. case_match; [|apply IH].
  match goal with |- context [mutateAsync ?ids w] =>
    destruct (mutateAsync_outcome ids w) as [(quotes & _ & ->)|[Hnone ->]]
  end.
  - intros Hrun%IH. exact Hrun.
  - intros [= <-]. split_and!; [done..|eauto].
Qed.

(** X15.  [getNextQuote] rejects only because a batch request failed,
    and then the display is untouched: the current quote, the position,
    the shuffle and the full list are what they were (only bodies
    delivered before the failure were added to the cache), and the one
    toast added is "Failed to load quotes". *)
Theorem getNextQuote_rejects_cleanly rnd s w w' :
  getNextQuote rnd s w = Rejected w' →
  currentQuote (live w') = currentQuote (live w)
  ∧ currentIdIndex (live w') = currentIdIndex (live w)
  ∧ shuffledIds (live w') = shuffledIds (live w)
  ∧ allQuoteIds (live w') = allQuoteIds (live w)
  ∧ toasts w' = toasts w ++ [ToastError "Failed to load quotes"]
  ∧ ∃ n ids, fetchBatch n ids = None.
Proof.
  unfold Hook.getNextQuote. case_bool_decide; [done|].
  apply getNextQuote_loop_rejected.
Qed.

(** *** Toggling twice *)

Lemma toggled_toggled quote : toggled (toggled quote) = quote.
Proof. destruct quote. unfold toggled. simpl. by rewrite negb_involutive. Qed.

Lemma toggleFavorite_ok s quoteId quote w :
  quotesCache s !! quoteId = Some quote →
  favoritesApi (if isFavorited quote then "DELETE" else "POST") quoteId = true →
  toggleFavorite s quoteId w
  = send (Favorite (if isFavorited quote then "DELETE" else "POST") quoteId)
      ((if is_current s quoteId
        then setCurrentQuote (Some (toggled quote)) else λ w, w)
         (setQuotesCache (<[quoteId := toggled quote]> (quotesCache s)) w)).
Proof.
  intros Hq Hok. unfold Hook.toggleFavorite. rewrite Hq, Hok.
  by destruct (is_current s quoteId).
Qed.

(** *** A batch replaced by a later one *)

(** X30.  A batch sent with [mutate] and replaced by a later batch
    before its response has arrived stores, when it does arrive, the
    cache of the render before the later batch was sent, extended with
    its own bodies.  So when a [mutateAsync] batch is sent and answered
    in between, every body that only this later batch has delivered is
    gone from the cache again, while its identifier stays in
    [fetchedIds]. *)
Theorem superseded_batch_drops_bodies ids1 ids2 quotes1 quotes2 w :
  inflight w = [] →
  fetchBatch (length (requests w)) ids1 = Some quotes1 →
  fetchBatch (S (length (requests w))) ids2 = Some quotes2 →
  let w1 := mutate ids1 w in
  let w2 := world_of (mutateAsync ids2 w1) in
  let w3 := deliver w2 in
  (∀ q, q ∈ quotes2 → quotesCache (live w2) !! id q ≠ None)
  ∧ (∀ q, q ∈ quotes2 → id q ∈ fetchedIds w3)
  ∧ (∀ k, k ∉ id <$> quotes1 →
       quotesCache (live w3) !! k = quotesCache (live w) !! k)
  ∧ inflight w3 = [].
Proof.
  intros Hin H1 H2 w1 w2 w3.
  assert (Hw2 : w2 = onSuccess (quotesCache (live w)) quotes2
                       (send (FetchBatch ids2 (fetchedIds w1)) (supersede w1))).
  { unfold w2, Hook.mutateAsync, Hook.settle.
    replace (length (requests w1)) with (S (length (requests w)))
      by (unfold w1, mutate; simpl; rewrite length_app; simpl; lia).
    by rewrite H2. }
  assert (Hw3 : w3 = onSuccess (quotesCache (live w)) quotes1
                       (setInflight [] w2)).
  { unfold w3, Hook.deliver. rewrite Hw2. unfold w1, mutate, supersede.
    simpl. rewrite Hin. simpl. unfold Hook.settle. by rewrite H1. }
  split_and!.
  - intros q Hq. rewrite Hw2.
    destruct (onSuccess_lookup_some (quotesCache (live w)) quotes2
                (send (FetchBatch ids2 (fetchedIds w1)) (supersede w1)) (id q))
      as (q' & _ & _ & ->); [by apply list_elem_of_fmap_2|done].
  - intros q Hq. rewrite Hw3, onSuccess_fetchedIds. apply elem_of_union_l.
    simpl. rewrite Hw2. by apply elem_of_fetchedIds_onSuccess.
  - intros k Hk. rewrite Hw3. by apply onSuccess_lookup_other.
  - by rewrite Hw3.
Qed.

End MoreHookFacts.

(** *** Setting up and resetting *)

Section LifecycleFacts.

Import QuoteService Hook Lifecycle.

Implicit Types (s : HookState) (w : World) (ids : list string).

(** X17.  The initialisation effect runs once.  From a state that is
    not initialised and a list of identifiers that is not empty, it
    stores the list, a rearrangement of it as the shuffle, and marks the
    state initialised; run again by the next render it changes nothing,
    whatever list has arrived since.  With an empty list it never
    initialises. *)
Theorem initialize_once rnd rnd' ids idsData' s w :
  (isInitialized s = false → 0 < length ids → unit_draws rnd →
   let w1 := initialize rnd (Some ids) s w in
   allQuoteIds (live w1) = ids
   ∧ shuffledIds (live w1) ≡ₚ ids
   ∧ isInitialized (live w1) = true
   ∧ currentIdIndex (live w1) = currentIdIndex (live w)
   ∧ initialize rnd' idsData' (live w1) w1 = w1)
  ∧ initialize rnd (Some []) s w = w
  ∧ initialize rnd None s w = w.
Proof.
  split_and!; [|done..].
  intros Hinit Hlen Hrnd w1.
  assert (Hw1 : w1 = setIsInitialized true
                       (setShuffledIds (shuffleArray rnd ids)
                          (setAllQuoteIds ids w))).
  { unfold w1, initialize. rewrite Hinit, bool_decide_eq_true_2 by done. done. }
  rewrite Hw1. simpl. split_and!; [done|by apply shuffleArray_perm|done..|].
  unfold initialize. simpl. destruct idsData'; [|done].
  by rewrite andb_false_r.
Qed.

Lemma reset_live w :
  live (reset w)
  = {| allQuoteIds := allQuoteIds (live w); shuffledIds := [];
       currentIdIndex := 0; quotesCache := ∅; currentQuote := None;
       isInitialized := false |}.
Proof. done. Qed.

(** X18.  [reset] empties the shuffle, the cache, the current quote and
    the set of fetched identifiers and asks the server for the
    identifier list again; batches still in flight are not withdrawn.
    The query keeps the list it holds while it refetches, so the
    initialisation effect, which runs as soon as [isInitialized] is
    false, starts the new cycle on the list [held] at the time of the
    reset: the shuffle is a rearrangement of it, at position 0, with
    nothing cached or fetched.  When the list asked for arrives, the
    state is initialised already and the effect leaves everything as it
    is: that list is not used. *)
Theorem reset_reuses_held_list rnd rnd' held refetched w :
  0 < length held → unit_draws rnd →
  let w1 := reset w in
  let w2 := initialize rnd (Some held) (live w1) w1 in
  let w3 := initialize rnd' refetched (live w2) w2 in
  requests w1 = requests w ++ [ListIds]
  ∧ inflight w1 = inflight w
  ∧ allQuoteIds (live w2) = held
  ∧ shuffledIds (live w2) ≡ₚ held
  ∧ currentIdIndex (live w2) = 0
  ∧ quotesCache (live w2) = ∅
  ∧ currentQuote (live w2) = None
  ∧ fetchedIds w2 = ∅
  ∧ requests w2 = requests w1
  ∧ w3 = w2.
Proof.
  intros Hlen Hrnd w1 w2 w3.
  assert (Hw2 : w2 = setIsInitialized true
                       (setShuffledIds (shuffleArray rnd held)
                          (setAllQuoteIds held w1))).
  { unfold w2, initialize. rewrite bool_decide_eq_true_2 by done. done. }
  assert (Hw3 : w3 = w2).
  { unfold w3, initialize. rewrite Hw2. simpl.
    destruct refetched; [|done]. by rewrite andb_false_r. }
  rewrite Hw3, Hw2. simpl. split_and!; try done. by apply shuffleArray_perm.
Qed.

End LifecycleFacts.

(** *** The first batch, and what the server makes of the requests *)

Section RequestFacts.

Import QuoteService BatchRoute Hook Lifecycle.

Implicit Types (s : HookState) (w : World) (ids : list string).

Lemma sends_only_refl P w : sends_only P w w.
Proof. exists []. by rewrite app_nil_r. Qed.

Lemma sends_only_trans P w1 w2 w3 :
  sends_only P w1 w2 → sends_only P w2 w3 → sends_only P w1 w3.
Proof.
  intros (new & Hr & Hn) (new' & Hr' & Hn'). exists (new ++ new').
  rewrite Hr', Hr, app_assoc. split; [done|]. by apply Forall_app.
Qed.

Lemma sends_only_one P w w' r :
  requests w' = requests w ++ [r] → P r → sends_only P w w'.
Proof. intros Hr HP. exists [r]. split; [done|]. by constructor. Qed.

Lemma member_ids items : member "ids" [("ids", items)] = Some items.
Proof. done. Qed.

Lemma batch_body_parse ids :
  batchSchema_parse (batch_body ids)
  = if bool_decide (1 ≤ length ids ≤ 50) then Some ids else None.
Proof.
  unfold batch_body, batchSchema_parse. rewrite member_ids.
  case_bool_decide as Hsize.
  - by apply parse_ids_Some.
  - destruct (parse_ids (Some (JArray (JString <$> ids)))) as [ids'|] eqn:Hp;
      [|done].
    apply parse_ids_Some in Hp as [[= Heq] Hsize'].
    assert (ids = ids') as <-; [|done].
    clear -Heq. revert ids' Heq.
    induction ids as [|x ids IH]; intros [|y ids']; simpl; try done.
    intros [= -> Heq]. f_equal. by apply IH.
Qed.

Lemma length_unfetched_le w ids : length (unfetched w ids) ≤ length ids.
Proof. apply length_filter. Qed.

Lemma length_window_le {A} (l : list A) i n :
  (0 ≤ n)%Z → (Z.of_nat (length (window l i n)) ≤ n)%Z.
Proof. intros Hn. unfold window. rewrite length_take. lia. Qed.

End RequestFacts.

Section MoreSessionFacts.

Import QuoteService BatchRoute Hook Lifecycle.

Variable batchSize : Z.
Variable prefetchThreshold : Z.
Variable fetchBatch : nat → list string → option (list Quote).
Variable favoritesApi : string → string → bool.

Local Abbreviation prefetchNextBatch :=
  (Hook.prefetchNextBatch batchSize prefetchThreshold).
Local Abbreviation serve := (Hook.serve batchSize prefetchThreshold).
Local Abbreviation getNextQuote_loop :=
  (Hook.getNextQuote_loop batchSize prefetchThreshold fetchBatch).
Local Abbreviation getNextQuote :=
  (Hook.getNextQuote batchSize prefetchThreshold fetchBatch).
Local Abbreviation mutateAsync := (Hook.mutateAsync fetchBatch).
Local Abbreviation deliver := (Hook.deliver fetchBatch).
Local Abbreviation toggleFavorite := (Hook.toggleFavorite favoritesApi).
Local Abbreviation step :=
  (Hook.step batchSize prefetchThreshold fetchBatch favoritesApi).
Local Abbreviation session :=
  (Hook.session batchSize prefetchThreshold fetchBatch favoritesApi).

Implicit Types (s : HookState) (w : World) (ids : list string).

Lemma loadFirstBatch_sends s w :
  (0 ≤ batchSize)%Z → shuffledIds s ≠ [] → quotesCache s = ∅ →
  loadFirstBatch batchSize s w
  = mutate (take (Z.to_nat batchSize) (shuffledIds s)) w.
Proof.
  intros Hb Hne Hcache. unfold loadFirstBatch.
  rewrite Hcache, map_size_empty.
  rewrite bool_decide_eq_true_2 by (destruct (shuffledIds s); [done|simpl; lia]).
  rewrite bool_decide_eq_true_2 by done. simpl.
  pose proof (slice_window (shuffledIds s) 0 batchSize Hb) as Hslice.
  change (slice (shuffledIds s) 0 batchSize
          = window (shuffledIds s) 0 batchSize) in Hslice.
  rewrite Hslice. unfold window. by rewrite drop_0.
Qed.

(** X19.  Start-up.  On a fresh shuffle with an empty cache, the
    first-batch effect requests the first [batchSize] identifiers of the
    shuffle, without consulting [fetchedIds]; when the response arrives
    with the first identifier in it, the first-quote effect shows a
    delivered quote with that identifier and sets the position to 1. *)
Theorem first_quote_shown w firstId rest quotes :
  (0 ≤ batchSize)%Z →
  shuffledIds (live w) = firstId :: rest →
  quotesCache (live w) = ∅ →
  currentQuote (live w) = None →
  inflight w = [] →
  fetchBatch (length (requests w))
             (take (Z.to_nat batchSize) (shuffledIds (live w))) = Some quotes →
  firstId ∈ id <$> quotes →
  let w1 := loadFirstBatch batchSize (live w) w in
  let w2 := deliver w1 in
  let w3 := showFirstQuote (live w2) w2 in
  requests w1
  = requests w
    ++ [FetchBatch (take (Z.to_nat batchSize) (shuffledIds (live w)))
                   (fetchedIds w)]
  ∧ ∃ q, q ∈ quotes ∧ id q = firstId
         ∧ currentQuote (live w3) = Some q
         ∧ currentIdIndex (live w3) = 1
         ∧ firstId ∈ fetchedIds w3.
Proof.
  intros Hb Hshuffle Hcache Hcur Hin Hserver Hfirst w1 w2 w3.
  assert (Hw1 : w1 = mutate (take (Z.to_nat batchSize) (shuffledIds (live w))) w).
  { apply loadFirstBatch_sends; [done| |done]. by rewrite Hshuffle. }
  split; [by rewrite Hw1|].
  set (ids := take (Z.to_nat batchSize) (shuffledIds (live w))) in *.
  assert (Hw2 : w2 = onSuccess (quotesCache (live w)) quotes
                       (setInflight [] (send (FetchBatch ids (fetchedIds w)) w))).
  { unfold w2, Hook.deliver. rewrite Hw1. unfold mutate, supersede. simpl.
    rewrite Hin. simpl. unfold Hook.settle. by rewrite Hserver. }
  destruct (onSuccess_lookup_some (quotesCache (live w)) quotes
              (setInflight [] (send (FetchBatch ids (fetchedIds w)) w))
              firstId Hfirst) as (q & Hq & Hid & Hlookup).
  rewrite <- Hw2 in Hlookup.
  exists q. split; [done|]. split; [done|].
  assert (Hsize : 0 < size (quotesCache (live w2))).
  { destruct (decide (size (quotesCache (live w2)) = 0)) as [Hz|]; [|lia].
    apply map_size_empty_iff in Hz. by rewrite Hz in Hlookup. }
  assert (Hlive2 : shuffledIds (live w2) = firstId :: rest
                   ∧ currentQuote (live w2) = None).
  { by rewrite Hw2. }
  destruct Hlive2 as [Hs2 Hc2].
  assert (Hw3 : w3 = setCurrentIdIndex 1 (setCurrentQuote (Some q) w2)).
  { unfold w3, showFirstQuote. rewrite Hs2, Hc2. simpl.
    rewrite bool_decide_eq_true_2 by done. simpl.
    rewrite ?bool_decide_eq_true_2 by lia. simpl. by rewrite Hlookup. }
  rewrite Hw3. simpl. split_and!; [done..|].
  rewrite Hw2, onSuccess_fetchedIds. apply elem_of_union_r.
  by apply elem_of_list_to_set.
Qed.

(** X20.  The first batch against the limit of the server.  With a
    positive batch size, the request of the first-batch effect is
    answered 200 by the batch endpoint when the batch size or the
    shuffle is at most 50 long, and refused with 400 otherwise: the
    option is not clipped to the 50 identifiers the server accepts. *)
Theorem first_batch_against_limit s w :
  (1 ≤ batchSize)%Z → shuffledIds s ≠ [] → quotesCache s = ∅ →
  let ids := take (Z.to_nat batchSize) (shuffledIds s) in
  requests (loadFirstBatch batchSize s w)
  = requests w ++ [FetchBatch ids (fetchedIds w)]
  ∧ ∀ (Date : Type) (toISOString : Date → string)
      (session : option Session) (db : @Database Date),
      truthy (session_user_id session) = true →
      status (response (POST toISOString session (Some (batch_body ids)) db))
      = if decide ((batchSize ≤ 50)%Z ∨ length (shuffledIds s) ≤ 50)
        then 200 else 400.
Proof.
  intros Hb Hne Hcache ids.
  rewrite loadFirstBatch_sends by (done || lia). split; [done|].
  intros Date toISOString session db Hauth.
  unfold POST. rewrite Hauth, batch_body_parse.
  assert (Hlen : length ids = Nat.min (Z.to_nat batchSize) (length (shuffledIds s)))
    by apply length_take.
  assert (Hpos : 0 < length (shuffledIds s))
    by (destruct (shuffledIds s); [done|simpl; lia]).
  case_bool_decide; case_decide; simpl; (done || lia).
Qed.

End MoreSessionFacts.

(** *** What a session keeps *)

Section InvariantFacts.

Import QuoteService BatchRoute Hook Lifecycle.

Implicit Types (s : HookState) (w : World) (ids : list string).

Lemma elem_of_caches w c :
  c ∈ caches w
  ↔ c = quotesCache (live w) ∨ ∃ p : Pending, p ∈ inflight w ∧ p.2 = Some c.
Proof.
  unfold caches. rewrite elem_of_cons, list_elem_of_omap. naive_solver.
Qed.

Lemma cached_are_fetched_live w :
  cached_are_fetched w → dom (quotesCache (live w)) ⊆ fetchedIds w.
Proof. intros Hinv. by apply Forall_cons in Hinv as [? _]. Qed.

(** A world whose caches are caches of [w], or have the keys of one,
    and whose [fetchedIds] holds what that of [w] does. *)
Lemma cached_are_fetched_mono w w' :
  fetchedIds w ⊆ fetchedIds w' →
  (∀ c', c' ∈ caches w' →
     ∃ c, c ∈ caches w ∧ dom c' ⊆ dom c ∪ fetchedIds w') →
  cached_are_fetched w → cached_are_fetched w'.
Proof.
  unfold cached_are_fetched. rewrite !Forall_forall.
  intros Hf Hc Hinv c' Hc'. destruct (Hc c' Hc') as (c & Hin & Hdom).
  specialize (Hinv c Hin). set_solver.
Qed.

Lemma caches_supersede w c : c ∈ caches (supersede w) → c ∈ caches w.
Proof.
  rewrite !elem_of_caches. intros [->|(p & Hp & Hc)]; [by left|].
  simpl in Hp. apply list_elem_of_fmap in Hp as (p0 & -> & Hp0).
  simpl in Hc. injection Hc as <-.
  unfold cache_read. destruct (p0.2) as [c0|] eqn:Hc0; simpl; [|by left].
  right. by exists p0.
Qed.

Lemma caches_mutate ids w c : c ∈ caches (mutate ids w) → c ∈ caches w.
Proof.
  intros Hc. apply caches_supersede. revert Hc. rewrite !elem_of_caches.
  intros [->|(p & Hp & Hc)]; [by left|]. right.
  simpl in Hp. apply elem_of_app in Hp as [Hp|Hp]; [by exists p|].
  apply list_elem_of_singleton in Hp as ->. done.
Qed.

Lemma cached_are_fetched_caches w c :
  cached_are_fetched w → c ∈ caches w → dom c ⊆ fetchedIds w.
Proof. unfold cached_are_fetched. rewrite Forall_forall. auto. Qed.

Lemma cached_are_fetched_onSuccess c quotes w :
  dom c ⊆ fetchedIds w →
  cached_are_fetched w → cached_are_fetched (onSuccess c quotes w).
Proof.
  intros Hc Hinv. unfold cached_are_fetched. apply Forall_forall.
  intros c'. rewrite elem_of_caches, onSuccess_fetchedIds.
  intros [->|(p & Hp & Hsome)].
  - rewrite onSuccess_dom. set_solver.
  - etrans; [|apply union_subseteq_l].
    apply (cached_are_fetched_caches w c' Hinv), elem_of_caches.
    right. by exists p.
Qed.

Lemma cached_are_fetched_subset w w' :
  fetchedIds w' = fetchedIds w →
  (∀ c, c ∈ caches w' → c ∈ caches w) →
  cached_are_fetched w → cached_are_fetched w'.
Proof.
  intros Hf Hc. apply cached_are_fetched_mono; [by rewrite Hf|].
  intros c Hin. exists c. split; [by apply Hc|set_solver].
Qed.

Lemma cached_are_fetched_same w w' :
  quotesCache (live w') = quotesCache (live w) →
  fetchedIds w' = fetchedIds w →
  inflight w' = inflight w →
  cached_are_fetched w → cached_are_fetched w'.
Proof.
  intros Hcache Hf Hin. apply cached_are_fetched_subset; [done|].
  intros c. by rewrite !elem_of_caches, Hcache, Hin.
Qed.

Lemma cached_are_fetched_insert w w' quoteId quote :
  is_Some (quotesCache (live w) !! quoteId) →
  quotesCache (live w') = <[quoteId := quote]> (quotesCache (live w)) →
  fetchedIds w' = fetchedIds w →
  inflight w' = inflight w →
  cached_are_fetched w → cached_are_fetched w'.
Proof.
  intros Hsome Hcache Hf Hin. apply cached_are_fetched_mono; [by rewrite Hf|].
  intros c. rewrite elem_of_caches, Hin, Hcache. intros [->|Hp].
  - exists (quotesCache (live w)). split; [apply elem_of_caches; by left|].
    rewrite dom_insert_lookup_L by done. set_solver.
  - exists c. split; [by apply elem_of_caches; right|set_solver].
Qed.

Lemma sized_unfetched w ids (n : Z) :
  0 < length (unfetched w ids) → (Z.of_nat (length ids) ≤ n)%Z →
  sized_request n (FetchBatch (unfetched w ids) (fetchedIds w)).
Proof.
  intros Hpos Hle. simpl. pose proof (length_unfetched_le w ids). lia.
Qed.

Lemma sized_request_accepted (n : Z) ids fetched :
  (n ≤ 50)%Z → sized_request n (FetchBatch ids fetched) →
  1 ≤ length ids ≤ 50 ∧ batchSchema_parse (batch_body ids) = Some ids.
Proof.
  intros Hn Hsize. simpl in Hsize. split; [lia|].
  rewrite batch_body_parse, bool_decide_eq_true_2; [done|lia].
Qed.

End InvariantFacts.

Section SessionInvariants.

Import QuoteService BatchRoute Hook Lifecycle.

Variable batchSize : Z.
Variable prefetchThreshold : Z.
Variable fetchBatch : nat → list string → option (list Quote).
Variable favoritesApi : string → string → bool.

Local Abbreviation prefetchNextBatch :=
  (Hook.prefetchNextBatch batchSize prefetchThreshold).
Local Abbreviation serve := (Hook.serve batchSize prefetchThreshold).
Local Abbreviation getNextQuote_loop :=
  (Hook.getNextQuote_loop batchSize prefetchThreshold fetchBatch).
Local Abbreviation getNextQuote :=
  (Hook.getNextQuote batchSize prefetchThreshold fetchBatch).
Local Abbreviation mutateAsync := (Hook.mutateAsync fetchBatch).
Local Abbreviation deliver := (Hook.deliver fetchBatch).
Local Abbreviation toggleFavorite := (Hook.toggleFavorite favoritesApi).
Local Abbreviation step :=
  (Hook.step batchSize prefetchThreshold fetchBatch favoritesApi).
Local Abbreviation session :=
  (Hook.session batchSize prefetchThreshold fetchBatch favoritesApi).

Implicit Types (s : HookState) (w : World) (ids : list string).

Lemma live_serve rnd s nextIndex quote w :
  live (serve rnd s nextIndex quote w)
  = if bool_decide (length (shuffledIds s) ≤ nextIndex + 1)
    then {| allQuoteIds := allQuoteIds (live w);
            shuffledIds := shuffleArray rnd (allQuoteIds s);
            currentIdIndex := 0; quotesCache := quotesCache (live w);
            currentQuote := Some quote;
            isInitialized := isInitialized (live w) |}
    else {| allQuoteIds := allQuoteIds (live w);
            shuffledIds := shuffledIds (live w);
            currentIdIndex := nextIndex + 1;
            quotesCache := quotesCache (live w);
            currentQuote := Some quote;
            isInitialized := isInitialized (live w) |}.
Proof.
  unfold Hook.serve. case_bool_decide; simpl;
    by rewrite live_prefetchNextBatch.
Qed.

Lemma fetchedIds_serve rnd s nextIndex quote w :
  fetchedIds (serve rnd s nextIndex quote w) = fetchedIds w.
Proof.
  unfold Hook.serve. case_bool_decide; simpl;
    by rewrite fetchedIds_prefetchNextBatch.
Qed.

Lemma getNextQuote_loop_outcome rnd s fuel : ∀ nextIndex w w',
  getNextQuote_loop rnd s fuel nextIndex w = Resolved w' →
  same_display w w'
  ∨ ∃ k quote w0,
      nextIndex ≤ k ∧ k < length (shuffledIds s)
      ∧ same_display w w0 ∧ w' = serve rnd s k quote w0.
Proof.
  induction fuel as [|fuel IH]; intros nextIndex w w'.
  { intros [= <-]. left. apply same_display_refl. }
  rewrite getNextQuote_loop_step.
  destruct (shuffledIds s !! nextIndex) as [nextId|] eqn:Hid.
  2:{ intros [= <-]. left. apply same_display_refl. }
  destruct (quotesCache s !! nextId) as [quote|].
  { intros [= <-]. right. exists nextIndex, quote, w.
    split_and!; [done|by eapply lookup_lt_Some|apply same_display_refl|done]. }
  assert (Hnext : ∀ w1, same_display w w1 →
    getNextQuote_loop rnd s fuel (nextIndex + 1) w1 = Resolved w' →
    same_display w w'
    ∨ ∃ k quote w0,
        nextIndex ≤ k ∧ k < length (shuffledIds s)
        ∧ same_display w w0 ∧ w' = serve rnd s k quote w0).
  { intros w1 Hsame [Hd|(k & quote & w0 & ? & ? & Hd & ->)]%IH.
    - left. by eapply same_display_trans.
    - right. exists k, quote, w0. split_and!; [lia|done| |done].
      by eapply same_display_trans. }
  simpl. case_match; [|apply Hnext, same_display_refl].
  match goal with |- context [mutateAsync ?ids w] =>
    destruct (mutateAsync_outcome fetchBatch ids w)
      as [(quotes & _ & ->)|[_ ->]]
  end; [|done].
  apply Hnext. by unfold same_display.
Qed.

Lemma step_keeps_shuffle w e :
  draws_in_range e →
  position_in_range w → shuffle_of_all w →
  position_in_range (step w e) ∧ shuffle_of_all (step w e)
  ∧ allQuoteIds (live (step w e)) = allQuoteIds (live w).
Proof.
  unfold position_in_range, shuffle_of_all.
  intros Hdraws Hpos Hperm. destruct e as [rnd|quoteId|]; simpl.
  - destruct (getNextQuote rnd (live w) w) as [w'|w'] eqn:Hrun; simpl.
    + unfold Hook.getNextQuote in Hrun. case_bool_decide.
      { by injection Hrun as <-. }
      apply getNextQuote_loop_outcome in Hrun
        as [(Ha & Hs & Hi & _)|(k & quote & w0 & _ & Hk & (Ha & Hs & Hi & _) & ->)].
      * by rewrite Ha, Hs, Hi.
      * rewrite live_serve. case_bool_decide; simpl.
        -- split_and!; [lia| |done].
           rewrite Ha. by apply shuffleArray_perm.
        -- rewrite Ha, Hs. split_and!; [lia|done..].
    + unfold Hook.getNextQuote in Hrun. case_bool_decide; [done|].
      apply getNextQuote_loop_rejected in Hrun as (_ & Hi & Hs & Ha & _).
      by rewrite Ha, Hs, Hi.
  - unfold Hook.toggleFavorite. by repeat case_match.
  - unfold Hook.deliver, Hook.settle. by repeat case_match.
Qed.

Lemma session_shuffle_invariant events : ∀ w,
  Forall draws_in_range events →
  position_in_range w → shuffle_of_all w →
  position_in_range (session events w)
  ∧ shuffle_of_all (session events w)
  ∧ allQuoteIds (live (session events w)) = allQuoteIds (live w).
Proof.
  induction events as [|e events IH]; intros w Hdraws Hpos Hperm; [done|].
  apply Forall_cons in Hdraws as [He Hdraws].
  destruct (step_keeps_shuffle w e He Hpos Hperm) as (Hpos' & Hperm' & Hall).
  unfold Hook.session in *. simpl.
  destruct (IH (step w e) Hdraws Hpos' Hperm') as (? & ? & Hall').
  split_and!; [done..|]. by rewrite Hall'.
Qed.

(** X21.  Over a whole session, with draws in [[0, 1)], the shuffle
    stays a rearrangement of the full identifier list, the position
    stays inside the shuffle, and the full list itself is never
    changed: each cycle goes through every identifier of the list. *)
Theorem session_keeps_shuffle events w :
  Forall draws_in_range events →
  position_in_range w → shuffle_of_all w →
  position_in_range (session events w)
  ∧ shuffle_of_all (session events w)
  ∧ allQuoteIds (live (session events w)) = allQuoteIds (live w).
Proof. apply session_shuffle_invariant. Qed.

(** X29.  The [stats] the hook returns add up over a whole session:
    the position plus the quotes remaining in the shuffle is the total
    number of quotes, so the clamp at 0 in [remainingInShuffle] never
    applies, and the total is the one the session started with. *)
Theorem stats_add_up events w :
  Forall draws_in_range events →
  position_in_range w → shuffle_of_all w →
  let st := stats (live (session events w)) in
  (Z.of_nat (currentPosition st) + remainingInShuffle st
   = Z.of_nat (totalQuotes st))%Z
  ∧ totalQuotes st = length (allQuoteIds (live w)).
Proof.
  intros Hdraws Hpos Hperm.
  destruct (session_shuffle_invariant events w Hdraws Hpos Hperm)
    as (Hpos' & Hperm' & Hall).
  unfold position_in_range, shuffle_of_all in Hpos', Hperm'.
  apply Permutation_length in Hperm'.
  simpl. rewrite <- Hall. split; [lia|done].
Qed.

Lemma caches_prefetchNextBatch s w c :
  c ∈ caches (prefetchNextBatch s w) → c ∈ caches w.
Proof.
  unfold Hook.prefetchNextBatch. repeat case_match; try done.
  apply caches_mutate.
Qed.

Lemma caches_serve rnd s nextIndex quote w c :
  c ∈ caches (serve rnd s nextIndex quote w) → c ∈ caches w.
Proof.
  intros Hc.
  apply (caches_prefetchNextBatch s
           (setCurrentIdIndex (nextIndex + 1) (setCurrentQuote (Some quote) w))).
  revert Hc. unfold Hook.serve. by case_bool_decide.
Qed.

Lemma cached_are_fetched_mutateAsync ids w :
  cached_are_fetched w → cached_are_fetched (world_of (mutateAsync ids w)).
Proof.
  intros Hinv.
  assert (Hsent : cached_are_fetched
                    (send (FetchBatch ids (fetchedIds w)) (supersede w))).
  { revert Hinv. apply cached_are_fetched_subset; [done|].
    apply caches_supersede. }
  destruct (mutateAsync_outcome fetchBatch ids w)
    as [(quotes & _ & ->)|[_ ->]]; simpl.
  - apply cached_are_fetched_onSuccess; [|done].
    by apply (cached_are_fetched_live w).
  - done.
Qed.

Lemma cached_are_fetched_serve rnd s nextIndex quote w :
  cached_are_fetched w → cached_are_fetched (serve rnd s nextIndex quote w).
Proof.
  apply cached_are_fetched_subset.
  - apply fetchedIds_serve.
  - apply caches_serve.
Qed.

Lemma cached_are_fetched_loop rnd s fuel : ∀ nextIndex w,
  cached_are_fetched w →
  cached_are_fetched (world_of (getNextQuote_loop rnd s fuel nextIndex w)).
Proof.
  induction fuel as [|fuel IH]; intros nextIndex w Hinv; [done|].
  rewrite getNextQuote_loop_step.
  destruct (shuffledIds s !! nextIndex) as [nextId|]; [|done].
  destruct (quotesCache s !! nextId) as [quote|].
  { by apply cached_are_fetched_serve. }
  simpl. case_match; [|by apply IH].
  match goal with |- context [mutateAsync ?ids w] =>
    pose proof (cached_are_fetched_mutateAsync ids w Hinv) as Hinv';
    destruct (mutateAsync ids w) as [w1|w1]
  end; simpl in *; [by apply IH|done].
Qed.

Lemma cached_are_fetched_deliver w :
  cached_are_fetched w → cached_are_fetched (deliver w).
Proof.
  intros Hinv. unfold Hook.deliver.
  destruct (inflight w) as [|[[n ids'] captured] rest] eqn:Hin; [done|].
  assert (Hrest : ∀ c, c ∈ caches (setInflight rest w) → c ∈ caches w).
  { intros c. rewrite !elem_of_caches, Hin.
    intros [->|(p & Hp & Hc)]; [by left|].
    right. exists p. split; [by right|done]. }
  assert (Hinv' : cached_are_fetched (setInflight rest w)).
  { revert Hinv. by apply cached_are_fetched_subset. }
  unfold Hook.settle. destruct (fetchBatch n ids'); simpl; [|done].
  apply cached_are_fetched_onSuccess; [|done].
  apply (cached_are_fetched_caches w _ Hinv), elem_of_caches.
  destruct captured as [c|]; [|by left].
  right. exists (n, ids', Some c). rewrite Hin. split; [by left|done].
Qed.

Lemma session_cached_fetched events : ∀ w,
  cached_are_fetched w → cached_are_fetched (session events w).
Proof.
  induction events as [|e events IH]; intros w Hinv; [done|].
  unfold Hook.session in *. simpl. apply IH.
  destruct e as [rnd|quoteId|]; simpl.
  - unfold Hook.getNextQuote. case_bool_decide; [done|].
    by apply cached_are_fetched_loop.
  - unfold Hook.toggleFavorite.
    destruct (quotesCache (live w) !! quoteId) as [quote|] eqn:Hq; [|done].
    destruct (favoritesApi _ quoteId), (is_current (live w) quoteId).
    + by eapply (cached_are_fetched_insert w _ quoteId (toggled quote)).
    + by eapply (cached_are_fetched_insert w _ quoteId (toggled quote)).
    + eapply (cached_are_fetched_same w); [|done..].
      simpl. by rewrite insert_insert_eq, insert_id.
    + eapply (cached_are_fetched_same w); [|done..].
      simpl. by rewrite insert_insert_eq, insert_id.
  - by apply cached_are_fetched_deliver.
Qed.

(** X22.  Over a whole session, every identifier whose body is in the
    cache is in [fetchedIds], in the live cache as in the caches that
    outstanding batches will store again; so an identifier whose body
    is cached is named by none of the batch requests that follow. *)
Theorem session_keeps_cached_fetched events w :
  cached_are_fetched w →
  cached_are_fetched (session events w)
  ∧ ∃ new, requests (session events w) = requests w ++ new
           ∧ ∀ k, is_Some (quotesCache (live w) !! k) → k ∉ requested_ids new.
Proof.
  intros Hinv. split; [by apply session_cached_fetched|].
  destruct (follows_session batchSize prefetchThreshold fetchBatch favoritesApi
              events w) as (new & Hnew).
  apply follows_fresh in Hnew as (Hreq & _ & Hnot).
  exists new. split; [done|]. intros k Hk.
  apply Hnot, (cached_are_fetched_live w Hinv). by apply elem_of_dom.
Qed.

Lemma sized_prefetchNextBatch s w :
  (0 ≤ batchSize)%Z →
  sends_only (sized_request batchSize) w (prefetchNextBatch s w).
Proof.
  intros Hb. unfold Hook.prefetchNextBatch.
  case_bool_decide; [apply sends_only_refl|].
  case_match; [|apply sends_only_refl].
  case_bool_decide as Hpos; [|apply sends_only_refl].
  eapply sends_only_one; [apply requests_mutate|].
  apply sized_unfetched; [done|].
  rewrite slice_window by done. by apply length_window_le.
Qed.

Lemma sized_serve rnd s nextIndex quote w :
  (0 ≤ batchSize)%Z →
  sends_only (sized_request batchSize) w (serve rnd s nextIndex quote w).
Proof.
  intros Hb. unfold Hook.serve.
  destruct (sized_prefetchNextBatch s
              (setCurrentIdIndex (nextIndex + 1) (setCurrentQuote (Some quote) w))
              Hb) as (new & Hnew & Hsized).
  exists new. split; [|done]. by case_bool_decide.
Qed.

Lemma sized_loop rnd s fuel : ∀ nextIndex w,
  (0 ≤ batchSize)%Z →
  sends_only (sized_request batchSize) w
             (world_of (getNextQuote_loop rnd s fuel nextIndex w)).
Proof.
  induction fuel as [|fuel IH]; intros nextIndex w Hb;
    [apply sends_only_refl|].
  rewrite getNextQuote_loop_step.
  destruct (shuffledIds s !! nextIndex) as [nextId|]; [|apply sends_only_refl].
  destruct (quotesCache s !! nextId) as [quote|]; [by apply sized_serve|].
  simpl. case_match eqn:Hcond; [|by apply IH].
  apply andb_true_iff in Hcond as [_ Hpos%bool_decide_eq_true].
  match goal with |- context [mutateAsync ?ids w] =>
    assert (Hsent : sends_only (sized_request batchSize) w
                      (world_of (mutateAsync ids w)))
  end.
  { eapply sends_only_one; [apply requests_mutateAsync|].
    apply sized_unfetched; [done|].
    rewrite slice_batchEnd by done. by apply length_window_le. }
  match goal with |- context [mutateAsync ?ids w] =>
    destruct (mutateAsync ids w) as [w1|w1]
  end; simpl in *; [|done].
  eapply sends_only_trans; [done|by apply IH].
Qed.

(** X23.  With a batch size between 0 and 50, every batch request that
    a call of [getNextQuote] sends (those of the prefetch included) has
    between 1 and [batchSize] identifiers, and its body passes the
    validation of the batch endpoint. *)
Theorem getNextQuote_requests_accepted rnd s w :
  (0 ≤ batchSize ≤ 50)%Z →
  ∃ new, requests (world_of (getNextQuote rnd s w)) = requests w ++ new
         ∧ ∀ ids fetched, FetchBatch ids fetched ∈ new →
             (1 ≤ Z.of_nat (length ids) ≤ batchSize)%Z
             ∧ batchSchema_parse (batch_body ids) = Some ids.
Proof.
  intros [Hb Hmax].
  assert (Hsized : sends_only (sized_request batchSize) w
                     (world_of (getNextQuote rnd s w))).
  { unfold Hook.getNextQuote. case_bool_decide; [apply sends_only_refl|].
    by apply sized_loop. }
  destruct Hsized as (new & Hnew & Hsized). exists new. split; [done|].
  intros ids fetched Hin. rewrite Forall_forall in Hsized.
  specialize (Hsized _ Hin). split; [exact Hsized|].
  by eapply sized_request_accepted.
Qed.

End SessionInvariants.

(** ** The favorites endpoint, and the hook in front of it *)

Section FavoritesFacts.

Import QuoteService BatchRoute Hook FavoritesRoute.

Context {Date : Type}.
Variable toISOString : Date → string.

Implicit Types (db : @Database Date) (body : option JSON) (w : World).

Lemma database_eta db :
  {| quote_table := quote_table db; favorite_table := favorite_table db |} = db.
Proof. by destruct db. Qed.

Lemma filter_nil_complement {A} (P : A → Prop) `{!∀ x, Decision (P x)}
    (l : list A) :
  filter P l = [] → filter (λ x, ¬ P x) l = l.
Proof.
  induction l as [|x l IH]; [done|]. rewrite !filter_cons.
  destruct (decide (P x)); [done|]. intros Hnil.
  rewrite decide_True by done. by rewrite IH.
Qed.

Lemma findUnique_None db userId quoteId :
  findUnique db userId quoteId = None
  ↔ filter (λ f, f_userId f = userId ∧ f_quoteId f = quoteId)
           (favorite_table db) = [].
Proof. unfold findUnique. by destruct (filter _ _). Qed.

Lemma findUnique_None_exists db userId quoteId :
  findUnique db userId quoteId = None ↔ ¬ favorite_exists db userId quoteId.
Proof.
  rewrite findUnique_None. unfold favorite_exists. split.
  - intros Hnil (f & Hin & Hu & Hq).
    assert (Hf : f ∈ filter (λ f, f_userId f = userId ∧ f_quoteId f = quoteId)
                            (favorite_table db))
      by by apply list_elem_of_filter.
    rewrite Hnil in Hf. by apply elem_of_nil in Hf.
  - intros Hno. destruct (filter _ _) as [|f l] eqn:Hf; [done|].
    assert (Hin : f ∈ filter (λ f, f_userId f = userId ∧ f_quoteId f = quoteId)
                             (favorite_table db)) by (rewrite Hf; left).
    apply list_elem_of_filter in Hin as [[? ?] ?]. destruct Hno. eauto.
Qed.

Lemma getQuotesByIds_flag ids userId db v :
  v ∈ getQuotesByIds toISOString ids userId db →
  v_isFavorited v = true ↔ favorite_exists db userId (v_id v).
Proof.
  intros (q & Hq & Hin & Hid & ->)%elem_of_getQuotesByIds. simpl.
  rewrite bool_decide_eq_true, elem_of_list_to_set, list_elem_of_fmap.
  setoid_rewrite list_elem_of_filter. unfold favorite_exists. split.
  - intros (f & -> & [? _] & ?). eauto.
  - intros (f & ? & ? & Hf). exists f. by rewrite Hf.
Qed.

(** What a POST answered 201 has done. *)
Lemma POST_created session body db :
  status (FavoritesRoute.POST session body db) = 201 →
  ∃ userId quoteId json,
    session_user_id session = Some userId
    ∧ truthy (session_user_id session) = true
    ∧ body = Some json ∧ favoriteSchema_parse json = Some quoteId
    ∧ findUnique db userId quoteId = None
    ∧ quoteId ∈ q_id <$> quote_table db
    ∧ db_after (FavoritesRoute.POST session body db)
      = {| quote_table := quote_table db;
           favorite_table :=
             favorite_table db
             ++ [{| f_userId := userId; f_quoteId := quoteId |}] |}.
Proof.
  unfold FavoritesRoute.POST.
  destruct (truthy (session_user_id session)) eqn:Hauth; [|done].
  destruct (session_user_id session) as [userId|] eqn:Hu; [|done]. simpl.
  destruct body as [json|]; [|done].
  destruct (favoriteSchema_parse json) as [quoteId|] eqn:Hp; [|done].
  destruct (findUnique db userId quoteId) eqn:Hfind; [done|].
  unfold favorite_create. case_bool_decide; [|done]. simpl. intros _.
  by exists userId, quoteId, json.
Qed.

(** X24.  Removing a favorite through the hook cannot succeed.  For a
    cached quote that is a favorite, [toggleFavorite] sends DELETE
    without a body; the DELETE handler reads the quote id from a JSON
    body, so it answers 500 to a signed-in user (401 otherwise) and
    keeps the favorite row; the hook then takes its update back: the
    cache is what it was and "Failed to update favorite" is shown. *)
Theorem unfavorite_through_hook_fails session db w quoteId quote :
  quotesCache (live w) !! quoteId = Some quote →
  isFavorited quote = true →
  let outcome := toggle_fetch session db "DELETE" quoteId in
  let w' := toggleFavorite (toggle_api session db) (live w) quoteId w in
  (status outcome = 500 ∨ status outcome = 401)
  ∧ db_after outcome = db
  ∧ requests w' = requests w ++ [Favorite "DELETE" quoteId]
  ∧ quotesCache (live w') = quotesCache (live w)
  ∧ toasts w' = toasts w ++ [ToastError "Failed to update favorite"].
Proof.
  intros Hq Hfav outcome w'.
  assert (Hout : (status outcome = 500 ∨ status outcome = 401)
                 ∧ db_after outcome = db).
  { unfold outcome, toggle_fetch, toggle_body, FavoritesRoute.DELETE. simpl.
    destruct (truthy (session_user_id session)); simpl; auto. }
  destruct Hout as [Hstatus Hdb]. split_and!; [done..| | |].
  all: assert (Hapi : toggle_api session db "DELETE" quoteId = false)
    by (unfold toggle_api; fold outcome;
        destruct Hstatus as [-> | ->]; done).
  all: unfold w', toggleFavorite; rewrite Hq, Hfav, Hapi.
  all: destruct (is_current (live w) quoteId); simpl;
    by rewrite ?insert_insert_eq, ?insert_id.
Qed.

(** X25.  Adding a favorite.  For a signed-in user and a stored quote
    that is not yet a favorite of theirs, the POST handler answers 201
    and stores one row; from then on [getQuotesByIds] reports that quote
    as a favorite to this user, reports to every other user what it
    reported before, and the quote is listed under source FAVORITES. *)
Theorem favorite_added session db userId quoteId :
  session_user_id session = Some userId → userId ≠ "" →
  quoteId ∈ q_id <$> quote_table db →
  ¬ favorite_exists db userId quoteId →
  let outcome :=
    FavoritesRoute.POST session (toggle_body "POST" quoteId) db in
  let db' := db_after outcome in
  status outcome = 201
  ∧ toggle_api session db "POST" quoteId = true
  ∧ favorite_exists db' userId quoteId
  ∧ (∀ ids v, v ∈ getQuotesByIds toISOString ids userId db' →
       v_id v = quoteId → v_isFavorited v = true)
  ∧ (∀ ids other, other ≠ userId →
       getQuotesByIds toISOString ids other db'
       = getQuotesByIds toISOString ids other db)
  ∧ (∀ category, quoteId ∈ getQuoteIds FAVORITES userId category db').
Proof.
  intros Hu Hne Hstored Hnew outcome db'.
  assert (Hauth : truthy (session_user_id session) = true).
  { rewrite Hu. simpl. by rewrite (proj2 (String.eqb_neq _ _)). }
  apply findUnique_None_exists in Hnew.
  assert (Hout : outcome
            = {| status := 201;
                 db_after :=
                   {| quote_table := quote_table db;
                      favorite_table :=
                        favorite_table db
                        ++ [{| f_userId := userId; f_quoteId := quoteId |}] |} |}).
  { unfold outcome, FavoritesRoute.POST, toggle_body. simpl.
    rewrite Hauth, Hu. simpl. rewrite Hnew. unfold favorite_create.
    by rewrite bool_decide_eq_true_2. }
  assert (Hexists : favorite_exists db' userId quoteId).
  { unfold db'. rewrite Hout. simpl.
    exists {| f_userId := userId; f_quoteId := quoteId |}. simpl.
    split; [|done]. apply elem_of_app. right. left. }
  split_and!.
  - by rewrite Hout.
  - unfold toggle_api, toggle_fetch. simpl. fold outcome. by rewrite Hout.
  - done.
  - intros ids v Hv Hid.
    apply (getQuotesByIds_flag ids userId db' v Hv). by rewrite Hid.
  - intros ids other Hother. unfold db'. rewrite Hout. simpl.
    unfold getQuotesByIds. simpl. rewrite filter_app.
    rewrite (filter_cons_False _ {| f_userId := userId; f_quoteId := quoteId |})
      by (simpl; intros [? _]; congruence).
    by rewrite filter_nil, app_nil_r.
  - intros category. unfold getQuoteIds, db'. rewrite Hout. simpl.
    rewrite filter_app, fmap_app. apply elem_of_app. right.
    rewrite filter_cons_True by done. left.
Qed.

(** X26.  A favorite is stored once.  After a POST answered 201, the
    same request is answered 400 and changes nothing, so a pair of user
    and quote never has two rows through this handler. *)
Theorem favorite_added_once session body db :
  status (FavoritesRoute.POST session body db) = 201 →
  let db' := db_after (FavoritesRoute.POST session body db) in
  status (FavoritesRoute.POST session body db') = 400
  ∧ db_after (FavoritesRoute.POST session body db') = db'.
Proof.
  intros (userId & quoteId & json & Hu & Hauth & -> & Hp & Hfind & _ & Hdb)
    %POST_created db'.
  assert (Hfound : is_Some (findUnique db' userId quoteId)).
  { unfold db'. rewrite Hdb. unfold findUnique. simpl.
    apply findUnique_None in Hfind. rewrite filter_app, Hfind. simpl.
    rewrite filter_cons_True by done. by eexists. }
  destruct Hfound as [row Hrow].
  unfold FavoritesRoute.POST. rewrite Hauth, Hu. simpl. by rewrite Hp, Hrow.
Qed.

(** X27.  Adding then removing restores the table.  A DELETE that does
    carry the JSON body of a POST answered 201 just before is answered
    200 and leaves the database exactly as it was before the POST. *)
Theorem favorite_added_then_removed session body db :
  status (FavoritesRoute.POST session body db) = 201 →
  let db' := db_after (FavoritesRoute.POST session body db) in
  status (FavoritesRoute.DELETE session body db') = 200
  ∧ db_after (FavoritesRoute.DELETE session body db') = db.
Proof.
  intros (userId & quoteId & json & Hu & Hauth & -> & Hp & Hfind & _ & Hdb)
    %POST_created db'.
  apply findUnique_None in Hfind as Hnil.
  assert (Hdel : favorite_delete db' userId quoteId = Some db).
  { unfold favorite_delete, db'. rewrite Hdb. unfold findUnique. simpl.
    rewrite filter_app, Hnil. simpl.
    rewrite filter_cons_True by done. simpl.
    rewrite filter_app, (filter_nil_complement _ _ Hnil).
    rewrite filter_cons_False by (simpl; tauto).
    by rewrite filter_nil, app_nil_r, database_eta. }
  unfold FavoritesRoute.DELETE. rewrite Hauth, Hu. simpl. by rewrite Hp, Hdel.
Qed.

(** The requests of [toggleFavorite] as the endpoint answers them. *)
Lemma toggle_DELETE_refused session db quoteId :
  toggle_api session db "DELETE" quoteId = false
  ∧ db_after (toggle_fetch session db "DELETE" quoteId) = db.
Proof.
  unfold toggle_api, toggle_fetch, toggle_body, FavoritesRoute.DELETE. simpl.
  by destruct (truthy (session_user_id session)).
Qed.

Lemma toggle_POST_accepted session db userId quoteId :
  session_user_id session = Some userId → userId ≠ "" →
  quoteId ∈ q_id <$> quote_table db →
  ¬ favorite_exists db userId quoteId →
  toggle_api session db "POST" quoteId = true
  ∧ favorite_table (db_after (toggle_fetch session db "POST" quoteId))
    = favorite_table db ++ [{| f_userId := userId; f_quoteId := quoteId |}].
Proof.
  intros Hu Hne Hstored Hnew%findUnique_None_exists.
  unfold toggle_api, toggle_fetch, toggle_body, FavoritesRoute.POST. simpl.
  rewrite Hu. simpl. rewrite (proj2 (String.eqb_neq _ _)) by done. simpl.
  rewrite Hnew. unfold favorite_create. by rewrite bool_decide_eq_true_2.
Qed.

Lemma toggleFavorite_log api s quoteId quote w :
  quotesCache s !! quoteId = Some quote →
  requests (toggleFavorite api s quoteId w)
  = requests w
    ++ [Favorite (if isFavorited quote then "DELETE" else "POST") quoteId]
  ∧ toasts (toggleFavorite api s quoteId w)
    = toasts w
      ++ (if api (if isFavorited quote then "DELETE" else "POST") quoteId
          then [] else [ToastError "Failed to update favorite"]).
Proof.
  intros Hq. unfold toggleFavorite. rewrite Hq. simpl.
  destruct (api _ quoteId), (is_current s quoteId); simpl;
    by rewrite ?app_nil_r.
Qed.

(** X16.  Two toggles of the same quote through the endpoint do not
    cancel out.  For a signed-in user and a cached, stored quote that
    is not a favorite, the first toggle sends POST, the server stores
    the favorite and the entry is a favorite; the second toggle, made
    by the next render against the database the POST has left, sends
    DELETE without a body and is refused: the favorite stays in the
    database, the cache and the current quote stay as the first toggle
    left them, and "Failed to update favorite" is shown. *)
Theorem toggleFavorite_twice_through_server session db userId w quoteId quote :
  session_user_id session = Some userId → userId ≠ "" →
  quoteId ∈ q_id <$> quote_table db →
  ¬ favorite_exists db userId quoteId →
  quotesCache (live w) !! quoteId = Some quote →
  isFavorited quote = false →
  let db' := db_after (toggle_fetch session db "POST" quoteId) in
  let w1 := toggleFavorite (toggle_api session db) (live w) quoteId w in
  let w2 := toggleFavorite (toggle_api session db') (live w1) quoteId w1 in
  quotesCache (live w1) !! quoteId = Some (toggled quote)
  ∧ favorite_exists db' userId quoteId
  ∧ db_after (toggle_fetch session db' "DELETE" quoteId) = db'
  ∧ quotesCache (live w2) = quotesCache (live w1)
  ∧ currentQuote (live w2) = currentQuote (live w1)
  ∧ requests w2
    = requests w ++ [Favorite "POST" quoteId; Favorite "DELETE" quoteId]
  ∧ toasts w2 = toasts w ++ [ToastError "Failed to update favorite"].
Proof.
  intros Hu Hne Hstored Hnew Hq Hfav db' w1 w2.
  destruct (toggle_POST_accepted session db userId quoteId Hu Hne Hstored Hnew)
    as [Hpost Htable].
  destruct (toggle_DELETE_refused session db' quoteId) as [Hdelete Hkept].
  assert (Hw1 : w1 = send (Favorite "POST" quoteId)
      ((if is_current (live w) quoteId
        then setCurrentQuote (Some (toggled quote)) else λ w, w)
         (setQuotesCache (<[quoteId := toggled quote]> (quotesCache (live w))) w))).
  { unfold w1, toggleFavorite. rewrite Hq, Hfav, Hpost.
    by destruct (is_current (live w) quoteId). }
  assert (Hq1 : quotesCache (live w1) !! quoteId = Some (toggled quote)).
  { rewrite Hw1. destruct (is_current (live w) quoteId); simpl;
      by rewrite lookup_insert_eq. }
  assert (Hcur : is_current (live w1) quoteId = true →
                 currentQuote (live w1) = Some (toggled quote)).
  { rewrite Hw1. unfold is_current.
    destruct (currentQuote (live w)) as [c|] eqn:Hc; simpl;
      [|by rewrite Hc].
    case_bool_decide; simpl; [done|]. rewrite Hc. by case_bool_decide. }
  split_and!; [done| |done|..].
  - exists {| f_userId := userId; f_quoteId := quoteId |}.
    split; [|done]. unfold db'. rewrite Htable. apply elem_of_app. right. left.
  - unfold w2, toggleFavorite. rewrite Hq1. simpl. rewrite Hfav. simpl.
    rewrite Hdelete. destruct (is_current (live w1) quoteId); simpl;
      by rewrite insert_insert_eq, insert_id.
  - unfold w2, toggleFavorite. rewrite Hq1. simpl. rewrite Hfav. simpl.
    rewrite Hdelete. destruct (is_current (live w1) quoteId) eqn:Hc; simpl;
      [by rewrite Hcur|done].
  - destruct (toggleFavorite_log (toggle_api session db') (live w1) quoteId
                (toggled quote) w1 Hq1) as [Hr2 _].
    destruct (toggleFavorite_log (toggle_api session db) (live w) quoteId
                quote w Hq) as [Hr1 _].
    fold w1 in Hr1. fold w2 in Hr2. rewrite Hr2, Hr1.
    simpl. rewrite Hfav. simpl. by rewrite <- app_assoc.
  - destruct (toggleFavorite_log (toggle_api session db') (live w1) quoteId
                (toggled quote) w1 Hq1) as [_ Ht2].
    destruct (toggleFavorite_log (toggle_api session db) (live w) quoteId
                quote w Hq) as [_ Ht1].
    fold w1 in Ht1. fold w2 in Ht2. rewrite Ht2, Ht1.
    simpl. rewrite Hfav. simpl. by rewrite Hpost, Hdelete, app_nil_r.
Qed.

End FavoritesFacts.

(** ** Utilities *)

Section UtilsFacts.

Import Utils.

(** X28.  [formatInterval] on a whole number of seconds in the safe
    integer range names the largest unit that fits and counts whole
    units of it: below a minute the seconds themselves, always followed
    by "seconds" (also for 1); from a minute on a count of at least 1
    (at most 59 minutes, at most 23 hours), with the unit in the plural
    exactly when the count is not 1. *)
Theorem formatInterval_reads (seconds : Z) :
  isSafeInteger seconds →
  ((seconds < 60)%Z → formatInterval seconds = pretty seconds +:+ " seconds")
  ∧ ((60 ≤ seconds < 3600)%Z →
     (1 ≤ seconds / 60 ≤ 59)%Z
     ∧ formatInterval seconds
       = pretty (seconds / 60)%Z +:+ " minute"
         +:+ (if decide (seconds / 60 = 1)%Z then "" else "s"))
  ∧ ((3600 ≤ seconds < 86400)%Z →
     (1 ≤ seconds / 3600 ≤ 23)%Z
     ∧ formatInterval seconds
       = pretty (seconds / 3600)%Z +:+ " hour"
         +:+ (if decide (seconds / 3600 = 1)%Z then "" else "s"))
  ∧ ((86400 ≤ seconds)%Z →
     (1 ≤ seconds / 86400)%Z
     ∧ formatInterval seconds
       = pretty (seconds / 86400)%Z +:+ " day"
         +:+ (if decide (seconds / 86400 = 1)%Z then "" else "s")).
Proof.
  intros _. unfold formatInterval. split_and!; intros Hrange.
  - by rewrite (proj2 (Z.ltb_lt _ _)) by lia.
  - rewrite (proj2 (Z.ltb_ge _ _)), (proj2 (Z.ltb_lt _ _)) by lia.
    split; [Z.div_mod_to_equations; lia|].
    destruct (Z.leb_spec 120 seconds); case_decide; try done;
      Z.div_mod_to_equations; lia.
  - rewrite !(proj2 (Z.ltb_ge _ _)), (proj2 (Z.ltb_lt _ _)) by lia.
    split; [Z.div_mod_to_equations; lia|].
    destruct (Z.leb_spec 7200 seconds); case_decide; try done;
      Z.div_mod_to_equations; lia.
  - rewrite !(proj2 (Z.ltb_ge _ _)) by lia.
    split; [Z.div_mod_to_equations; lia|].
    destruct (Z.leb_spec 172800 seconds); case_decide; try done;
      Z.div_mod_to_equations; lia.
Qed.

End UtilsFacts.

(** ** The further properties on the sample data *)

Section MoreExamples.

Import QuoteService BatchRoute Hook Samples Batches IdsRoute FavoritesRoute.
Import Utils Lifecycle MoreSamples.

Lemma sample_db_ids_NoDup : NoDup (q_id <$> quote_table sample_db).
Proof.
  apply (bool_decide_unpack (NoDup (q_id <$> quote_table sample_db))).
  by vm_compute.
Qed.

Lemma getQuotesByIds_set_of_ids_witness :
  getQuotesByIds sample_iso ["q3"; "q1"; "q3"; "zz"] "u1" sample_db
  = getQuotesByIds sample_iso ["zz"; "q1"; "q3"] "u1" sample_db
  ∧ v_id <$> getQuotesByIds sample_iso ["q3"; "q1"; "q3"; "zz"] "u1" sample_db
    = filter (λ qid, qid ∈ ["q3"; "q1"; "q3"; "zz"])
             (q_id <$> quote_table sample_db).
Proof.
  apply (getQuotesByIds_set_of_ids sample_iso ["q3"; "q1"; "q3"; "zz"]
           ["zz"; "q1"; "q3"] "u1" sample_db).
  intros qid. rewrite !elem_of_cons. tauto.
Defined.

Lemma getQuotesByIds_at_most_requested_witness :
  NoDup (v_id <$> getQuotesByIds sample_iso ["q1"; "q3"; "zz"] "u1" sample_db)
  ∧ length (getQuotesByIds sample_iso ["q1"; "q3"; "zz"] "u1" sample_db) ≤ 3.
Proof.
  apply (getQuotesByIds_at_most_requested sample_iso ["q1"; "q3"; "zz"] "u1"
           sample_db).
  apply sample_db_ids_NoDup.
Defined.

Lemma getNextBatch_window_witness :
  length (getNextBatch ["a"; "b"; "c"; "d"; "e"] (Z.of_nat 3) 4)
  = Nat.min (Z.to_nat 4) (length ["a"; "b"; "c"; "d"; "e"] - 3)
  ∧ (∀ k, k < Z.to_nat 4 →
       getNextBatch ["a"; "b"; "c"; "d"; "e"] (Z.of_nat 3) 4 !! k
       = ["a"; "b"; "c"; "d"; "e"] !! (3 + k))
  ∧ (length ["a"; "b"; "c"; "d"; "e"] ≤ 3 →
       getNextBatch ["a"; "b"; "c"; "d"; "e"] (Z.of_nat 3) 4 = []).
Proof.
  apply (getNextBatch_window ["a"; "b"; "c"; "d"; "e"] 3 4). lia.
Defined.

Example getNextBatch_sample :
  getNextBatch ["a"; "b"; "c"; "d"; "e"] 3 4 = ["d"; "e"]
  ∧ getNextBatch ["a"; "b"; "c"; "d"; "e"] 7 4 = []
  ∧ getNextBatch ["a"; "b"; "c"; "d"; "e"] 0 2 = ["a"; "b"].
Proof. by vm_compute. Qed.

Lemma getNextBatch_consecutive_witness :
  getNextBatch ["a"; "b"; "c"; "d"; "e"] (Z.of_nat 1) 2
  ++ getNextBatch ["a"; "b"; "c"; "d"; "e"] (Z.of_nat 1 + 2) 2
  = getNextBatch ["a"; "b"; "c"; "d"; "e"] (Z.of_nat 1) (2 + 2).
Proof.
  apply (getNextBatch_consecutive ["a"; "b"; "c"; "d"; "e"] 1 2 2); lia.
Defined.

Lemma shuffleArray_reaches_every_permutation_witness :
  ∃ rnd, unit_draws rnd ∧ shuffleArray rnd [1; 2; 3] = [3; 1; 2].
Proof.
  apply (shuffleArray_reaches_every_permutation [1; 2; 3] [3; 1; 2]).
  apply (Permutation_cons_append [1; 2] 3).
Defined.

Lemma batch_response_bounded_witness :
  let body := Some (JObject [("ids", JArray [JString "q1"; JString "zz"])]) in
  let quotes := getQuotesByIds sample_iso ["q1"; "zz"] "u1" sample_db in
  length quotes ≤ 50
  ∧ ∃ ids, well_formed_body body ids
           ∧ length quotes ≤ length ids
           ∧ ∀ v, v ∈ quotes → v_id v ∈ ids.
Proof.
  intros body quotes.
  apply (batch_response_bounded sample_iso sample_session body sample_db quotes).
  - apply sample_db_ids_NoDup.
  - reflexivity.
Defined.

Lemma ids_route_defaults_to_both_witness :
  let params := [("source", "EVERYTHING"); ("category", "")] in
  let ids := getQuoteIds BOTH "u1" (searchParams_get "category" params)
                         sample_db in
  GET sample_session params sample_db
  = {| IdsRoute.status := 200;
       IdsRoute.payload := IdsPayload ids (length ids) |}.
Proof.
  intros params.
  apply (ids_route_defaults_to_both sample_session params sample_db "u1");
    done.
Defined.

Example ids_route_sample :
  GET sample_session [("source", "EVERYTHING"); ("category", "")] sample_db
  = {| IdsRoute.status := 200;
       IdsRoute.payload := IdsPayload ["q1"; "q2"; "q3"] 3 |}
  ∧ GET sample_session [("source", "CUSTOM")] sample_db
    = {| IdsRoute.status := 200; IdsRoute.payload := IdsPayload ["q3"] 1 |}
  ∧ IdsRoute.status (GET None [] sample_db) = 401.
Proof. by vm_compute. Qed.

Lemma onSuccess_round_trip_witness :
  quotesCache (live (onSuccess (quotesCache sample_state_start)
                       [sample_quote "c"; sample_quote "d"]
                       sample_world)) !! id (sample_quote "d")
  = Some (sample_quote "d").
Proof.
  apply (onSuccess_round_trip (quotesCache sample_state_start)
           [sample_quote "c"; sample_quote "d"] sample_world).
  - apply (bool_decide_unpack
             (NoDup (id <$> [sample_quote "c"; sample_quote "d"]))).
    by vm_compute.
  - right. left.
Defined.

Lemma initialize_once_witness :
  let w1 := initialize sample_random (Some ["x"; "y"; "z"])
              (live sample_world_blank) sample_world_blank in
  allQuoteIds (live w1) = ["x"; "y"; "z"]
  ∧ shuffledIds (live w1) ≡ₚ ["x"; "y"; "z"]
  ∧ isInitialized (live w1) = true
  ∧ currentIdIndex (live w1) = currentIdIndex (live sample_world_blank)
  ∧ initialize sample_random (Some ["p"; "q"]) (live w1) w1 = w1.
Proof.
  apply (initialize_once sample_random sample_random ["x"; "y"; "z"]
           (Some ["p"; "q"]) (live sample_world_blank) sample_world_blank).
  - reflexivity.
  - simpl. lia.
  - apply sample_random_unit_draws.
Defined.

Lemma formatInterval_reads_witness :
  (1 ≤ 90 / 60 ≤ 59)%Z
  ∧ formatInterval 90
    = pretty (90 / 60)%Z +:+ " minute"
      +:+ (if decide (90 / 60 = 1)%Z then "" else "s").
Proof.
  apply (formatInterval_reads 90); [|lia].
  unfold isSafeInteger, MAX_SAFE_INTEGER. lia.
Defined.

Lemma getNextQuote_idle_at_end_witness :
  session 20 5 sample_fetchBatch failing_favoritesApi
    (CallGetNextQuote <$> [sample_random; sample_random; sample_random])
    sample_world_single
  = sample_world_single.
Proof.
  apply (getNextQuote_idle_at_end 20 5 sample_fetchBatch failing_favoritesApi
           sample_world_single [sample_random; sample_random; sample_random]).
  simpl. lia.
Defined.

Lemma getNextQuote_shows_cached_witness :
  ∃ w', getNextQuote 2 5 sample_fetchBatch sample_random
          (live sample_world_start) sample_world_start = Resolved w'
        ∧ currentQuote (live w') = Some (sample_quote "b")
        ∧ currentIdIndex (live w') = currentIdIndex (live sample_world_start) + 1
        ∧ shuffledIds (live w') = shuffledIds (live sample_world_start)
        ∧ allQuoteIds (live w') = allQuoteIds (live sample_world_start)
        ∧ quotesCache (live w') = quotesCache (live sample_world_start)
        ∧ fetchedIds w' = fetchedIds sample_world_start
        ∧ toasts w' = toasts sample_world_start.
Proof.
  apply (getNextQuote_shows_cached 2 5 sample_fetchBatch sample_random
           (live sample_world_start) sample_world_start "b" (sample_quote "b")).
  - reflexivity.
  - by vm_compute.
  - simpl. lia.
Defined.

Lemma getNextQuote_rejects_cleanly_witness :
  let w' := world_of (getNextQuote 2 5 failing_fetchBatch sample_random
                        (live sample_world) sample_world) in
  currentQuote (live w') = currentQuote (live sample_world)
  ∧ currentIdIndex (live w') = currentIdIndex (live sample_world)
  ∧ shuffledIds (live w') = shuffledIds (live sample_world)
  ∧ allQuoteIds (live w') = allQuoteIds (live sample_world)
  ∧ toasts w' = toasts sample_world ++ [ToastError "Failed to load quotes"]
  ∧ ∃ n ids, failing_fetchBatch n ids = None.
Proof.
  intros w'.
  apply (getNextQuote_rejects_cleanly 2 5 failing_fetchBatch sample_random
           (live sample_world) sample_world w').
  by vm_compute.
Defined.

Lemma superseded_batch_drops_bodies_witness :
  let w1 := mutate ["c"] sample_world_start in
  let w2 := world_of (mutateAsync sample_fetchBatch ["c"; "d"] w1) in
  let w3 := deliver sample_fetchBatch w2 in
  (∀ q, q ∈ [sample_quote "c"; sample_quote "d"] →
     quotesCache (live w2) !! id q ≠ None)
  ∧ (∀ q, q ∈ [sample_quote "c"; sample_quote "d"] → id q ∈ fetchedIds w3)
  ∧ (∀ k, k ∉ id <$> [sample_quote "c"] →
       quotesCache (live w3) !! k = quotesCache (live sample_world_start) !! k)
  ∧ inflight w3 = [].
Proof.
  apply (superseded_batch_drops_bodies sample_fetchBatch ["c"] ["c"; "d"]
           [sample_quote "c"] [sample_quote "c"; sample_quote "d"]
           sample_world_start); reflexivity.
Defined.

(** The body of [d], delivered by the later batch, is lost when the
    response of the earlier one arrives, and [d] is never requested
    again. *)
Example superseded_batch_sample :
  let w :=
    session 2 5 sample_fetchBatch failing_favoritesApi
      [CallGetNextQuote sample_random; CallGetNextQuote sample_random;
       ResponseArrives; CallGetNextQuote sample_random;
       CallGetNextQuote sample_random]
      sample_world_start in
  quotesCache (live w) !! "d" = None
  ∧ "d" ∈ elements (fetchedIds w)
  ∧ requested_ids (requests w) = ["c"; "c"; "d"].
Proof. vm_compute. split_and!; [done| |done]. set_solver. Qed.

Lemma reset_reuses_held_list_witness :
  let w1 := reset sample_world in
  let w2 := initialize sample_random (Some ["a"; "b"; "c"; "d"]) (live w1) w1 in
  let w3 := initialize sample_random (Some ["x"; "y"; "z"]) (live w2) w2 in
  requests w1 = requests sample_world ++ [ListIds]
  ∧ inflight w1 = inflight sample_world
  ∧ allQuoteIds (live w2) = ["a"; "b"; "c"; "d"]
  ∧ shuffledIds (live w2) ≡ₚ ["a"; "b"; "c"; "d"]
  ∧ currentIdIndex (live w2) = 0
  ∧ quotesCache (live w2) = ∅
  ∧ currentQuote (live w2) = None
  ∧ fetchedIds w2 = ∅
  ∧ requests w2 = requests w1
  ∧ w3 = w2.
Proof.
  apply (reset_reuses_held_list sample_random sample_random
           ["a"; "b"; "c"; "d"] (Some ["x"; "y"; "z"]) sample_world).
  - simpl. lia.
  - apply sample_random_unit_draws.
Defined.

Lemma first_quote_shown_witness :
  let w1 := loadFirstBatch 2 (live sample_world_fresh) sample_world_fresh in
  let w2 := deliver sample_fetchBatch w1 in
  let w3 := showFirstQuote (live w2) w2 in
  requests w1
  = requests sample_world_fresh
    ++ [FetchBatch (take (Z.to_nat 2) (shuffledIds (live sample_world_fresh)))
                   (fetchedIds sample_world_fresh)]
  ∧ ∃ q, q ∈ [sample_quote "a"; sample_quote "b"] ∧ id q = "a"
         ∧ currentQuote (live w3) = Some q
         ∧ currentIdIndex (live w3) = 1
         ∧ "a" ∈ fetchedIds w3.
Proof.
  apply (first_quote_shown 2 sample_fetchBatch sample_world_fresh
           "a" ["b"; "c"; "d"] [sample_quote "a"; sample_quote "b"]).
  - lia.
  - reflexivity.
  - reflexivity.
  - reflexivity.
  - reflexivity.
  - reflexivity.
  - simpl. left.
Defined.

Lemma first_batch_against_limit_witness :
  let ids := take (Z.to_nat 2) (shuffledIds (live sample_world_fresh)) in
  requests (loadFirstBatch 2 (live sample_world_fresh) sample_world_fresh)
  = requests sample_world_fresh ++ [FetchBatch ids (fetchedIds sample_world_fresh)]
  ∧ ∀ (Date : Type) (toISOString : Date → string)
      (session : option Session) (db : @Database Date),
      truthy (session_user_id session) = true →
      BatchRoute.status
        (response (BatchRoute.POST toISOString session (Some (batch_body ids)) db))
      = if decide ((2 ≤ 50)%Z ∨ length (shuffledIds (live sample_world_fresh)) ≤ 50)
        then 200 else 400.
Proof.
  apply (first_batch_against_limit 2 (live sample_world_fresh)
           sample_world_fresh).
  - lia.
  - discriminate.
  - reflexivity.
Defined.

Lemma session_keeps_shuffle_witness :
  let events := [CallGetNextQuote sample_random; ResponseArrives;
                 CallToggleFavorite "b"; CallGetNextQuote sample_random] in
  let w' := session 2 5 sample_fetchBatch accepting_favoritesApi events
              sample_world_start in
  position_in_range w' ∧ shuffle_of_all w'
  ∧ allQuoteIds (live w') = allQuoteIds (live sample_world_start).
Proof.
  intros events.
  apply (session_keeps_shuffle 2 5 sample_fetchBatch accepting_favoritesApi
           events sample_world_start).
  - repeat constructor; apply sample_random_unit_draws.
  - unfold position_in_range. simpl. lia.
  - unfold shuffle_of_all. reflexivity.
Defined.

Lemma stats_add_up_witness :
  let events := [CallGetNextQuote sample_random; ResponseArrives;
                 CallToggleFavorite "b"; CallGetNextQuote sample_random] in
  let st := stats (live (session 2 5 sample_fetchBatch accepting_favoritesApi
                           events sample_world_start)) in
  (Z.of_nat (currentPosition st) + remainingInShuffle st
   = Z.of_nat (totalQuotes st))%Z
  ∧ totalQuotes st = length (allQuoteIds (live sample_world_start)).
Proof.
  intros events.
  apply (stats_add_up 2 5 sample_fetchBatch accepting_favoritesApi
           events sample_world_start).
  - repeat constructor; apply sample_random_unit_draws.
  - unfold position_in_range. simpl. lia.
  - unfold shuffle_of_all. reflexivity.
Defined.

Lemma sample_world_start_cached_fetched : cached_are_fetched sample_world_start.
Proof.
  unfold cached_are_fetched, caches. simpl. apply Forall_singleton.
  rewrite !dom_insert_L, dom_empty_L. set_solver.
Qed.

Lemma session_keeps_cached_fetched_witness :
  let events := [CallGetNextQuote sample_random; ResponseArrives;
                 CallToggleFavorite "b"; CallGetNextQuote sample_random] in
  let w' := session 2 5 sample_fetchBatch accepting_favoritesApi events
              sample_world_start in
  cached_are_fetched w'
  ∧ ∃ new, requests w' = requests sample_world_start ++ new
           ∧ ∀ k, is_Some (quotesCache (live sample_world_start) !! k) →
                  k ∉ requested_ids new.
Proof.
  intros events.
  apply (session_keeps_cached_fetched 2 5 sample_fetchBatch
           accepting_favoritesApi events sample_world_start).
  apply sample_world_start_cached_fetched.
Defined.

Lemma getNextQuote_requests_accepted_witness :
  ∃ new, requests (world_of (getNextQuote 2 5 sample_fetchBatch sample_random
                               (live sample_world) sample_world))
         = requests sample_world ++ new
         ∧ ∀ ids fetched, FetchBatch ids fetched ∈ new →
             (1 ≤ Z.of_nat (length ids) ≤ 2)%Z
             ∧ batchSchema_parse (batch_body ids) = Some ids.
Proof.
  apply (getNextQuote_requests_accepted 2 5 sample_fetchBatch sample_random
           (live sample_world) sample_world).
  lia.
Defined.

Lemma unfavorite_through_hook_fails_witness :
  let outcome := toggle_fetch sample_session sample_db "DELETE" "a" in
  let w' := toggleFavorite (toggle_api sample_session sample_db)
              (live sample_world_favorite) "a" sample_world_favorite in
  (FavoritesRoute.status outcome = 500 ∨ FavoritesRoute.status outcome = 401)
  ∧ db_after outcome = sample_db
  ∧ requests w' = requests sample_world_favorite ++ [Favorite "DELETE" "a"]
  ∧ quotesCache (live w') = quotesCache (live sample_world_favorite)
  ∧ toasts w'
    = toasts sample_world_favorite ++ [ToastError "Failed to update favorite"].
Proof.
  apply (unfavorite_through_hook_fails sample_session sample_db
           sample_world_favorite "a" (sample_favorite "a")).
  - by vm_compute.
  - reflexivity.
Defined.

Lemma sample_q3_not_favorite : ¬ favorite_exists sample_db "u1" "q3".
Proof. intros (f & Hin & _ & Hq). simpl in Hin. set_solver. Qed.

Lemma favorite_added_witness :
  let outcome :=
    FavoritesRoute.POST sample_session (toggle_body "POST" "q3") sample_db in
  let db' := db_after outcome in
  FavoritesRoute.status outcome = 201
  ∧ toggle_api sample_session sample_db "POST" "q3" = true
  ∧ favorite_exists db' "u1" "q3"
  ∧ (∀ ids v, v ∈ getQuotesByIds sample_iso ids "u1" db' →
       v_id v = "q3" → v_isFavorited v = true)
  ∧ (∀ ids other, other ≠ "u1" →
       getQuotesByIds sample_iso ids other db'
       = getQuotesByIds sample_iso ids other sample_db)
  ∧ (∀ category, "q3" ∈ getQuoteIds FAVORITES "u1" category db').
Proof.
  apply (favorite_added sample_iso sample_session sample_db "u1" "q3").
  - reflexivity.
  - discriminate.
  - simpl. set_solver.
  - apply sample_q3_not_favorite.
Defined.

Lemma toggleFavorite_twice_through_server_witness :
  let db' := db_after (toggle_fetch sample_session sample_db "POST" "q3") in
  let w1 := toggleFavorite (toggle_api sample_session sample_db)
              (live sample_world_q3) "q3" sample_world_q3 in
  let w2 := toggleFavorite (toggle_api sample_session db') (live w1) "q3" w1 in
  quotesCache (live w1) !! "q3" = Some (toggled (sample_quote "q3"))
  ∧ favorite_exists db' "u1" "q3"
  ∧ db_after (toggle_fetch sample_session db' "DELETE" "q3") = db'
  ∧ quotesCache (live w2) = quotesCache (live w1)
  ∧ currentQuote (live w2) = currentQuote (live w1)
  ∧ requests w2
    = requests sample_world_q3 ++ [Favorite "POST" "q3"; Favorite "DELETE" "q3"]
  ∧ toasts w2
    = toasts sample_world_q3 ++ [ToastError "Failed to update favorite"].
Proof.
  apply (toggleFavorite_twice_through_server sample_session sample_db "u1"
           sample_world_q3 "q3" (sample_quote "q3")).
  - reflexivity.
  - discriminate.
  - simpl. set_solver.
  - apply sample_q3_not_favorite.
  - by vm_compute.
  - reflexivity.
Defined.

Lemma favorite_added_once_witness :
  let body := toggle_body "POST" "q3" in
  let db' := db_after (FavoritesRoute.POST sample_session body sample_db) in
  FavoritesRoute.status (FavoritesRoute.POST sample_session body db') = 400
  ∧ db_after (FavoritesRoute.POST sample_session body db') = db'.
Proof.
  intros body.
  apply (favorite_added_once sample_session body sample_db).
  by vm_compute.
Defined.

Lemma favorite_added_then_removed_witness :
  let body := toggle_body "POST" "q3" in
  let db' := db_after (FavoritesRoute.POST sample_session body sample_db) in
  FavoritesRoute.status (FavoritesRoute.DELETE sample_session body db') = 200
  ∧ db_after (FavoritesRoute.DELETE sample_session body db') = sample_db.
Proof.
  intros body.
  apply (favorite_added_then_removed sample_session body sample_db).
  by vm_compute.
Defined.

Example formatInterval_sample :
  formatInterval 1 = "1 seconds"
  ∧ formatInterval 60 = "1 minute"
  ∧ formatInterval 119 = "1 minute"
  ∧ formatInterval 120 = "2 minutes"
  ∧ formatInterval 86400 = "1 day"
  ∧ (formatInterval <$> ROTATION_INTERVALS.*1)
    = ["10 seconds"; "30 seconds"; "1 minute"; "10 minutes"; "1 hour";
       "12 hours"; "1 day"].
Proof. by vm_compute. Qed.

End MoreExamples.
